(** * A shallow embedding of the chess engine in [native-lib.cpp]

    The development follows the class [ChessGame] of [src/native-lib.cpp]:
    the board is the 8x8 array of [Piece] kept row-major, the member
    variables are the fields of [GameState], and every member function
    that assigns to a member is a function from the state to a result and
    the state it leaves behind.  Member functions that contain no
    assignment to a member ([getPseudoLegalMoves], [isSquareAttacked],
    [isInCheck], [evaluateBoard]) read the state only.

    Integers are [Z].  All arithmetic of the engine stays far below the
    32-bit range (coordinates, and scores bounded by 64 * 20060 and the
    constants 999999), so no wrap-around is written. *)

From stdpp Require Import base decidable list numbers.
From Stdlib Require Import ZArith Lia Bool.
From Stdlib Require Import Sorting.Sorted.

Local Open Scope Z_scope.

(** ** Data model (lines 16-43) *)

Inductive PieceType := EMPTY | PAWN | KNIGHT | BISHOP | ROOK | QUEEN | KING.
Inductive Color := NONE | WHITE | BLACK.

#[global] Instance PieceType_eq_dec : EqDecision PieceType.
Proof. solve_decision. Defined.
#[global] Instance Color_eq_dec : EqDecision Color.
Proof. solve_decision. Defined.

Record Piece := mkPiece {
  type : PieceType;
  color : Color;
  hasMoved : bool
}.

#[global] Instance Piece_eq_dec : EqDecision Piece.
Proof. solve_decision. Defined.

Record Move := mkMove {
  fromRow : Z; fromCol : Z; toRow : Z; toCol : Z;
  isCapture : bool;
  isCastling : bool;
  isEnPassant : bool;
  isPromotion : bool;
  score : Z
}.

#[global] Instance Move_eq_dec : EqDecision Move.
Proof. solve_decision. Defined.

(** [Piece board[8][8]], row-major: [board[r][c]] is element [8 * r + c]. *)
Abbreviation Board := (list Piece).

Record GameState := mkGame {
  board : Board;
  currentPlayer : Color;
  whiteKingMoved : bool;
  blackKingMoved : bool;
  whiteRookAMoved : bool;
  whiteRookHMoved : bool;
  blackRookAMoved : bool;
  blackRookHMoved : bool;
  enPassantCol : Z;
  enPassantRow : Z;
  moveHistory : list Move
}.

#[global] Instance GameState_eq_dec : EqDecision GameState.
Proof. solve_decision. Defined.

(** The brace initialiser [{EMPTY, NONE, false}]. *)
Definition emptyPiece : Piece := mkPiece EMPTY NONE false.

(** [isValidPosition] (lines 104-106). *)
Definition isValidPosition (row col : Z) : bool :=
  (row >=? 0) && (row <? 8) && (col >=? 0) && (col <? 8).

Definition idx (r c : Z) : nat := Z.to_nat (8 * r + c).

(** Reading [board[r][c]].  An index outside the array is undefined
    behaviour in C++; the embedding reads an empty square there.  Every
    theorem below is about accesses inside the array. *)
Definition cell (b : Board) (r c : Z) : Piece :=
  if isValidPosition r c then default emptyPiece (b !! idx r c) else emptyPiece.

(** The assignment [board[r][c] = p]; outside the array nothing is written. *)
Definition setCell (b : Board) (r c : Z) (p : Piece) : Board :=
  if isValidPosition r c then <[idx r c := p]> b else b.

(** Assignments to single members. *)
Definition withBoard (s : GameState) (b : Board) : GameState :=
  mkGame b (currentPlayer s) (whiteKingMoved s) (blackKingMoved s)
         (whiteRookAMoved s) (whiteRookHMoved s) (blackRookAMoved s)
         (blackRookHMoved s) (enPassantCol s) (enPassantRow s) (moveHistory s).

Definition withPlayer (s : GameState) (p : Color) : GameState :=
  mkGame (board s) p (whiteKingMoved s) (blackKingMoved s)
         (whiteRookAMoved s) (whiteRookHMoved s) (blackRookAMoved s)
         (blackRookHMoved s) (enPassantCol s) (enPassantRow s) (moveHistory s).

Definition withEnPassant (s : GameState) (col row : Z) : GameState :=
  mkGame (board s) (currentPlayer s) (whiteKingMoved s) (blackKingMoved s)
         (whiteRookAMoved s) (whiteRookHMoved s) (blackRookAMoved s)
         (blackRookHMoved s) col row (moveHistory s).

Definition withFlags (s : GameState) (wk bk wra wrh bra brh : bool) : GameState :=
  mkGame (board s) (currentPlayer s) wk bk wra wrh bra brh
         (enPassantCol s) (enPassantRow s) (moveHistory s).

(** [board[r][c] = p] on the state. *)
Definition put (r c : Z) (p : Piece) (s : GameState) : GameState :=
  withBoard s (setCell (board s) r c p).

Definition at_ (s : GameState) (r c : Z) : Piece := cell (board s) r c.

Definition opponent (c : Color) : Color :=
  if bool_decide (c = WHITE) then BLACK else WHITE.

(** The index ranges of the [for] loops. *)
Definition range8 : list Z := [0; 1; 2; 3; 4; 5; 6; 7].

(** All squares in the order of the nested loops
    [for r in 0..7, for c in 0..7]. *)
Definition squares : list (Z * Z) :=
  flat_map (fun r => map (fun c => (r, c)) range8) range8.

(** ** [initializeBoard] (lines 50-92) *)

Definition clearedBoard : Board := replicate 64 emptyPiece.

Definition initializeBoard : GameState :=
  let b := clearedBoard in
  let b := setCell b 0 0 (mkPiece ROOK BLACK false) in
  let b := setCell b 0 1 (mkPiece KNIGHT BLACK false) in
  let b := setCell b 0 2 (mkPiece BISHOP BLACK false) in
  let b := setCell b 0 3 (mkPiece QUEEN BLACK false) in
  let b := setCell b 0 4 (mkPiece KING BLACK false) in
  let b := setCell b 0 5 (mkPiece BISHOP BLACK false) in
  let b := setCell b 0 6 (mkPiece KNIGHT BLACK false) in
  let b := setCell b 0 7 (mkPiece ROOK BLACK false) in
  let b := fold_left (fun b i => setCell b 1 i (mkPiece PAWN BLACK false)) range8 b in
  let b := setCell b 7 0 (mkPiece ROOK WHITE false) in
  let b := setCell b 7 1 (mkPiece KNIGHT WHITE false) in
  let b := setCell b 7 2 (mkPiece BISHOP WHITE false) in
  let b := setCell b 7 3 (mkPiece QUEEN WHITE false) in
  let b := setCell b 7 4 (mkPiece KING WHITE false) in
  let b := setCell b 7 5 (mkPiece BISHOP WHITE false) in
  let b := setCell b 7 6 (mkPiece KNIGHT WHITE false) in
  let b := setCell b 7 7 (mkPiece ROOK WHITE false) in
  let b := fold_left (fun b i => setCell b 6 i (mkPiece PAWN WHITE false)) range8 b in
  mkGame b WHITE false false false false false false (-1) (-1) [].

(** Enumerator values, for [getPiece]'s encoding. *)
Definition typeCode (t : PieceType) : Z :=
  match t with
  | EMPTY => 0 | PAWN => 1 | KNIGHT => 2 | BISHOP => 3
  | ROOK => 4 | QUEEN => 5 | KING => 6
  end.

Definition colorCode (c : Color) : Z :=
  match c with NONE => 0 | WHITE => 1 | BLACK => 2 end.

(** [getPiece] (lines 94-102). *)
Definition getPiece (s : GameState) (row col : Z) : Z :=
  if (row <? 0) || (row >=? 8) || (col <? 0) || (col >=? 8) then 0
  else
    let p := at_ s row col in
    if bool_decide (type p = EMPTY) then 0
    else colorCode (color p) * 10 + typeCode (type p).

(** ** Pseudo-legal move generation (lines 126-275)

    Each generator appends to the vector [moves] it is given, as the
    source does through its reference parameter. *)

(** [getPawnMoves] (lines 154-186). *)
Definition getPawnMoves (s : GameState) (row col : Z) (moves : list Move) : list Move :=
  let piece := at_ s row col in
  let direction := if bool_decide (color piece = WHITE) then -1 else 1 in
  let startRow := if bool_decide (color piece = WHITE) then 6 else 1 in
  let moves :=
    if isValidPosition (row + direction) col
       && bool_decide (type (at_ s (row + direction) col) = EMPTY)
    then
      let moves := moves ++ [mkMove row col (row + direction) col false false false
                               ((row + direction =? 0) || (row + direction =? 7)) 0] in
      if (row =? startRow)
         && bool_decide (type (at_ s (row + 2 * direction) col) = EMPTY)
      then moves ++ [mkMove row col (row + 2 * direction) col false false false false 0]
      else moves
    else moves in
  fold_left (fun moves dcol =>
    let newRow := row + direction in
    let newCol := col + dcol in
    if isValidPosition newRow newCol then
      let target := at_ s newRow newCol in
      let moves :=
        if bool_decide (type target <> EMPTY) && bool_decide (color target <> color piece)
        then moves ++ [mkMove row col newRow newCol true false false
                         ((newRow =? 0) || (newRow =? 7)) 0]
        else moves in
      if (newCol =? enPassantCol s) && (newRow =? enPassantRow s)
      then moves ++ [mkMove row col newRow newCol true false true false 0]
      else moves
    else moves) [-1; 1] moves.

(** The body shared by the offset loops of [getKnightMoves] (lines 192-201)
    and [getKingMoves] (lines 244-253), which are the same text. *)
Definition stepMoves (s : GameState) (row col : Z) (offsets : list (Z * Z))
    (moves : list Move) : list Move :=
  let piece := at_ s row col in
  fold_left (fun moves offset =>
    let newRow := row + fst offset in
    let newCol := col + snd offset in
    if isValidPosition newRow newCol then
      let target := at_ s newRow newCol in
      if bool_decide (type target = EMPTY) || bool_decide (color target <> color piece)
      then moves ++ [mkMove row col newRow newCol
                       (bool_decide (type target <> EMPTY)) false false false 0]
      else moves
    else moves) offsets moves.

(** [getKnightMoves] (lines 188-202). *)
Definition getKnightMoves (s : GameState) (row col : Z) (moves : list Move) : list Move :=
  stepMoves s row col
    [(-2,-1); (-2,1); (-1,-2); (-1,2); (1,-2); (1,2); (2,-1); (2,1)] moves.

(** The inner loop [for dist = 1 .. 7] of [getSlidingMoves], with its two
    [break]s: [dists] are the distances still to be tried. *)
Fixpoint slideRay (s : GameState) (row col dr dc : Z) (dists : list Z)
    (moves : list Move) : list Move :=
  match dists with
  | [] => moves
  | dist :: rest =>
      let piece := at_ s row col in
      let newRow := row + dr * dist in
      let newCol := col + dc * dist in
      if negb (isValidPosition newRow newCol) then moves
      else
        let target := at_ s newRow newCol in
        if bool_decide (type target = EMPTY)
        then slideRay s row col dr dc rest
               (moves ++ [mkMove row col newRow newCol false false false false 0])
        else if bool_decide (color target <> color piece)
             then moves ++ [mkMove row col newRow newCol true false false false 0]
             else moves
  end.

(** [getSlidingMoves] (lines 219-238). *)
Definition getSlidingMoves (s : GameState) (row col : Z) (directions : list (Z * Z))
    (moves : list Move) : list Move :=
  fold_left (fun moves d => slideRay s row col (fst d) (snd d) [1; 2; 3; 4; 5; 6; 7] moves)
            directions moves.

Definition getBishopMoves (s : GameState) (row col : Z) (moves : list Move) : list Move :=
  getSlidingMoves s row col [(-1,-1); (-1,1); (1,-1); (1,1)] moves.

Definition getRookMoves (s : GameState) (row col : Z) (moves : list Move) : list Move :=
  getSlidingMoves s row col [(-1,0); (1,0); (0,-1); (0,1)] moves.

Definition getQueenMoves (s : GameState) (row col : Z) (moves : list Move) : list Move :=
  getSlidingMoves s row col
    [(-1,-1); (-1,0); (-1,1); (0,-1); (0,1); (1,-1); (1,0); (1,1)] moves.

Definition isEmptyAt (s : GameState) (r c : Z) : bool :=
  bool_decide (type (at_ s r c) = EMPTY).

(** The castling part of [getKingMoves] (lines 255-274). *)
Definition castlingMoves (s : GameState) (piece : Piece) (moves : list Move) : list Move :=
  if bool_decide (color piece = WHITE) && negb (whiteKingMoved s) then
    let moves :=
      if negb (whiteRookHMoved s) && isEmptyAt s 7 5 && isEmptyAt s 7 6
      then moves ++ [mkMove 7 4 7 6 false true false false 0] else moves in
    if negb (whiteRookAMoved s) && isEmptyAt s 7 1 && isEmptyAt s 7 2 && isEmptyAt s 7 3
    then moves ++ [mkMove 7 4 7 2 false true false false 0] else moves
  else if bool_decide (color piece = BLACK) && negb (blackKingMoved s) then
    let moves :=
      if negb (blackRookHMoved s) && isEmptyAt s 0 5 && isEmptyAt s 0 6
      then moves ++ [mkMove 0 4 0 6 false true false false 0] else moves in
    if negb (blackRookAMoved s) && isEmptyAt s 0 1 && isEmptyAt s 0 2 && isEmptyAt s 0 3
    then moves ++ [mkMove 0 4 0 2 false true false false 0] else moves
  else moves.

(** [getKingMoves] (lines 240-275). *)
Definition getKingMoves (s : GameState) (row col : Z) (moves : list Move) : list Move :=
  let piece := at_ s row col in
  let moves :=
    stepMoves s row col
      [(-1,-1); (-1,0); (-1,1); (0,-1); (0,1); (1,-1); (1,0); (1,1)] moves in
  castlingMoves s piece moves.

(** [getPseudoLegalMoves] (lines 126-152). *)
Definition getPseudoLegalMoves (s : GameState) (row col : Z) : list Move :=
  match type (at_ s row col) with
  | PAWN => getPawnMoves s row col []
  | KNIGHT => getKnightMoves s row col []
  | BISHOP => getBishopMoves s row col []
  | ROOK => getRookMoves s row col []
  | QUEEN => getQueenMoves s row col []
  | KING => getKingMoves s row col []
  | EMPTY => []
  end.

(** ** The attack oracle (lines 277-318) *)

(** [isSquareAttacked] (lines 277-301).  The loops return [true] at the
    first hit, which is what [existsb] computes. *)
Definition isSquareAttacked (s : GameState) (row col : Z) (attackerColor : Color) : bool :=
  existsb (fun rc =>
    let r := fst rc in
    let c := snd rc in
    let piece := at_ s r c in
    if bool_decide (type piece <> EMPTY) && bool_decide (color piece = attackerColor) then
      if bool_decide (type piece = PAWN) then
        let direction := if bool_decide (attackerColor = WHITE) then -1 else 1 in
        existsb (fun dc => (r + direction =? row) && (c + dc =? col)) [-1; 1]
      else
        existsb (fun move =>
                   (toRow move =? row) && (toCol move =? col) && negb (isCastling move))
                (getPseudoLegalMoves s r c)
    else false) squares.

(** The king search of [isInCheck] (lines 304-314): the first square, in
    loop order, holding a king of [color]. *)
Definition findKing (s : GameState) (color_ : Color) : option (Z * Z) :=
  find (fun rc =>
          bool_decide (type (at_ s (fst rc) (snd rc)) = KING)
          && bool_decide (color (at_ s (fst rc) (snd rc)) = color_)) squares.

(** [isInCheck] (lines 303-318). *)
Definition isInCheck (s : GameState) (color_ : Color) : bool :=
  match findKing s color_ with
  | None => false
  | Some (kingRow, kingCol) => isSquareAttacked s kingRow kingCol (opponent color_)
  end.

(** ** The legality check (lines 319-379)

    [isLegalMove] writes the trial position into the board, asks
    [isInCheck], and writes the saved values back; it is embedded with
    every one of its assignments, in the order of the source. *)
Definition isLegalMove (move : Move) (s : GameState) : bool * GameState :=
  (* Save game state *)
  let tempPiece := at_ s (toRow move) (toCol move) in
  let movingPiece := at_ s (fromRow move) (fromCol move) in
  let tempEnPassantCol := enPassantCol s in
  let tempEnPassantRow := enPassantRow s in
  let savedPlayer := currentPlayer s in
  (* Make the move temporarily *)
  let s := put (toRow move) (toCol move) movingPiece s in
  let s := put (fromRow move) (fromCol move) emptyPiece s in
  (* Handle en passant capture *)
  let captureRow :=
    if bool_decide (color movingPiece = WHITE) then toRow move + 1 else toRow move - 1 in
  let capturedPawn :=
    if isEnPassant move then at_ s captureRow (toCol move) else emptyPiece in
  let s := if isEnPassant move then put captureRow (toCol move) emptyPiece s else s in
  (* Handle castling *)
  let row := fromRow move in
  let rookFromCol := if isCastling move then (if toCol move =? 6 then 7 else 0) else -1 in
  let rookToCol := if isCastling move then (if toCol move =? 6 then 5 else 3) else -1 in
  let savedRook := if isCastling move then at_ s row rookToCol else emptyPiece in
  let s :=
    if isCastling move then
      let s := put row rookToCol (at_ s row rookFromCol) s in
      put row rookFromCol emptyPiece s
    else s in
  let legal := negb (isInCheck s savedPlayer) in
  (* Restore board state *)
  let s := put (fromRow move) (fromCol move) movingPiece s in
  let s := put (toRow move) (toCol move) tempPiece s in
  let s := withEnPassant s tempEnPassantCol tempEnPassantRow in
  let s := withPlayer s savedPlayer in
  let s := if isEnPassant move then put captureRow (toCol move) capturedPawn s else s in
  let s :=
    if isCastling move then
      let s := put row rookFromCol (at_ s row rookToCol) s in
      put row rookToCol savedRook s
    else s in
  (legal, s).

(** The body of the loop of [getLegalMoves] (lines 117-121); [acc] is the
    vector [moves] built so far and the state. *)
Definition filterLegalStep (acc : list Move * GameState) (move : Move)
    : list Move * GameState :=
  let '(legal, s') := isLegalMove move (snd acc) in
  (if legal then fst acc ++ [move] else fst acc, s').

Definition filterLegal (pseudoMoves : list Move) (s : GameState) : list Move * GameState :=
  fold_left filterLegalStep pseudoMoves ([], s).

(** [getLegalMoves] (lines 108-124). *)
Definition getLegalMoves (row col : Z) (s : GameState) : list Move * GameState :=
  if negb (isValidPosition row col) then ([], s)
  else
    let piece := at_ s row col in
    if bool_decide (type piece = EMPTY) || bool_decide (color piece <> currentPlayer s)
    then ([], s)
    else filterLegal (getPseudoLegalMoves s row col) s.

(** ** The move executor (lines 385-450) *)

(** [executeMoveInternal] (lines 397-450) is embedded block by block, one
    definition for each commented block of the source; [piece] is the
    local copy [Piece piece = board[move.fromRow][move.fromCol]] taken
    before any write. *)

(** "Handle en passant" (lines 400-404). *)
Definition captureEnPassant (move : Move) (piece : Piece) (s : GameState) : GameState :=
  if isEnPassant move then
    let captureRow :=
      if bool_decide (color piece = WHITE) then toRow move + 1 else toRow move - 1 in
    put captureRow (toCol move) emptyPiece s
  else s.

(** "Handle castling" (lines 406-415). *)
Definition moveCastlingRook (move : Move) (s : GameState) : GameState :=
  if isCastling move then
    if toCol move =? 6 then
      let s := put (fromRow move) 5 (at_ s (fromRow move) 7) s in
      put (fromRow move) 7 emptyPiece s
    else
      let s := put (fromRow move) 3 (at_ s (fromRow move) 0) s in
      put (fromRow move) 0 emptyPiece s
  else s.

(** "Update en passant" (lines 417-422): only [enPassantCol] is reset. *)
Definition updateEnPassant (move : Move) (piece : Piece) (s : GameState) : GameState :=
  let s := withEnPassant s (-1) (enPassantRow s) in
  if bool_decide (type piece = PAWN) && (Z.abs (fromRow move - toRow move) =? 2)
  then withEnPassant s (fromCol move) (Z.quot (fromRow move + toRow move) 2)
  else s.

(** "Execute move" (lines 424-427). *)
Definition relocatePiece (move : Move) (piece : Piece) (s : GameState) : GameState :=
  let s := put (toRow move) (toCol move) piece s in
  let s := put (fromRow move) (fromCol move) emptyPiece s in
  let p := at_ s (toRow move) (toCol move) in
  put (toRow move) (toCol move) (mkPiece (type p) (color p) true) s.

(** "Handle promotion" (lines 429-432).  [promotionPiece] is an [int]
    cast to [PieceType] in the source; every call site of the repository
    passes the enumerator [QUEEN]. *)
Definition promotePiece (move : Move) (promotionPiece : PieceType) (s : GameState)
    : GameState :=
  if isPromotion move then
    let p := at_ s (toRow move) (toCol move) in
    put (toRow move) (toCol move) (mkPiece promotionPiece (color p) (hasMoved p)) s
  else s.

(** "Update castling rights" (lines 434-447). *)
Definition updateCastlingRights (move : Move) (piece : Piece) (s : GameState) : GameState :=
  let s :=
    if bool_decide (type piece = KING) then
      if bool_decide (color piece = WHITE)
      then withFlags s true (blackKingMoved s) (whiteRookAMoved s) (whiteRookHMoved s)
                     (blackRookAMoved s) (blackRookHMoved s)
      else withFlags s (whiteKingMoved s) true (whiteRookAMoved s) (whiteRookHMoved s)
                     (blackRookAMoved s) (blackRookHMoved s)
    else s in
  if bool_decide (type piece = ROOK) then
    if bool_decide (color piece = WHITE) then
      let s :=
        if fromCol move =? 0
        then withFlags s (whiteKingMoved s) (blackKingMoved s) true (whiteRookHMoved s)
                       (blackRookAMoved s) (blackRookHMoved s)
        else s in
      if fromCol move =? 7
      then withFlags s (whiteKingMoved s) (blackKingMoved s) (whiteRookAMoved s) true
                     (blackRookAMoved s) (blackRookHMoved s)
      else s
    else
      let s :=
        if fromCol move =? 0
        then withFlags s (whiteKingMoved s) (blackKingMoved s) (whiteRookAMoved s)
                       (whiteRookHMoved s) true (blackRookHMoved s)
        else s in
      if fromCol move =? 7
      then withFlags s (whiteKingMoved s) (blackKingMoved s) (whiteRookAMoved s)
                     (whiteRookHMoved s) (blackRookAMoved s) true
      else s
  else s.

(** [executeMoveInternal] (lines 397-450). *)
Definition executeMoveInternal (move : Move) (promotionPiece : PieceType)
    (s : GameState) : GameState :=
  let piece := at_ s (fromRow move) (fromCol move) in
  let s := captureEnPassant move piece s in
  let s := moveCastlingRook move s in
  let s := updateEnPassant move piece s in
  let s := relocatePiece move piece s in
  let s := promotePiece move promotionPiece s in
  let s := updateCastlingRights move piece s in
  withPlayer s (opponent (currentPlayer s)).

(** The search of [makeMove]'s loop (lines 388-393): the first legal move
    whose destination is the requested square. *)
Definition matchingMove (legalMoves : list Move) (toRow_ toCol_ : Z) : option Move :=
  find (fun move => (toRow move =? toRow_) && (toCol move =? toCol_)) legalMoves.

(** [makeMove] (lines 385-395). *)
Definition makeMove (fromRow_ fromCol_ toRow_ toCol_ : Z) (promotionPiece : PieceType)
    (s : GameState) : bool * GameState :=
  let '(legalMoves, s) := getLegalMoves fromRow_ fromCol_ s in
  match matchingMove legalMoves toRow_ toCol_ with
  | Some move => (true, executeMoveInternal move promotionPiece s)
  | None => (false, s)
  end.

(** ** The evaluator (lines 452-504) *)

Definition pieceValues (t : PieceType) : Z :=
  match t with
  | EMPTY => 0 | PAWN => 100 | KNIGHT => 320 | BISHOP => 330
  | ROOK => 500 | QUEEN => 900 | KING => 20000
  end.

Definition pawnTable : list (list Z) :=
  [ [0;  0;  0;  0;  0;  0;  0;  0];
    [50; 50; 50; 50; 50; 50; 50; 50];
    [10; 10; 20; 30; 30; 20; 10; 10];
    [5;  5; 10; 25; 25; 10;  5;  5];
    [0;  0;  0; 20; 20;  0;  0;  0];
    [5; -5;-10;  0;  0;-10; -5;  5];
    [5; 10; 10;-20;-20; 10; 10;  5];
    [0;  0;  0;  0;  0;  0;  0;  0] ].

Definition knightTable : list (list Z) :=
  [ [-50;-40;-30;-30;-30;-30;-40;-50];
    [-40;-20;  0;  0;  0;  0;-20;-40];
    [-30;  0; 10; 15; 15; 10;  0;-30];
    [-30;  5; 15; 20; 20; 15;  5;-30];
    [-30;  0; 15; 20; 20; 15;  0;-30];
    [-30;  5; 10; 15; 15; 10;  5;-30];
    [-40;-20;  0;  5;  5;  0;-20;-40];
    [-50;-40;-30;-30;-30;-30;-40;-50] ].

(** [table[r][c]] for an index inside the table. *)
Definition tableAt (t : list (list Z)) (r c : Z) : Z :=
  nth (Z.to_nat c) (nth (Z.to_nat r) t []) 0.

(** [evaluateBoard] (lines 452-504). *)
Definition evaluateBoard (s : GameState) : Z :=
  fold_left (fun score rc =>
    let r := fst rc in
    let c := snd rc in
    let piece := at_ s r c in
    if bool_decide (type piece <> EMPTY) then
      let value := pieceValues (type piece) in
      (* Add positional bonus *)
      let value :=
        if bool_decide (type piece = PAWN) then
          value + (if bool_decide (color piece = WHITE)
                   then tableAt pawnTable r c else tableAt pawnTable (7 - r) c)
        else if bool_decide (type piece = KNIGHT) then
          value + (if bool_decide (color piece = WHITE)
                   then tableAt knightTable r c else tableAt knightTable (7 - r) c)
        else value in
      (* Center control bonus *)
      let value :=
        if (r >=? 3) && (r <=? 4) && ((c >=? 3) && (c <=? 4)) then value + 10 else value in
      if bool_decide (color piece = WHITE) then score + value else score - value
    else score) squares 0.

(** ** The search (lines 506-749) *)

(** The process-wide generator [rng] (lines 10-12) is the list of the raw
    values it will still produce; a distribution consumes the next one and
    maps it into its range.  An exhausted list produces zeros. *)
Definition Rng := list Z.

(** [smallNoise(rng)], uniform on 0..2. *)
Definition smallNoise (g : Rng) : Z * Rng := (hd 0 g mod 3, tl g).

(** [coinFlip(rng)], uniform on 0..1, read as a truth value. *)
Definition coinFlip (g : Rng) : bool * Rng := (negb (hd 0 g mod 2 =? 0), tl g).

(** The body of the collection loop at the head of [getBestMove]
    (lines 514-522) and of [minimax] (lines 645-653). *)
Definition collectStep (acc : list Move * GameState) (rc : Z * Z)
    : list Move * GameState :=
  let s := snd acc in
  if bool_decide (color (at_ s (fst rc) (snd rc)) = currentPlayer s) then
    let '(moves, s') := getLegalMoves (fst rc) (snd rc) s in
    (fst acc ++ moves, s')
  else acc.

Definition collectAllMoves (s : GameState) : list Move * GameState :=
  fold_left collectStep squares ([], s).

(** The block "save state / execute / evaluate / restore state" that the
    source repeats in [getBestMove] (lines 589-627) and in both branches
    of [minimax] (lines 663-697 and 707-741); [rec] is the recursive call
    made between execution and restoration. *)
Definition searchTrial (rec : GameState -> Z * GameState) (move : Move)
    (s : GameState) : Z * GameState :=
  (* Save state *)
  let temp := at_ s (toRow move) (toCol move) in
  let savedEnPassantCol := enPassantCol s in
  let savedEnPassantRow := enPassantRow s in
  let prevPlayer := currentPlayer s in
  let savedWhiteKing := whiteKingMoved s in
  let savedBlackKing := blackKingMoved s in
  let savedWRA := whiteRookAMoved s in
  let savedWRH := whiteRookHMoved s in
  let savedBRA := blackRookAMoved s in
  let savedBRH := blackRookHMoved s in
  let captureRow :=
    if bool_decide (prevPlayer = WHITE) then toRow move + 1 else toRow move - 1 in
  let tempEnPassant :=
    if isEnPassant move then at_ s captureRow (toCol move) else emptyPiece in
  (* Execute move temporarily *)
  let s := executeMoveInternal move QUEEN s in
  let '(score_, s) := rec s in
  (* Restore state *)
  let s := withPlayer s prevPlayer in
  let s := put (fromRow move) (fromCol move) (at_ s (toRow move) (toCol move)) s in
  let s := put (toRow move) (toCol move) temp s in
  let s := withEnPassant s savedEnPassantCol savedEnPassantRow in
  let s := withFlags s savedWhiteKing savedBlackKing savedWRA savedWRH savedBRA savedBRH in
  let s := if isEnPassant move then put captureRow (toCol move) tempEnPassant s else s in
  (score_, s).

(** The maximizing loop of [minimax] (lines 661-703), with its [break]. *)
Fixpoint maxLoop (rec : Z -> Z -> bool -> GameState -> Z * GameState)
    (moves : list Move) (alpha beta maxEval : Z) (s : GameState) : Z * GameState :=
  match moves with
  | [] => (maxEval, s)
  | move :: rest =>
      let '(eval, s) := searchTrial (rec alpha beta false) move s in
      let maxEval := Z.max maxEval eval in
      let alpha := Z.max alpha eval in
      if beta <=? alpha then (maxEval, s)
      else maxLoop rec rest alpha beta maxEval s
  end.

(** The minimizing loop of [minimax] (lines 705-747), with its [break]. *)
Fixpoint minLoop (rec : Z -> Z -> bool -> GameState -> Z * GameState)
    (moves : list Move) (alpha beta minEval : Z) (s : GameState) : Z * GameState :=
  match moves with
  | [] => (minEval, s)
  | move :: rest =>
      let '(eval, s) := searchTrial (rec alpha beta true) move s in
      let minEval := Z.min minEval eval in
      let beta := Z.min beta eval in
      if beta <=? alpha then (minEval, s)
      else minLoop rec rest alpha beta minEval s
  end.

(** [minimax] (lines 642-749), for the depths [0, 1, 2, ...] at which the
    source reaches its base case [depth == 0]. *)
Fixpoint minimax (depth : nat) (alpha beta : Z) (maximizing : bool)
    (s : GameState) : Z * GameState :=
  match depth with
  | O => (evaluateBoard s, s)
  | S d =>
      let '(allMoves, s) := collectAllMoves s in
      match allMoves with
      | [] =>
          (if isInCheck s (currentPlayer s)
           then (if maximizing then -999999 else 999999)
           else 0, s)
      | _ :: _ =>
          if maximizing
          then maxLoop (minimax d) allMoves alpha beta (-999999) s
          else minLoop (minimax d) allMoves alpha beta 999999 s
      end
  end.

Definition withScore (move : Move) (sc : Z) : Move :=
  mkMove (fromRow move) (fromCol move) (toRow move) (toCol move)
         (isCapture move) (isCastling move) (isEnPassant move) (isPromotion move) sc.

(** The trial inside the ordering loop (lines 545-565), "reward moves
    that put opponent in check": execute, ask [isInCheck], "restore state
    manually". *)
Definition givesCheckTrial (move : Move) (s : GameState) : bool * GameState :=
  let tempPiece := at_ s (toRow move) (toCol move) in
  let movingPiece := at_ s (fromRow move) (fromCol move) in
  let prevPlayer := currentPlayer s in
  let savedEnPassantCol := enPassantCol s in
  let savedEnPassantRow := enPassantRow s in
  let s := executeMoveInternal move QUEEN s in
  let givesCheck := isInCheck s (opponent prevPlayer) in
  (* Restore state manually *)
  let s := withPlayer s prevPlayer in
  let s := put (fromRow move) (fromCol move) movingPiece s in
  let s := put (toRow move) (toCol move) tempPiece s in
  let s := withEnPassant s savedEnPassantCol savedEnPassantRow in
  let s :=
    if isEnPassant move then
      let captureRow :=
        if bool_decide (prevPlayer = WHITE) then toRow move + 1 else toRow move - 1 in
      put captureRow (toCol move) (mkPiece PAWN (opponent prevPlayer) false) s
    else s in
  (givesCheck, s).

(** One round of the ordering loop of [getBestMove] (lines 529-577). *)
Definition orderingScore (move : Move) (g : Rng) (s : GameState)
    : Move * Rng * GameState :=
  let sc := 0 in
  let captured := at_ s (toRow move) (toCol move) in
  let sc := if bool_decide (type captured <> EMPTY) then 100 else sc in
  let sc :=
    if (toRow move >=? 3) && (toRow move <=? 4) && (toCol move >=? 3) && (toCol move <=? 4)
    then sc + 10 else sc in
  let '(noise, g) := smallNoise g in
  let sc := sc + noise in
  let '(givesCheck, s) := givesCheckTrial move s in
  let sc := if givesCheck then sc + 20 else sc in
  (* Slight bonus for pawn advancement *)
  let sc :=
    if bool_decide (type (at_ s (fromRow move) (fromCol move)) = PAWN) then
      let advance :=
        if bool_decide (currentPlayer s = WHITE) then 7 - toRow move else toRow move in
      sc + Z.quot advance 2
    else sc in
  (* Big bonus if promotion *)
  let sc := if isPromotion move then sc + 80 else sc in
  (withScore move sc, g, s).

(** The ordering loop over [allMoves]. *)
Fixpoint orderingLoop (moves : list Move) (g : Rng) (s : GameState)
    : list Move * Rng * GameState :=
  match moves with
  | [] => ([], g, s)
  | move :: rest =>
      let '(move', g, s) := orderingScore move g s in
      let '(rest', g, s) := orderingLoop rest g s in
      (move' :: rest', g, s)
  end.

(** [std::sort] with the comparator [a.score > b.score] (lines 580-582),
    as an insertion sort.  [std::sort] leaves the order of moves of equal
    score unspecified; this one keeps their order. *)
Fixpoint insertByScore (m : Move) (sorted : list Move) : list Move :=
  match sorted with
  | [] => [m]
  | x :: rest =>
      if score x <? score m then m :: x :: rest
      else x :: insertByScore m rest
  end.

Definition sortByScore (moves : list Move) : list Move :=
  foldr insertByScore [] moves.

(** The evaluation loop of [getBestMove] (lines 588-635). *)
Fixpoint bestLoop (depth : nat) (moves : list Move) (bestMove : Move) (bestScore : Z)
    (g : Rng) (s : GameState) : Move * Rng * GameState :=
  match moves with
  | [] => (bestMove, g, s)
  | move :: rest =>
      let prevPlayer := currentPlayer s in
      let '(score_, s) :=
        searchTrial
          (fun s => minimax depth (-999999) 999999
                            (bool_decide (currentPlayer s = BLACK)) s)
          move s in
      (* tie-breaking: [coinFlip] is drawn only on equal scores *)
      let '(better, g) :=
        if bool_decide (prevPlayer = WHITE) then
          if score_ >? bestScore then (true, g)
          else if score_ =? bestScore then coinFlip g else (false, g)
        else if bool_decide (prevPlayer = BLACK) then
          if score_ <? bestScore then (true, g)
          else if score_ =? bestScore then coinFlip g else (false, g)
        else (false, g) in
      if better then bestLoop depth rest move score_ g s
      else bestLoop depth rest bestMove bestScore g s
  end.

(** The sentinel [{-1, -1, -1, -1, false, false, false, false, 0}]. *)
Definition noMove : Move := mkMove (-1) (-1) (-1) (-1) false false false false 0.

(** [getBestMove] (lines 506-638).  With legal moves to search, the call
    [minimax(depth - 1, ...)] reaches the base case of [minimax] only for
    [depth >= 1]; for other depths the embedding gives no result. *)
Definition getBestMove (depth : Z) (g : Rng) (s : GameState)
    : option (Move * Rng * GameState) :=
  let '(allMoves, s) := collectAllMoves s in
  match allMoves with
  | [] => Some (noMove, g, s)
  | _ :: _ =>
      if depth <=? 0 then None
      else
        let '(allMoves, g, s) := orderingLoop allMoves g s in
        let allMoves := sortByScore allMoves in
        let bestMove := hd noMove allMoves in
        let bestScore := if bool_decide (currentPlayer s = WHITE) then -999999 else 999999 in
        Some (bestLoop (Z.to_nat (depth - 1)) allMoves bestMove bestScore g s)
  end.

(** [isGameOver] (lines 753-762), returning at the first square that has
    a legal move. *)
Fixpoint gameOverLoop (sqs : list (Z * Z)) (s : GameState) : bool * GameState :=
  match sqs with
  | [] => (true, s)
  | rc :: rest =>
      if bool_decide (color (at_ s (fst rc) (snd rc)) = currentPlayer s) then
        let '(moves, s) := getLegalMoves (fst rc) (snd rc) s in
        match moves with
        | [] => gameOverLoop rest s
        | _ :: _ => (false, s)
        end
      else gameOverLoop rest s
  end.

Definition isGameOver (s : GameState) : bool * GameState := gameOverLoop squares s.

(** ** The boundary (lines 765-832)

    The global [ChessGame* game] is [None] while it is [nullptr]. *)
Module Boundary.

Definition initGame (game : option GameState) : option GameState :=
  Some initializeBoard.

Definition getPiece (game : option GameState) (row col : Z) : Z :=
  match game with
  | None => 0
  | Some s => getPiece s row col
  end.

(** [..._MainActivity_makeMove] (lines 802-806): four coordinates, and
    [makeMove] called with its default [promotionPiece = QUEEN]. *)
Definition makeMove (game : option GameState) (fromRow_ fromCol_ toRow_ toCol_ : Z)
    : bool * option GameState :=
  match game with
  | None => (false, None)
  | Some s =>
      let '(ok, s') := makeMove fromRow_ fromCol_ toRow_ toCol_ QUEEN s in
      (ok, Some s')
  end.

(** [..._MainActivity_getLegalMoves] (lines 785-800): the destinations. *)
Definition getLegalMoves (game : option GameState) (row col : Z)
    : list (Z * Z) * option GameState :=
  match game with
  | None => ([], None)
  | Some s =>
      let '(moves, s') := getLegalMoves row col s in
      (map (fun m => (toRow m, toCol m)) moves, Some s')
  end.

End Boundary.

(** [getCurrentPlayer] (line 751): the enumerator value of [currentPlayer]. *)
Definition getCurrentPlayer (s : GameState) : Z := colorCode (currentPlayer s).

(** ** The entry points for the computer's move and the game status
    (lines 765-766, 774-777, 808-832)

    The two globals [game] and [aiDifficulty] are threaded through the
    calls as a record. *)
Module Jni.

Record Globals := mkGlobals {
  game : option GameState;
  aiDifficulty : Z
}.

(** [ChessGame* game = nullptr; int aiDifficulty = 2;] *)
Definition start : Globals := mkGlobals None 2.

Definition initGame (w : Globals) : Globals :=
  mkGlobals (Some initializeBoard) (aiDifficulty w).

Definition setDifficulty (difficulty : Z) (w : Globals) : Globals :=
  mkGlobals (game w) difficulty.

(** [..._MainActivity_getComputerMove] (lines 808-820): an empty array
    without a game, else the four coordinates of [getBestMove(aiDifficulty)]. *)
Definition getComputerMove (g : Rng) (w : Globals) : option (list Z * Rng * Globals) :=
  match game w with
  | None => Some ([], g, w)
  | Some s =>
      let depth := aiDifficulty w in
      match getBestMove depth g s with
      | None => None
      | Some (bestMove, g, s) =>
          Some ([fromRow bestMove; fromCol bestMove; toRow bestMove; toCol bestMove],
                g, mkGlobals (Some s) (aiDifficulty w))
      end
  end.

(** [..._MainActivity_getCurrentPlayer] (lines 822-826). *)
Definition getCurrentPlayer (w : Globals) : Z :=
  match game w with
  | None => 1
  | Some s => getCurrentPlayer s
  end.

(** [..._MainActivity_isGameOver] (lines 828-832). *)
Definition isGameOver (w : Globals) : bool * Globals :=
  match game w with
  | None => (false, w)
  | Some s =>
      let '(over, s) := isGameOver s in
      (over, mkGlobals (Some s) (aiDifficulty w))
  end.

End Jni.

(** * The revision [src/v2/native-lib.cpp]

    The second revision keeps the data model, the board access and the
    generators of the first and changes [getKingMoves], which now asks
    [isInCheck] and [isSquareAttacked] before it lists castling (lines
    349-366), and [executeMoveInternal].  Since [isSquareAttacked] calls
    [getPseudoLegalMoves] and so [getKingMoves], these functions are
    mutually recursive; the embedding gives the recursive calls a bound on
    their depth, and [None] is the answer of a call that needs more. *)

(** The board that the assignments of [initializeBoard] build. *)
Definition startingBoard : Board := board initializeBoard.

Module V2.

(** [struct Move] (lines 40-48), with the new member [capturedPiece]. *)
Record Move := mkMove {
  fromRow : Z; fromCol : Z; toRow : Z; toCol : Z;
  isCapture : bool; isCastling : bool; isEnPassant : bool; isPromotion : bool;
  score : Z;
  capturedPiece : Piece
}.

(** The members of [class ChessGame] (lines 51-61). *)
Record GameState := mkGame {
  board : Board;
  currentPlayer : Color;
  whiteKingMoved : bool; blackKingMoved : bool;
  whiteRookAMoved : bool; whiteRookHMoved : bool;
  blackRookAMoved : bool; blackRookHMoved : bool;
  enPassantCol : Z;
  enPassantRow : Z;
  moveHistory : list Move;
  halfMoveClock : Z;
  fullMoveNumber : Z
}.

Definition withBoard (s : GameState) (b : Board) : GameState :=
  mkGame b (currentPlayer s) (whiteKingMoved s) (blackKingMoved s)
         (whiteRookAMoved s) (whiteRookHMoved s) (blackRookAMoved s)
         (blackRookHMoved s) (enPassantCol s) (enPassantRow s) (moveHistory s)
         (halfMoveClock s) (fullMoveNumber s).

Definition withPlayer (s : GameState) (p : Color) : GameState :=
  mkGame (board s) p (whiteKingMoved s) (blackKingMoved s)
         (whiteRookAMoved s) (whiteRookHMoved s) (blackRookAMoved s)
         (blackRookHMoved s) (enPassantCol s) (enPassantRow s) (moveHistory s)
         (halfMoveClock s) (fullMoveNumber s).

Definition withEnPassant (s : GameState) (col row : Z) : GameState :=
  mkGame (board s) (currentPlayer s) (whiteKingMoved s) (blackKingMoved s)
         (whiteRookAMoved s) (whiteRookHMoved s) (blackRookAMoved s)
         (blackRookHMoved s) col row (moveHistory s)
         (halfMoveClock s) (fullMoveNumber s).

Definition withFlags (s : GameState) (wk bk wra wrh bra brh : bool) : GameState :=
  mkGame (board s) (currentPlayer s) wk bk wra wrh bra brh
         (enPassantCol s) (enPassantRow s) (moveHistory s)
         (halfMoveClock s) (fullMoveNumber s).

Definition withClocks (s : GameState) (half full : Z) : GameState :=
  mkGame (board s) (currentPlayer s) (whiteKingMoved s) (blackKingMoved s)
         (whiteRookAMoved s) (whiteRookHMoved s) (blackRookAMoved s)
         (blackRookHMoved s) (enPassantCol s) (enPassantRow s) (moveHistory s)
         half full.

Definition withHistory (s : GameState) (h : list Move) : GameState :=
  mkGame (board s) (currentPlayer s) (whiteKingMoved s) (blackKingMoved s)
         (whiteRookAMoved s) (whiteRookHMoved s) (blackRookAMoved s)
         (blackRookHMoved s) (enPassantCol s) (enPassantRow s) h
         (halfMoveClock s) (fullMoveNumber s).

Definition put (r c : Z) (p : Piece) (s : GameState) : GameState :=
  withBoard s (setCell (board s) r c p).

Definition at_ (s : GameState) (r c : Z) : Piece := cell (board s) r c.

(** [initializeBoard] (lines 146-188): the board of the first revision,
    written by the same assignments, and the two new counters. *)
Definition initializeBoard : GameState :=
  mkGame startingBoard WHITE
         false false false false false false (-1) (-1) [] 0 1.

(** ** Move generation (lines 222-368) *)

(** [getPawnMoves] (lines 250-279). *)
Definition getPawnMoves (s : GameState) (row col : Z) (moves : list Move) : list Move :=
  let piece := at_ s row col in
  let direction := if bool_decide (color piece = WHITE) then -1 else 1 in
  let startRow := if bool_decide (color piece = WHITE) then 6 else 1 in
  let moves :=
    if isValidPosition (row + direction) col
       && bool_decide (type (at_ s (row + direction) col) = EMPTY)
    then
      let isPromotion_ := (row + direction =? 0) || (row + direction =? 7) in
      let moves := moves ++ [mkMove row col (row + direction) col false false false
                               isPromotion_ 0 emptyPiece] in
      if (row =? startRow)
         && bool_decide (type (at_ s (row + 2 * direction) col) = EMPTY)
      then moves ++ [mkMove row col (row + 2 * direction) col false false false false 0
                       emptyPiece]
      else moves
    else moves in
  fold_left (fun moves dcol =>
    let newRow := row + direction in
    let newCol := col + dcol in
    if isValidPosition newRow newCol then
      let target := at_ s newRow newCol in
      let moves :=
        if bool_decide (type target <> EMPTY) && bool_decide (color target <> color piece)
        then
          let isPromotion_ := (newRow =? 0) || (newRow =? 7) in
          moves ++ [mkMove row col newRow newCol true false false isPromotion_ 0 target]
        else moves in
      if (newCol =? enPassantCol s) && (newRow =? enPassantRow s)
      then
        let capturedPawn :=
          mkPiece PAWN (if bool_decide (color piece = WHITE) then BLACK else WHITE) true in
        moves ++ [mkMove row col newRow newCol true false true false 0 capturedPawn]
      else moves
    else moves) [-1; 1] moves.

(** The offset loops of [getKnightMoves] (lines 285-294) and
    [getKingMoves] (lines 337-346). *)
Definition stepMoves (s : GameState) (row col : Z) (offsets : list (Z * Z))
    (moves : list Move) : list Move :=
  let piece := at_ s row col in
  fold_left (fun moves offset =>
    let newRow := row + fst offset in
    let newCol := col + snd offset in
    if isValidPosition newRow newCol then
      let target := at_ s newRow newCol in
      if bool_decide (type target = EMPTY) || bool_decide (color target <> color piece)
      then moves ++ [mkMove row col newRow newCol
                       (bool_decide (type target <> EMPTY)) false false false 0 target]
      else moves
    else moves) offsets moves.

Definition getKnightMoves (s : GameState) (row col : Z) (moves : list Move) : list Move :=
  stepMoves s row col
    [(-2,-1); (-2,1); (-1,-2); (-1,2); (1,-2); (1,2); (2,-1); (2,1)] moves.

(** The loop [dist = 1 .. 7] of [getSlidingMoves] (lines 315-329). *)
Fixpoint slideRay (s : GameState) (row col dr dc : Z) (dists : list Z)
    (moves : list Move) : list Move :=
  match dists with
  | [] => moves
  | dist :: rest =>
      let piece := at_ s row col in
      let newRow := row + dr * dist in
      let newCol := col + dc * dist in
      if negb (isValidPosition newRow newCol) then moves
      else
        let target := at_ s newRow newCol in
        if bool_decide (type target = EMPTY)
        then slideRay s row col dr dc rest
               (moves ++ [mkMove row col newRow newCol false false false false 0 emptyPiece])
        else if bool_decide (color target <> color piece)
             then moves ++ [mkMove row col newRow newCol true false false false 0 target]
             else moves
  end.

(** [getSlidingMoves] (lines 312-331). *)
Definition getSlidingMoves (s : GameState) (row col : Z) (directions : list (Z * Z))
    (moves : list Move) : list Move :=
  fold_left (fun moves d => slideRay s row col (fst d) (snd d) [1; 2; 3; 4; 5; 6; 7] moves)
            directions moves.

Definition getBishopMoves (s : GameState) (row col : Z) (moves : list Move) : list Move :=
  getSlidingMoves s row col [(-1,-1); (-1,1); (1,-1); (1,1)] moves.

Definition getRookMoves (s : GameState) (row col : Z) (moves : list Move) : list Move :=
  getSlidingMoves s row col [(-1,0); (1,0); (0,-1); (0,1)] moves.

Definition getQueenMoves (s : GameState) (row col : Z) (moves : list Move) : list Move :=
  getSlidingMoves s row col
    [(-1,-1); (-1,0); (-1,1); (0,-1); (0,1); (1,-1); (1,0); (1,1)] moves.

Definition isEmptyAt (s : GameState) (r c : Z) : bool :=
  bool_decide (type (at_ s r c) = EMPTY).

(** The two questions the generators ask about the position: a call of
    [isSquareAttacked] and a call of [isInCheck]. *)
Inductive Query :=
| QAttacked (row col : Z) (attackerColor : Color)
| QCheck (color_ : Color).

(** [a && b] where [b] makes a call: [b] is evaluated only if [a] holds. *)
Definition andThen (a : bool) (b : option bool) : option bool :=
  if a then b else Some false.

(** [!call] for a call that may not return. *)
Definition notCall (b : option bool) : option bool :=
  match b with Some x => Some (negb x) | None => None end.

(** [!isSquareAttacked(r, c1, a) && !isSquareAttacked(r, c2, a)]. *)
Definition neitherAttacked (rec : Query -> option bool) (r c1 c2 : Z) (a : Color)
    : option bool :=
  match notCall (rec (QAttacked r c1 a)) with
  | Some free => andThen free (notCall (rec (QAttacked r c2 a)))
  | None => None
  end.

Definition castle (row toCol_ : Z) : Move :=
  mkMove row 4 row toCol_ false true false false 0 emptyPiece.

(** The two [if]s under a castling header (lines 350-357 and 359-366). *)
Definition castlingSides (rec : Query -> option bool) (s : GameState) (row : Z)
    (rookHMoved rookAMoved : bool) (attacker : Color) (moves : list Move)
    : option (list Move) :=
  match andThen (negb rookHMoved && isEmptyAt s row 5 && isEmptyAt s row 6)
                (neitherAttacked rec row 5 6 attacker) with
  | None => None
  | Some kingside =>
      let moves := if kingside then moves ++ [castle row 6] else moves in
      match andThen (negb rookAMoved && isEmptyAt s row 1 && isEmptyAt s row 2
                     && isEmptyAt s row 3)
                    (neitherAttacked rec row 3 2 attacker) with
      | None => None
      | Some queenside => Some (if queenside then moves ++ [castle row 2] else moves)
      end
  end.

(** The castling part of [getKingMoves] (lines 348-367). *)
Definition castlingMoves (rec : Query -> option bool) (s : GameState) (piece : Piece)
    (moves : list Move) : option (list Move) :=
  match andThen (bool_decide (color piece = WHITE) && negb (whiteKingMoved s))
                (notCall (rec (QCheck WHITE))) with
  | None => None
  | Some true =>
      castlingSides rec s 7 (whiteRookHMoved s) (whiteRookAMoved s) BLACK moves
  | Some false =>
      match andThen (bool_decide (color piece = BLACK) && negb (blackKingMoved s))
                    (notCall (rec (QCheck BLACK))) with
      | None => None
      | Some true =>
          castlingSides rec s 0 (blackRookHMoved s) (blackRookAMoved s) WHITE moves
      | Some false => Some moves
      end
  end.

(** [getKingMoves] (lines 333-368). *)
Definition getKingMoves (rec : Query -> option bool) (s : GameState) (row col : Z)
    (moves : list Move) : option (list Move) :=
  let piece := at_ s row col in
  let moves :=
    stepMoves s row col
      [(-1,-1); (-1,0); (-1,1); (0,-1); (0,1); (1,-1); (1,0); (1,1)] moves in
  castlingMoves rec s piece moves.

(** [getPseudoLegalMoves] (lines 222-248). *)
Definition getPseudoLegalMoves (rec : Query -> option bool) (s : GameState) (row col : Z)
    : option (list Move) :=
  match type (at_ s row col) with
  | PAWN => Some (getPawnMoves s row col [])
  | KNIGHT => Some (getKnightMoves s row col [])
  | BISHOP => Some (getBishopMoves s row col [])
  | ROOK => Some (getRookMoves s row col [])
  | QUEEN => Some (getQueenMoves s row col [])
  | KING => getKingMoves rec s row col []
  | EMPTY => Some []
  end.

(** ** The attack oracle (lines 370-407) *)

(** A loop that returns [true] at the first hit. *)
Fixpoint firstHit {A} (f : A -> option bool) (l : list A) : option bool :=
  match l with
  | [] => Some false
  | x :: rest =>
      match f x with
      | None => None
      | Some true => Some true
      | Some false => firstHit f rest
      end
  end.

(** The body of [isSquareAttacked] (lines 370-390). *)
Definition isSquareAttackedBody (rec : Query -> option bool) (s : GameState)
    (row col : Z) (attackerColor : Color) : option bool :=
  firstHit (fun rc =>
    let r := fst rc in
    let c := snd rc in
    let piece := at_ s r c in
    if bool_decide (type piece <> EMPTY) && bool_decide (color piece = attackerColor) then
      if bool_decide (type piece = PAWN) then
        let direction := if bool_decide (attackerColor = WHITE) then -1 else 1 in
        Some (existsb (fun dc => (r + direction =? row) && (c + dc =? col)) [-1; 1])
      else
        match getPseudoLegalMoves rec s r c with
        | None => None
        | Some moves =>
            Some (existsb (fun move =>
                             (toRow move =? row) && (toCol move =? col)
                             && negb (isCastling move)) moves)
        end
    else Some false) squares.

Definition findKing (s : GameState) (color_ : Color) : option (Z * Z) :=
  find (fun rc =>
          bool_decide (type (at_ s (fst rc) (snd rc)) = KING)
          && bool_decide (color (at_ s (fst rc) (snd rc)) = color_)) squares.

(** The body of [isInCheck] (lines 392-407). *)
Definition isInCheckBody (rec : Query -> option bool) (s : GameState) (color_ : Color)
    : option bool :=
  match findKing s color_ with
  | None => Some false
  | Some (kingRow, kingCol) => rec (QAttacked kingRow kingCol (opponent color_))
  end.

(** The two functions with calls nested at most [depth] deep. *)
Fixpoint ask (depth : nat) (s : GameState) (q : Query) : option bool :=
  match depth with
  | O => None
  | S d =>
      match q with
      | QAttacked row col attackerColor =>
          isSquareAttackedBody (ask d s) s row col attackerColor
      | QCheck color_ => isInCheckBody (ask d s) s color_
      end
  end.

Definition isSquareAttacked (depth : nat) (s : GameState) (row col : Z)
    (attackerColor : Color) : option bool :=
  ask depth s (QAttacked row col attackerColor).

Definition isInCheck (depth : nat) (s : GameState) (color_ : Color) : option bool :=
  ask depth s (QCheck color_).

(** ** Legality (lines 204-220 and 409-462) *)

(** [isLegalMove] (lines 409-462), the text of the first revision. *)
Definition isLegalMove (depth : nat) (move : Move) (s : GameState)
    : option (bool * GameState) :=
  let tempPiece := at_ s (toRow move) (toCol move) in
  let movingPiece := at_ s (fromRow move) (fromCol move) in
  let tempEnPassantCol := enPassantCol s in
  let tempEnPassantRow := enPassantRow s in
  let savedPlayer := currentPlayer s in
  let s := put (toRow move) (toCol move) movingPiece s in
  let s := put (fromRow move) (fromCol move) emptyPiece s in
  let captureRow :=
    if bool_decide (color movingPiece = WHITE) then toRow move + 1 else toRow move - 1 in
  let capturedPawn :=
    if isEnPassant move then at_ s captureRow (toCol move) else emptyPiece in
  let s := if isEnPassant move then put captureRow (toCol move) emptyPiece s else s in
  let row := fromRow move in
  let rookFromCol := if isCastling move then (if toCol move =? 6 then 7 else 0) else -1 in
  let rookToCol := if isCastling move then (if toCol move =? 6 then 5 else 3) else -1 in
  let savedRook := if isCastling move then at_ s row rookToCol else emptyPiece in
  let s :=
    if isCastling move then
      let s := put row rookToCol (at_ s row rookFromCol) s in
      put row rookFromCol emptyPiece s
    else s in
  match isInCheck depth s savedPlayer with
  | None => None
  | Some inCheck =>
      let legal := negb inCheck in
      let s := put (fromRow move) (fromCol move) movingPiece s in
      let s := put (toRow move) (toCol move) tempPiece s in
      let s := withEnPassant s tempEnPassantCol tempEnPassantRow in
      let s := withPlayer s savedPlayer in
      let s := if isEnPassant move then put captureRow (toCol move) capturedPawn s else s in
      let s :=
        if isCastling move then
          let s := put row rookFromCol (at_ s row rookToCol) s in
          put row rookToCol savedRook s
        else s in
      Some (legal, s)
  end.

(** The loop of [getLegalMoves] (lines 213-217). *)
Fixpoint filterLegal (depth : nat) (pseudoMoves moves : list Move) (s : GameState)
    : option (list Move * GameState) :=
  match pseudoMoves with
  | [] => Some (moves, s)
  | move :: rest =>
      match isLegalMove depth move s with
      | None => None
      | Some (legal, s) =>
          filterLegal depth rest (if legal then moves ++ [move] else moves) s
      end
  end.

(** [getLegalMoves] (lines 204-220). *)
Definition getLegalMoves (depth : nat) (row col : Z) (s : GameState)
    : option (list Move * GameState) :=
  if negb (isValidPosition row col) then Some ([], s)
  else
    let piece := at_ s row col in
    if bool_decide (type piece = EMPTY) || bool_decide (color piece <> currentPlayer s)
    then Some ([], s)
    else
      match getPseudoLegalMoves (ask depth s) s row col with
      | None => None
      | Some pseudoMoves => filterLegal depth pseudoMoves [] s
      end.

(** ** The move executor (lines 464-534) *)

(** Lines 479-482. *)
Definition captureEnPassant (move : Move) (piece : Piece) (s : GameState) : GameState :=
  if isEnPassant move then
    let captureRow :=
      if bool_decide (color piece = WHITE) then toRow move + 1 else toRow move - 1 in
    put captureRow (toCol move) emptyPiece s
  else s.

(** Lines 484-494: the rook is now marked as moved. *)
Definition moveCastlingRook (move : Move) (s : GameState) : GameState :=
  if isCastling move then
    if toCol move =? 6 then
      let s := put (fromRow move) 5 (at_ s (fromRow move) 7) s in
      let s := put (fromRow move) 7 emptyPiece s in
      let p := at_ s (fromRow move) 5 in
      put (fromRow move) 5 (mkPiece (type p) (color p) true) s
    else
      let s := put (fromRow move) 3 (at_ s (fromRow move) 0) s in
      let s := put (fromRow move) 0 emptyPiece s in
      let p := at_ s (fromRow move) 3 in
      put (fromRow move) 3 (mkPiece (type p) (color p) true) s
  else s.

(** Lines 496-501: both components are reset. *)
Definition updateEnPassant (move : Move) (piece : Piece) (s : GameState) : GameState :=
  let s := withEnPassant s (-1) (enPassantRow s) in
  let s := withEnPassant s (enPassantCol s) (-1) in
  if bool_decide (type piece = PAWN) && (Z.abs (fromRow move - toRow move) =? 2)
  then withEnPassant s (fromCol move) (Z.quot (fromRow move + toRow move) 2)
  else s.

(** Lines 503-507. *)
Definition updateHalfMoveClock (move : Move) (piece : Piece) (s : GameState) : GameState :=
  if bool_decide (type piece = PAWN) || isCapture move
  then withClocks s 0 (fullMoveNumber s)
  else withClocks s (halfMoveClock s + 1) (fullMoveNumber s).

(** Lines 509-511. *)
Definition relocatePiece (move : Move) (piece : Piece) (s : GameState) : GameState :=
  let s := put (toRow move) (toCol move) piece s in
  let s := put (fromRow move) (fromCol move) emptyPiece s in
  let p := at_ s (toRow move) (toCol move) in
  put (toRow move) (toCol move) (mkPiece (type p) (color p) true) s.

(** Lines 513-515. *)
Definition promotePiece (move : Move) (promotionPiece : PieceType) (s : GameState)
    : GameState :=
  if isPromotion move then
    let p := at_ s (toRow move) (toCol move) in
    put (toRow move) (toCol move) (mkPiece promotionPiece (color p) (hasMoved p)) s
  else s.

(** Lines 517-529. *)
Definition updateCastlingRights (move : Move) (piece : Piece) (s : GameState) : GameState :=
  let s :=
    if bool_decide (type piece = KING) then
      if bool_decide (color piece = WHITE)
      then withFlags s true (blackKingMoved s) (whiteRookAMoved s) (whiteRookHMoved s)
                     (blackRookAMoved s) (blackRookHMoved s)
      else withFlags s (whiteKingMoved s) true (whiteRookAMoved s) (whiteRookHMoved s)
                     (blackRookAMoved s) (blackRookHMoved s)
    else s in
  if bool_decide (type piece = ROOK) then
    if bool_decide (color piece = WHITE) then
      let s :=
        if fromCol move =? 0
        then withFlags s (whiteKingMoved s) (blackKingMoved s) true (whiteRookHMoved s)
                       (blackRookAMoved s) (blackRookHMoved s)
        else s in
      if fromCol move =? 7
      then withFlags s (whiteKingMoved s) (blackKingMoved s) (whiteRookAMoved s) true
                     (blackRookAMoved s) (blackRookHMoved s)
      else s
    else
      let s :=
        if fromCol move =? 0
        then withFlags s (whiteKingMoved s) (blackKingMoved s) (whiteRookAMoved s)
                       (whiteRookHMoved s) true (blackRookHMoved s)
        else s in
      if fromCol move =? 7
      then withFlags s (whiteKingMoved s) (blackKingMoved s) (whiteRookAMoved s)
                     (whiteRookHMoved s) (blackRookAMoved s) true
      else s
  else s.

(** Lines 531-533. *)
Definition finishMove (move : Move) (s : GameState) : GameState :=
  let s :=
    if bool_decide (currentPlayer s = BLACK)
    then withClocks s (halfMoveClock s) (fullMoveNumber s + 1) else s in
  let s := withPlayer s (if bool_decide (currentPlayer s = WHITE) then BLACK else WHITE) in
  withHistory s (moveHistory s ++ [move]).

(** [executeMoveInternal] (lines 476-534). *)
Definition executeMoveInternal (move : Move) (promotionPiece : PieceType)
    (s : GameState) : GameState :=
  let piece := at_ s (fromRow move) (fromCol move) in
  let s := captureEnPassant move piece s in
  let s := moveCastlingRook move s in
  let s := updateEnPassant move piece s in
  let s := updateHalfMoveClock move piece s in
  let s := relocatePiece move piece s in
  let s := promotePiece move promotionPiece s in
  let s := updateCastlingRights move piece s in
  finishMove move s.

(** [makeMove] (lines 464-474). *)
Definition makeMove (depth : nat) (fromRow_ fromCol_ toRow_ toCol_ : Z)
    (promotionPiece : PieceType) (s : GameState) : option (bool * GameState) :=
  match getLegalMoves depth fromRow_ fromCol_ s with
  | None => None
  | Some (legalMoves, s) =>
      match find (fun move => (toRow move =? toRow_) && (toCol move =? toCol_)) legalMoves with
      | Some move => Some (true, executeMoveInternal move promotionPiece s)
      | None => Some (false, s)
      end
  end.

(** [isGameOver] (lines 876-885). *)
Fixpoint gameOverLoop (depth : nat) (sqs : list (Z * Z)) (s : GameState)
    : option (bool * GameState) :=
  match sqs with
  | [] => Some (true, s)
  | rc :: rest =>
      if bool_decide (color (at_ s (fst rc) (snd rc)) = currentPlayer s) then
        match getLegalMoves depth (fst rc) (snd rc) s with
        | None => None
        | Some ([], s) => gameOverLoop depth rest s
        | Some (_ :: _, s) => Some (false, s)
        end
      else gameOverLoop depth rest s
  end.

Definition isGameOver (depth : nat) (s : GameState) : option (bool * GameState) :=
  gameOverLoop depth squares s.

End V2.

(** * Specification vocabulary *)

Definition wf (s : GameState) : Prop := length (board s) = 64%nat.

Definition pawnDirection (p : Piece) : Z := if bool_decide (color p = WHITE) then -1 else 1.

(** What every move of [getPseudoLegalMoves s row col] looks like. *)
Definition castlingShape (s : GameState) (c : Color) (m : Move) : Prop :=
  match c with
  | WHITE =>
      whiteKingMoved s = false /\ fromRow m = 7 /\ fromCol m = 4 /\ toRow m = 7 /\
      ((toCol m = 6 /\ whiteRookHMoved s = false /\
        isEmptyAt s 7 5 = true /\ isEmptyAt s 7 6 = true) \/
       (toCol m = 2 /\ whiteRookAMoved s = false /\
        isEmptyAt s 7 1 = true /\ isEmptyAt s 7 2 = true /\ isEmptyAt s 7 3 = true))
  | BLACK =>
      blackKingMoved s = false /\ fromRow m = 0 /\ fromCol m = 4 /\ toRow m = 0 /\
      ((toCol m = 6 /\ blackRookHMoved s = false /\
        isEmptyAt s 0 5 = true /\ isEmptyAt s 0 6 = true) \/
       (toCol m = 2 /\ blackRookAMoved s = false /\
        isEmptyAt s 0 1 = true /\ isEmptyAt s 0 2 = true /\ isEmptyAt s 0 3 = true))
  | NONE => False
  end.

Record pseudoSpec (s : GameState) (row col : Z) (m : Move) : Prop := {
  ps_to : isValidPosition (toRow m) (toCol m) = true;
  ps_plain : isCastling m = false ->
             fromRow m = row /\ fromCol m = col /\ (toRow m <> row \/ toCol m <> col);
  ps_castle : isCastling m = true ->
              type (at_ s row col) = KING /\ isEnPassant m = false /\
              isPromotion m = false /\ castlingShape s (color (at_ s row col)) m;
  ps_ep : isEnPassant m = true ->
          type (at_ s row col) = PAWN /\ isPromotion m = false /\
          toRow m = row + pawnDirection (at_ s row col) /\
          (toCol m = col + 1 \/ toCol m = col - 1) /\
          toRow m = enPassantRow s /\ toCol m = enPassantCol s;
  ps_promo : isPromotion m = true -> type (at_ s row col) = PAWN;
  ps_pawn : type (at_ s row col) = PAWN ->
            isCastling m = false /\
            (isEnPassant m = false ->
             isPromotion m = ((toRow m =? 0) || (toRow m =? 7))) /\
            (Z.abs (fromRow m - toRow m) = 2 ->
             ((row = 6 /\ toRow m = 4) \/ (row = 1 /\ toRow m = 3)) /\ toCol m = col)
}.

(** A move with no special flag. *)
Definition plainMove (row col : Z) (m : Move) : Prop :=
  fromRow m = row /\ fromCol m = col /\ isValidPosition (toRow m) (toCol m) = true /\
  (toRow m <> row \/ toCol m <> col) /\
  isCastling m = false /\ isEnPassant m = false /\ isPromotion m = false.

(** The position [isLegalMove] has written into the board at the moment it
    calls [isInCheck] (lines 327-354). *)
Definition trialPosition (move : Move) (s : GameState) : GameState :=
  let movingPiece := at_ s (fromRow move) (fromCol move) in
  let s := put (toRow move) (toCol move) movingPiece s in
  let s := put (fromRow move) (fromCol move) emptyPiece s in
  let captureRow :=
    if bool_decide (color movingPiece = WHITE) then toRow move + 1 else toRow move - 1 in
  let s := if isEnPassant move then put captureRow (toCol move) emptyPiece s else s in
  let row := fromRow move in
  let rookFromCol := if isCastling move then (if toCol move =? 6 then 7 else 0) else -1 in
  let rookToCol := if isCastling move then (if toCol move =? 6 then 5 else 3) else -1 in
  if isCastling move then
    let s := put row rookToCol (at_ s row rookFromCol) s in
    put row rookFromCol emptyPiece s
  else s.

Definition legalNow (s : GameState) (move : Move) : bool :=
  negb (isInCheck (trialPosition move s) (currentPlayer s)).

(** The legal moves of a square as a value: what [getLegalMoves] returns. *)
Definition legalMoves (s : GameState) (row col : Z) : list Move :=
  if negb (isValidPosition row col) then []
  else if bool_decide (type (at_ s row col) = EMPTY)
          || bool_decide (color (at_ s row col) <> currentPlayer s)
       then []
       else filter (fun m => legalNow s m = true) (getPseudoLegalMoves s row col).

Definition allLegalMoves (s : GameState) : list Move :=
  flat_map (fun rc => legalMoves s (fst rc) (snd rc)) squares.

(** Two states that differ in the board at most. *)
Definition sameMeta (s s' : GameState) : Prop :=
  currentPlayer s' = currentPlayer s /\
  whiteKingMoved s' = whiteKingMoved s /\ blackKingMoved s' = blackKingMoved s /\
  whiteRookAMoved s' = whiteRookAMoved s /\ whiteRookHMoved s' = whiteRookHMoved s /\
  blackRookAMoved s' = blackRookAMoved s /\ blackRookHMoved s' = blackRookHMoved s /\
  enPassantCol s' = enPassantCol s /\ enPassantRow s' = enPassantRow s /\
  moveHistory s' = moveHistory s.

(** The non-board members after [executeMoveInternal]. *)
Definition isDoubleStep (m : Move) (piece : Piece) : bool :=
  bool_decide (type piece = PAWN) && (Z.abs (fromRow m - toRow m) =? 2).

Definition isType (t : PieceType) (p : Piece) : bool := bool_decide (type p = t).
Definition isWhite (p : Piece) : bool := bool_decide (color p = WHITE).

Definition rookFrom (m : Move) : Z := if toCol m =? 6 then 7 else 0.
Definition rookTo (m : Move) : Z := if toCol m =? 6 then 5 else 3.

(** The row [captureRow] of an en-passant capture by a piece of colour [c]. *)
Definition captureRowFor (c : Color) (m : Move) : Z :=
  if bool_decide (c = WHITE) then toRow m + 1 else toRow m - 1.

(** What the coordinates and flags of a generated move satisfy, whatever
    the position. *)
Definition moveShape (m : Move) : Prop :=
  isValidPosition (fromRow m) (fromCol m) = true /\
  isValidPosition (toRow m) (toCol m) = true /\
  (fromRow m <> toRow m \/ fromCol m <> toCol m) /\
  (isCastling m = true ->
   isEnPassant m = false /\ isPromotion m = false /\ fromCol m = 4 /\
   toRow m = fromRow m /\ (toCol m = 6 \/ toCol m = 2)) /\
  (isEnPassant m = true ->
   isPromotion m = false /\ toCol m <> fromCol m /\
   (toRow m = fromRow m + 1 \/ toRow m = fromRow m - 1)).

(** The board [executeMoveInternal] leaves, square by square. *)
Definition executedAt (m : Move) (q : PieceType) (s : GameState) (r c : Z) : Piece :=
  let p := at_ s (fromRow m) (fromCol m) in
  if (r =? toRow m) && (c =? toCol m)
  then mkPiece (if isPromotion m then q else type p) (color p) true
  else if (r =? fromRow m) && (c =? fromCol m) then emptyPiece
  else if isCastling m && (r =? fromRow m) && (c =? rookFrom m) then emptyPiece
  else if isCastling m && (r =? fromRow m) && (c =? rookTo m)
       then at_ s (fromRow m) (rookFrom m)
  else if isEnPassant m && (r =? captureRowFor (color p) m) && (c =? toCol m)
       then emptyPiece
  else at_ s r c.

(** The en-passant row is the sentinel or the rank behind a pawn that
    has just advanced two ranks. *)
Definition enPassantOk (s : GameState) : Prop :=
  enPassantRow s = -1 \/ enPassantRow s = 2 \/ enPassantRow s = 5.

(** A run of [makeMove] calls through the boundary. *)
Definition playMoves (moves : list (Z * Z * Z * Z)) (s : GameState)
    : list bool * GameState :=
  fold_left (fun acc mv =>
               let '(fr, fc, tr, tc) := mv in
               let '(ok, s') := makeMove fr fc tr tc QUEEN (snd acc) in
               (fst acc ++ [ok], s'))
            moves ([], s).

(** A king whose moved-flag is clear stands on its home square. *)
Definition kingsHome (s : GameState) : Prop :=
  forall r c, isValidPosition r c = true -> type (at_ s r c) = KING ->
    (color (at_ s r c) = WHITE -> whiteKingMoved s = false -> r = 7 /\ c = 4) /\
    (color (at_ s r c) = BLACK -> blackKingMoved s = false -> r = 0 /\ c = 4).

(** The four coordinates of a move. *)
Definition coords (m : Move) : Z * Z * Z * Z := (fromRow m, fromCol m, toRow m, toCol m).

Definition isNoMove (m : Move) : Prop := coords m = (-1, -1, -1, -1).

(** Every king of [s'] stands where [s] has a king of the same colour. *)
Definition noNewKings (s s' : GameState) : Prop :=
  forall r c, isValidPosition r c = true ->
    type (at_ s' r c) = KING -> color (at_ s' r c) <> NONE ->
    type (at_ s r c) = KING /\ color (at_ s r c) = color (at_ s' r c).

Definition flagsGrow (s s' : GameState) : Prop :=
  (whiteKingMoved s = true -> whiteKingMoved s' = true) /\
  (blackKingMoved s = true -> blackKingMoved s' = true).

(** A move that [executeMoveInternal] can take in a position derived
    from [S]: it has the shape of a generated move, and if it castles, the
    rook's corner of [S] does not hold a king. *)
Definition okMove (S : GameState) (m : Move) : Prop :=
  moveShape m /\
  ~ (isCastling m = true /\ type (at_ S (fromRow m) (rookFrom m)) = KING /\
     color (at_ S (fromRow m) (rookFrom m)) <> NONE).

(** What one round of the ordering loop keeps. *)
Definition orderingKeeps (s s' : GameState) : Prop :=
  wf s' /\ noNewKings s s' /\ flagsGrow s s' /\
  currentPlayer s' = currentPlayer s /\
  enPassantCol s' = enPassantCol s /\ enPassantRow s' = enPassantRow s.

(** The state [givesCheckTrial] leaves, from the state [s] before the
    trial and the state [s1] after the execution. *)
Definition manualRestore (m : Move) (s s1 : GameState) : GameState :=
  let s' := withEnPassant
              (put (toRow m) (toCol m) (at_ s (toRow m) (toCol m))
                 (put (fromRow m) (fromCol m) (at_ s (fromRow m) (fromCol m))
                    (withPlayer s1 (currentPlayer s))))
              (enPassantCol s) (enPassantRow s) in
  if isEnPassant m then
    put (if bool_decide (currentPlayer s = WHITE) then toRow m + 1 else toRow m - 1)
        (toCol m) (mkPiece PAWN (opponent (currentPlayer s)) false) s'
  else s'.

(** The moves of a list are those of another up to their scores. *)
Definition rescored (m0 m : Move) : Prop := withScore m0 (score m) = m.

(** What a call of the search keeps. *)
Definition searchKeeps (s s' : GameState) : Prop :=
  wf s' /\ sameMeta s s' /\ noNewKings s s'.

(** The invariant of the states the boundary can produce. *)
Definition Inv (s : GameState) : Prop := wf s /\ enPassantOk s /\ kingsHome s.

(** States reached from the starting position by boundary calls:
    [makeMove], and [getBestMove] (whose result is the state it leaves). *)
Inductive reachable : GameState -> Prop :=
| reachable_init : reachable initializeBoard
| reachable_makeMove s fr fc tr tc :
    reachable s -> reachable (snd (makeMove fr fc tr tc QUEEN s))
| reachable_getBestMove s depth g m g' s' :
    reachable s -> getBestMove depth g s = Some (m, g', s') -> reachable s'.

(** ** Positions used below, each reached from the start by [makeMove] *)
(** 1.e4 e5 2.Nf3 Nc6 3.Bc4 Bc5 : White may castle on the king's side. *)
Definition castlingReady : list bool * GameState :=
  playMoves [(6,4,4,4); (1,4,3,4); (7,6,5,5); (0,1,2,2);
             (7,5,4,2); (0,5,3,2)] initializeBoard.

(** 1.e4 e5 2.Nf3 Nc6 3.Bc4 Bc5 4.d3 Bb4+ : White is in check from b4. *)
Definition checkedBeforeCastling : list bool * GameState :=
  playMoves [(6,4,4,4); (1,4,3,4); (7,6,5,5); (0,1,2,2);
             (7,5,4,2); (0,5,3,2); (6,3,5,3); (3,2,4,1)] initializeBoard.

(** 1.g3 b6 2.Bg2 Ba6 3.e4 Nc6 4.Nf3 Nf6 : the bishop on a6 attacks f1. *)
Definition attackedTransit : list bool * GameState :=
  playMoves [(6,6,5,6); (1,1,2,1); (7,5,6,6); (0,2,2,0);
             (6,4,4,4); (0,1,2,2); (7,6,5,5); (0,6,2,5)] initializeBoard.

(** 1.a4 b5 2.axb5 a6 3.bxa6 Nc6 4.a7 Rb8 : the pawn on a7 can promote. *)
Definition beforePromotion : list bool * GameState :=
  playMoves [(6,0,4,0); (1,1,3,1); (4,0,3,1); (1,0,2,0);
             (3,1,2,0); (0,1,2,2); (2,0,1,0); (0,0,0,1)] initializeBoard.

(** White's king-side castling move, as [getKingMoves] builds it (line 259). *)
Definition castleKingside : Move := mkMove 7 4 7 6 false true false false 0.

(** Every castling flag that is set in [s] is set in [s']. *)
Definition castlingFlagsGrow (s s' : GameState) : Prop :=
  (whiteKingMoved s = true -> whiteKingMoved s' = true) /\
  (blackKingMoved s = true -> blackKingMoved s' = true) /\
  (whiteRookAMoved s = true -> whiteRookAMoved s' = true) /\
  (whiteRookHMoved s = true -> whiteRookHMoved s' = true) /\
  (blackRookAMoved s = true -> blackRookAMoved s' = true) /\
  (blackRookHMoved s = true -> blackRookHMoved s' = true).

(** One call through the boundary that can change the game. *)
Inductive boundaryStep : GameState -> GameState -> Prop :=
| step_makeMove s fr fc tr tc :
    boundaryStep s (snd (makeMove fr fc tr tc QUEEN s))
| step_getBestMove s depth g m g' s' :
    getBestMove depth g s = Some (m, g', s') -> boundaryStep s s'.

(** Any number of such calls. *)
Inductive laterState : GameState -> GameState -> Prop :=
| later_refl s : laterState s s
| later_step s1 s2 s3 : boundaryStep s1 s2 -> laterState s2 s3 -> laterState s1 s3.

(** A piece on [(row, col)] may land on [(r, c)]: the square is on the
    board and is empty or holds a piece of another colour (the tests of
    lines 162, 196, 229-233 and 248). *)
Definition mayLand (s : GameState) (row col r c : Z) : Prop :=
  isValidPosition r c = true /\
  (type (at_ s r c) = EMPTY \/ color (at_ s r c) <> color (at_ s row col)).

(** The move record the step and sliding generators build for a landing
    square: [isCapture] is [target.type != EMPTY], no other flag is set. *)
Definition landingMove (s : GameState) (row col r c : Z) : Move :=
  mkMove row col r c (bool_decide (type (at_ s r c) <> EMPTY)) false false false 0.

(** The squares at distances [1 .. k-1] from [(row, col)] in direction
    [(dr, dc)] are on the board and empty. *)
Definition clearPath (s : GameState) (row col dr dc k : Z) : Prop :=
  forall j, 1 <= j < k ->
    isValidPosition (row + dr * j) (col + dc * j) = true /\
    type (at_ s (row + dr * j) (col + dc * j)) = EMPTY.

Definition knightOffsets : list (Z * Z) :=
  [(-2,-1); (-2,1); (-1,-2); (-1,2); (1,-2); (1,2); (2,-1); (2,1)].

Definition kingOffsets : list (Z * Z) :=
  [(-1,-1); (-1,0); (-1,1); (0,-1); (0,1); (1,-1); (1,0); (1,1)].

Definition pawnStartRow (p : Piece) : Z := if bool_decide (color p = WHITE) then 6 else 1.

Definition lastRank (r : Z) : bool := (r =? 0) || (r =? 7).

(** The moves of the "forward move" block of [getPawnMoves] (lines 159-168). *)
Definition pawnPushes (s : GameState) (row col : Z) : list Move :=
  let p := at_ s row col in
  let d := pawnDirection p in
  if isValidPosition (row + d) col && bool_decide (type (at_ s (row + d) col) = EMPTY)
  then mkMove row col (row + d) col false false false (lastRank (row + d)) 0 ::
       (if (row =? pawnStartRow p) && bool_decide (type (at_ s (row + 2 * d) col) = EMPTY)
        then [mkMove row col (row + 2 * d) col false false false false 0] else [])
  else [].

(** The moves of one round of the "captures" loop (lines 171-185). *)
Definition pawnCaptures (s : GameState) (row col dcol : Z) : list Move :=
  let p := at_ s row col in
  let d := pawnDirection p in
  if isValidPosition (row + d) (col + dcol) then
    (if bool_decide (type (at_ s (row + d) (col + dcol)) <> EMPTY)
        && bool_decide (color (at_ s (row + d) (col + dcol)) <> color p)
     then [mkMove row col (row + d) (col + dcol) true false false (lastRank (row + d)) 0]
     else []) ++
    (if (col + dcol =? enPassantCol s) && (row + d =? enPassantRow s)
     then [mkMove row col (row + d) (col + dcol) true false true false 0] else [])
  else [].

(** The four kinds of move a pawn on [(row, col)] has. *)
Definition pawnMove (s : GameState) (row col : Z) (m : Move) : Prop :=
  let p := at_ s row col in
  let d := pawnDirection p in
  (isValidPosition (row + d) col = true /\ type (at_ s (row + d) col) = EMPTY /\
   m = mkMove row col (row + d) col false false false (lastRank (row + d)) 0) \/
  (isValidPosition (row + d) col = true /\ type (at_ s (row + d) col) = EMPTY /\
   row = pawnStartRow p /\ type (at_ s (row + 2 * d) col) = EMPTY /\
   m = mkMove row col (row + 2 * d) col false false false false 0) \/
  (exists dcol, (dcol = -1 \/ dcol = 1) /\
     isValidPosition (row + d) (col + dcol) = true /\
     type (at_ s (row + d) (col + dcol)) <> EMPTY /\
     color (at_ s (row + d) (col + dcol)) <> color p /\
     m = mkMove row col (row + d) (col + dcol) true false false (lastRank (row + d)) 0) \/
  (exists dcol, (dcol = -1 \/ dcol = 1) /\
     isValidPosition (row + d) (col + dcol) = true /\
     col + dcol = enPassantCol s /\ row + d = enPassantRow s /\
     m = mkMove row col (row + d) (col + dcol) true false true false 0).

(** The castling moves a king of colour [c] is given (lines 255-274). *)
Definition castlingMove (s : GameState) (c : Color) (m : Move) : Prop :=
  (c = WHITE /\ whiteKingMoved s = false /\
   ((whiteRookHMoved s = false /\ isEmptyAt s 7 5 = true /\ isEmptyAt s 7 6 = true /\
     m = mkMove 7 4 7 6 false true false false 0) \/
    (whiteRookAMoved s = false /\ isEmptyAt s 7 1 = true /\ isEmptyAt s 7 2 = true /\
     isEmptyAt s 7 3 = true /\ m = mkMove 7 4 7 2 false true false false 0))) \/
  (c = BLACK /\ blackKingMoved s = false /\
   ((blackRookHMoved s = false /\ isEmptyAt s 0 5 = true /\ isEmptyAt s 0 6 = true /\
     m = mkMove 0 4 0 6 false true false false 0) \/
    (blackRookAMoved s = false /\ isEmptyAt s 0 1 = true /\ isEmptyAt s 0 2 = true /\
     isEmptyAt s 0 3 = true /\ m = mkMove 0 4 0 2 false true false false 0))).

(** A move to a landing square one of [offsets] away. *)
Definition stepMove (s : GameState) (row col : Z) (offsets : list (Z * Z)) (m : Move) : Prop :=
  exists o, In o offsets /\
    mayLand s row col (row + fst o) (col + snd o) /\
    m = landingMove s row col (row + fst o) (col + snd o).

(** A move along one of [directions] over empty squares to a landing square. *)
Definition slideMove (s : GameState) (row col : Z) (directions : list (Z * Z)) (m : Move)
    : Prop :=
  exists d k, In d directions /\ 1 <= k <= 7 /\
    clearPath s row col (fst d) (snd d) k /\
    mayLand s row col (row + fst d * k) (col + snd d * k) /\
    m = landingMove s row col (row + fst d * k) (col + snd d * k).

Definition bishopDirections : list (Z * Z) := [(-1,-1); (-1,1); (1,-1); (1,1)].
Definition rookDirections : list (Z * Z) := [(-1,0); (1,0); (0,-1); (0,1)].

(** The pseudo-legal moves of the piece on a square, as a predicate. *)
Definition pseudoMove (s : GameState) (row col : Z) (m : Move) : Prop :=
  match type (at_ s row col) with
  | EMPTY => False
  | PAWN => pawnMove s row col m
  | KNIGHT => stepMove s row col knightOffsets m
  | BISHOP => slideMove s row col bishopDirections m
  | ROOK => slideMove s row col rookDirections m
  | QUEEN => slideMove s row col kingOffsets m
  | KING => stepMove s row col kingOffsets m \/ castlingMove s (color (at_ s row col)) m
  end.

(** The directions in which a bishop, a rook and a queen move. *)
Definition lineDirection (t : PieceType) (dr dc : Z) : Prop :=
  -1 <= dr <= 1 /\ -1 <= dc <= 1 /\
  match t with
  | BISHOP => dr <> 0 /\ dc <> 0
  | ROOK => (dr = 0 /\ dc <> 0) \/ (dr <> 0 /\ dc = 0)
  | QUEEN => dr <> 0 \/ dc <> 0
  | _ => False
  end.

(** The board of [trialPosition], square by square. *)
Definition trialAt (m : Move) (s : GameState) (r c : Z) : Piece :=
  let p := at_ s (fromRow m) (fromCol m) in
  if (r =? toRow m) && (c =? toCol m) then p
  else if (r =? fromRow m) && (c =? fromCol m) then emptyPiece
  else if isCastling m && (r =? fromRow m) && (c =? rookFrom m) then emptyPiece
  else if isCastling m && (r =? fromRow m) && (c =? rookTo m)
       then at_ s (fromRow m) (rookFrom m)
  else if isEnPassant m && (r =? captureRowFor (color p) m) && (c =? toCol m)
       then emptyPiece
  else at_ s r c.

(** Two positions with the same squares empty and the same colour on
    every square. *)
Definition sameOccupancy (s s' : GameState) : Prop :=
  forall r c,
    (type (at_ s r c) = EMPTY <-> type (at_ s' r c) = EMPTY) /\
    color (at_ s r c) = color (at_ s' r c).

(** The state [getBestMove] leaves when it searches the starting position
    at depth 1, and the move it returns (all random draws 0). *)
Definition afterSearch : GameState :=
  match getBestMove 1 [] initializeBoard with
  | Some (_, _, s') => s'
  | None => initializeBoard
  end.

Definition chosenMove : Move :=
  match getBestMove 1 [] initializeBoard with
  | Some (m, _, _) => m
  | None => noMove
  end.

(** 1.e4 a6 2.e5 d5 : White's pawn on e5 may take the d-pawn en passant. *)
Definition enPassantReady : list bool * GameState :=
  playMoves [(6,4,4,4); (1,0,2,0); (4,4,3,4); (1,3,3,3)] initializeBoard.

(** What one square adds to the score of [evaluateBoard]. *)
Definition squareValue (piece : Piece) (r c : Z) : Z :=
  if bool_decide (type piece <> EMPTY) then
    let value := pieceValues (type piece) in
    let value :=
      if bool_decide (type piece = PAWN) then
        value + (if bool_decide (color piece = WHITE)
                 then tableAt pawnTable r c else tableAt pawnTable (7 - r) c)
      else if bool_decide (type piece = KNIGHT) then
        value + (if bool_decide (color piece = WHITE)
                 then tableAt knightTable r c else tableAt knightTable (7 - r) c)
      else value in
    let value :=
      if (r >=? 3) && (r <=? 4) && ((c >=? 3) && (c <=? 4)) then value + 10 else value in
    if bool_decide (color piece = WHITE) then value else - value
  else 0.

Definition sumOver (l : list (Z * Z)) (g : Z -> Z -> Z) : Z :=
  fold_right (fun rc acc => g (fst rc) (snd rc) + acc) 0 l.

(** The other colour; [NONE] has none. *)
Definition swapColor (c : Color) : Color :=
  match c with WHITE => BLACK | BLACK => WHITE | NONE => NONE end.

(** [s'] is [s] seen from the other side: the ranks in reverse order and
    the colours exchanged. *)
Definition mirrored (s s' : GameState) : Prop :=
  forall r c, isValidPosition r c = true ->
    type (at_ s' r c) = type (at_ s (7 - r) c) /\
    color (at_ s' r c) = swapColor (color (at_ s (7 - r) c)).

(** The state with the ranks reversed and the colours exchanged. *)
Definition mirrorState (s : GameState) : GameState :=
  withBoard s
    (map (fun rc => let p := at_ s (7 - fst rc) (snd rc) in
                    mkPiece (type p) (swapColor (color p)) (hasMoved p)) squares).

(** Two pieces that differ in [hasMoved] at most. *)
Definition faceEq (p p' : Piece) : Prop := type p = type p' /\ color p = color p'.

(** Two states of 64 squares that differ at most in the [hasMoved]
    members of their pieces. *)
Definition sameFaces (s s' : GameState) : Prop :=
  wf s /\ wf s' /\ sameMeta s s' /\ forall r c, faceEq (at_ s r c) (at_ s' r c).

(** The state with every [hasMoved] cleared. *)
Definition clearHasMoved (s : GameState) : GameState :=
  withBoard s (map (fun p => mkPiece (type p) (color p) false) (board s)).

(** *** The search *)
Definition respectsFaces {A} (f : GameState -> A * GameState) : Prop :=
  forall s s', sameFaces s s' ->
    fst (f s) = fst (f s') /\ sameFaces (snd (f s)) (snd (f s')).

(** 1.f3 e5 2.g4 Qh4 : White is checkmated. *)
Definition foolsMate : list bool * GameState :=
  playMoves [(6,5,5,5); (1,4,3,4); (6,6,4,6); (0,3,4,7)] initializeBoard.

(** An oracle for calls that do not return. *)
Definition neverAnswers : V2.Query -> option bool := fun _ => None.

(** The scan of [isSquareAttacked] for the attackers of the king of
    [color_] finds no attacker before it comes to a king whose castling
    header asks [isInCheck]. *)
Definition reachesCastlingGuard (s : V2.GameState) (color_ : Color) : bool :=
  match V2.findKing s color_ with
  | Some (kingRow, kingCol) =>
      match V2.isSquareAttackedBody neverAnswers s kingRow kingCol (opponent color_) with
      | None => true
      | Some _ => false
      end
  | None => false
  end.

(** The castling header of [getKingMoves] asks [isInCheck] for [color_]. *)
Definition kingUnmoved (s : V2.GameState) (color_ : Color) : Prop :=
  (color_ = WHITE /\ V2.whiteKingMoved s = false)
  \/ (color_ = BLACK /\ V2.blackKingMoved s = false).

(** The members other than the board that the executor of the second
    revision maintains. *)
Definition v2_counters (s : V2.GameState) : Z * Z * Z * Z * Color * list V2.Move :=
  (V2.enPassantCol s, V2.enPassantRow s, V2.halfMoveClock s, V2.fullMoveNumber s,
   V2.currentPlayer s, V2.moveHistory s).

(** The starting position of the second revision after the moves
    1. e4 e5 2. Nf3 Ke7 3. Bc4 h6, written as calls of the executor. *)
Definition v2_quietMove (r c r' c' : Z) : V2.Move :=
  V2.mkMove r c r' c' false false false false 0 emptyPiece.

Definition v2_castlingReady : V2.GameState :=
  fold_left (fun s m => V2.executeMoveInternal m QUEEN s)
    [v2_quietMove 6 4 4 4; v2_quietMove 1 4 3 4; v2_quietMove 7 6 5 5;
     v2_quietMove 0 4 1 4; v2_quietMove 7 5 4 2; v2_quietMove 1 7 2 7]
    V2.initializeBoard.

(** The king moves the generator lists there. *)
Definition v2_castlingReadyKingMoves : list V2.Move :=
  [v2_quietMove 7 4 6 4; v2_quietMove 7 4 7 5; V2.castle 7 6].

(** ** Castling in the second revision *)
Definition notCastling (m : V2.Move) : Prop := V2.isCastling m = false.

(** * Proofs *)

Lemma valid_bounds r c : isValidPosition r c = true <-> 0 <= r < 8 /\ 0 <= c < 8.
Proof. unfold isValidPosition. rewrite !andb_true_iff. lia. Qed.

Lemma valid_false r c : isValidPosition r c = false <-> ~ (0 <= r < 8 /\ 0 <= c < 8).
Proof. rewrite <- valid_bounds. destruct (isValidPosition r c); intuition congruence. Qed.

Lemma length_setCell b r c p : length (setCell b r c p) = length b.
Proof. unfold setCell. destruct (isValidPosition r c); [apply length_insert | done]. Qed.

Lemma cell_setCell b r c p r' c' :
  length b = 64%nat ->
  cell (setCell b r c p) r' c' =
    if isValidPosition r c && (r =? r') && (c =? c') then p else cell b r' c'.
Proof.
  intros Hlen. unfold cell, setCell.
  destruct (isValidPosition r c) eqn:Hv; simpl; [| done].
  destruct (Z.eqb_spec r r') as [->|Hr]; simpl.
  - destruct (Z.eqb_spec c c') as [->|Hc]; simpl.
    + rewrite Hv. rewrite list_lookup_insert_eq; [done|].
      apply valid_bounds in Hv. unfold idx. lia.
    + destruct (isValidPosition r' c') eqn:Hv'; [| done].
      rewrite list_lookup_insert_ne; [done|].
      apply valid_bounds in Hv, Hv'. unfold idx. lia.
  - destruct (isValidPosition r' c') eqn:Hv'; [| done].
    rewrite list_lookup_insert_ne; [done|].
    apply valid_bounds in Hv, Hv'. unfold idx. lia.
Qed.

Lemma board_ext (b1 b2 : Board) :
  length b1 = 64%nat -> length b2 = 64%nat ->
  (forall r c, isValidPosition r c = true -> cell b1 r c = cell b2 r c) ->
  b1 = b2.
Proof.
  intros H1 H2 Hc. apply list_eq. intros i.
  destruct (decide (i < 64)%nat) as [Hi|Hi].
  - specialize (Hc (Z.of_nat i / 8) (Z.of_nat i mod 8)).
    assert (Hv : isValidPosition (Z.of_nat i / 8) (Z.of_nat i mod 8) = true).
    { apply valid_bounds. split.
      - split; [apply Z.div_pos; lia | apply Z.div_lt_upper_bound; lia].
      - apply Z.mod_pos_bound. lia. }
    specialize (Hc Hv). unfold cell in Hc. rewrite Hv in Hc.
    assert (Hidx : idx (Z.of_nat i / 8) (Z.of_nat i mod 8) = i).
    { unfold idx. rewrite <- Z.div_mod by lia. lia. }
    rewrite Hidx in Hc.
    destruct (lookup_lt_is_Some_2 b1 i) as [x1 Hx1]; [lia|].
    destruct (lookup_lt_is_Some_2 b2 i) as [x2 Hx2]; [lia|].
    rewrite Hx1, Hx2 in *. simpl in Hc. congruence.
  - rewrite !lookup_ge_None_2 by lia. done.
Qed.

Lemma state_ext (s1 s2 : GameState) :
  board s1 = board s2 -> currentPlayer s1 = currentPlayer s2 ->
  whiteKingMoved s1 = whiteKingMoved s2 -> blackKingMoved s1 = blackKingMoved s2 ->
  whiteRookAMoved s1 = whiteRookAMoved s2 -> whiteRookHMoved s1 = whiteRookHMoved s2 ->
  blackRookAMoved s1 = blackRookAMoved s2 -> blackRookHMoved s1 = blackRookHMoved s2 ->
  enPassantCol s1 = enPassantCol s2 -> enPassantRow s1 = enPassantRow s2 ->
  moveHistory s1 = moveHistory s2 -> s1 = s2.
Proof. destruct s1, s2; simpl; intros; subst; reflexivity. Qed.

Lemma wf_put r c p s : wf s -> wf (put r c p s).
Proof. unfold wf, put. simpl. now rewrite length_setCell. Qed.

Lemma at_put r c p s r' c' : wf s ->
  at_ (put r c p s) r' c' =
    if isValidPosition r c && (r =? r') && (c =? c') then p else at_ s r' c'.
Proof. intros H. unfold at_, put. simpl. now apply cell_setCell. Qed.

Lemma plain_pseudoSpec s row col m :
  type (at_ s row col) <> PAWN -> plainMove row col m -> pseudoSpec s row col m.
Proof.
  intros Ht (?&?&?&?&?&?&?). split; try congruence; auto.
Qed.

Lemma Forall_snoc_if {A} (P : A -> Prop) (b : bool) l x :
  Forall P l -> (b = true -> P x) -> Forall P (if b then l ++ [x] else l).
Proof.
  intros Hl Hx. destruct b; [| done].
  apply Forall_app; split; [done|]. constructor; auto.
Qed.

Lemma stepMoves_plain s row col offsets moves :
  Forall (plainMove row col) moves ->
  Forall (fun o => fst o <> 0 \/ snd o <> 0) offsets ->
  Forall (plainMove row col) (stepMoves s row col offsets moves).
Proof.
  unfold stepMoves. revert moves.
  induction offsets as [|o offsets IH]; intros moves Hm Ho; simpl; [done|].
  inversion Ho as [|? ? Ho1 Ho2]; subst.
  apply IH; [| done].
  destruct (isValidPosition _ _) eqn:Hv; [| done].
  apply Forall_snoc_if; [done|]. intros _.
  unfold plainMove; simpl. repeat split; auto. lia.
Qed.

Lemma slideRay_plain s row col dr dc dists moves :
  Forall (plainMove row col) moves ->
  (dr <> 0 \/ dc <> 0) -> Forall (fun d => 0 < d) dists ->
  Forall (plainMove row col) (slideRay s row col dr dc dists moves).
Proof.
  intros Hm Hd Hds. revert moves Hm.
  induction Hds as [|d dists Hd1 Hds IH]; intros moves Hm; simpl; [done|].
  destruct (isValidPosition _ _) eqn:Hv; simpl; [| done].
  assert (Hp : forall cap, plainMove row col
            (mkMove row col (row + dr * d) (col + dc * d) cap false false false 0)).
  { intros cap. unfold plainMove; simpl. repeat split; auto. nia. }
  case_bool_decide.
  - apply IH. apply Forall_app; split; [done|]. constructor; auto.
  - apply Forall_snoc_if; auto.
Qed.

Lemma getSlidingMoves_plain s row col directions moves :
  Forall (plainMove row col) moves ->
  Forall (fun o => fst o <> 0 \/ snd o <> 0) directions ->
  Forall (plainMove row col) (getSlidingMoves s row col directions moves).
Proof.
  unfold getSlidingMoves. revert moves.
  induction directions as [|o ds IH]; intros moves Hm Ho; cbn [fold_left]; [done|].
  inversion Ho; subst. apply IH; [| done].
  apply slideRay_plain; auto. repeat constructor.
Qed.

Ltac offsets_nonzero :=
  repeat (constructor; [simpl; lia|]); constructor.

Lemma castlingMoves_spec s row col moves :
  type (at_ s row col) = KING ->
  Forall (pseudoSpec s row col) moves ->
  Forall (pseudoSpec s row col) (castlingMoves s (at_ s row col) moves).
Proof.
  intros Hk Hm. unfold castlingMoves.
  assert (Hc : forall m, isCastling m = true -> isEnPassant m = false ->
             isPromotion m = false ->
             isValidPosition (toRow m) (toCol m) = true ->
             castlingShape s (color (at_ s row col)) m -> pseudoSpec s row col m).
  { intros m H1 H2 H3 H4 H5. split; try congruence; auto. }
  destruct (bool_decide (color (at_ s row col) = WHITE)) eqn:Hw; simpl.
  - apply bool_decide_eq_true in Hw.
    destruct (whiteKingMoved s) eqn:Hkm; simpl.
    + destruct (bool_decide (color (at_ s row col) = BLACK)) eqn:Hb; simpl; [| done].
      apply bool_decide_eq_true in Hb. congruence.
    + apply Forall_snoc_if.
      * apply Forall_snoc_if; [done|]. intros H. apply Hc; auto.
        rewrite Hw. simpl. rewrite !andb_true_iff, negb_true_iff in H.
        intuition.
      * intros H. apply Hc; auto.
        rewrite Hw. simpl. rewrite !andb_true_iff, negb_true_iff in H.
        intuition.
  - destruct (bool_decide (color (at_ s row col) = BLACK)) eqn:Hb; simpl; [| done].
    apply bool_decide_eq_true in Hb.
    destruct (blackKingMoved s) eqn:Hkm; simpl; [done|].
    apply Forall_snoc_if.
    * apply Forall_snoc_if; [done|]. intros H. apply Hc; auto.
      rewrite Hb. simpl. rewrite !andb_true_iff, negb_true_iff in H.
      intuition.
    * intros H. apply Hc; auto.
      rewrite Hb. simpl. rewrite !andb_true_iff, negb_true_iff in H.
      intuition.
Qed.

Lemma getPawnMoves_spec s row col :
  isValidPosition row col = true ->
  type (at_ s row col) = PAWN ->
  Forall (pseudoSpec s row col) (getPawnMoves s row col []).
Proof.
  intros Hv Ht. apply valid_bounds in Hv.
  unfold getPawnMoves. cbn [fold_left].
  assert (Hdir : pawnDirection (at_ s row col) = -1 \/ pawnDirection (at_ s row col) = 1).
  { unfold pawnDirection. case_bool_decide; auto. }
  fold (pawnDirection (at_ s row col)).
  set (dir := pawnDirection (at_ s row col)) in *.
  assert (Hstart : forall (b : bool) m,
    ((row =? (if bool_decide (color (at_ s row col) = WHITE) then 6 else 1)) && b = true ->
     isCastling m = false -> isEnPassant m = false -> isPromotion m = false ->
     fromRow m = row -> fromCol m = col -> toRow m = row + 2 * dir -> toCol m = col ->
     pseudoSpec s row col m)).
  { intros b m Hb H1 H2 H3 H4 H5 H6 H7. apply andb_true_iff in Hb as [Hb _].
    apply Z.eqb_eq in Hb.
    assert (Hrow : (row = 6 /\ dir = -1) \/ (row = 1 /\ dir = 1)).
    { subst dir. unfold pawnDirection. case_bool_decide; lia. }
    split; try congruence.
    - rewrite H6, H7. apply valid_bounds. lia.
    - intros _. repeat split; auto. lia.
    - intros _. split; [done|]. split.
      + intros _. rewrite H3, H6. symmetry. apply orb_false_iff.
        split; apply Z.eqb_neq; lia.
      + intros _. lia. }
  assert (Hone : forall m dc cap,
     isValidPosition (row + dir) (col + dc) = true ->
     m = mkMove row col (row + dir) (col + dc) cap false false
                ((row + dir =? 0) || (row + dir =? 7)) 0 ->
     pseudoSpec s row col m).
  { intros m dc cap Hv' ->. split; simpl; auto;
      intros; repeat split; auto; try congruence; lia. }
  assert (Hep : forall m dc,
     isValidPosition (row + dir) (col + dc) = true -> (dc = 1 \/ dc = -1) ->
     (col + dc =? enPassantCol s) && (row + dir =? enPassantRow s) = true ->
     m = mkMove row col (row + dir) (col + dc) true false true false 0 ->
     pseudoSpec s row col m).
  { intros m dc Hv' Hdc Hb ->. apply andb_true_iff in Hb as [Hb1 Hb2].
    apply Z.eqb_eq in Hb1, Hb2.
    split; simpl; auto;
      intros; repeat split; auto; try congruence; lia. }
  repeat match goal with
  | |- Forall _ (if ?b then _ ++ [_] else _) =>
      apply Forall_snoc_if
  | |- Forall _ (if isValidPosition ?r ?c then _ else _) =>
      let H := fresh "Hv" in destruct (isValidPosition r c) eqn:H
  | |- Forall _ (if ?b then _ else _) =>
      let H := fresh "Hb" in destruct b eqn:H
  | |- Forall _ [] => constructor
  | |- Forall _ (_ ++ [_]) => apply Forall_app; split; [| constructor; [| constructor]]
  end.
  all: try (intros Hcond; first
    [ eapply Hstart; [exact Hcond | reflexivity ..]
    | eapply Hep; [| | exact Hcond | reflexivity]; [assumption | lia]
    | eapply Hone; [| reflexivity]; assumption ]).
  all: eapply (Hone _ 0 false);
    [ rewrite Z.add_0_r;
      match goal with
      | H : isValidPosition _ _ && _ = true |- _ =>
          apply andb_true_iff in H as [? _]; assumption
      end
    | f_equal; lia ].
Qed.

Lemma getPseudoLegalMoves_spec s row col :
  isValidPosition row col = true ->
  Forall (pseudoSpec s row col) (getPseudoLegalMoves s row col).
Proof.
  intros Hv. unfold getPseudoLegalMoves.
  assert (Hplain : forall l, type (at_ s row col) <> PAWN ->
            Forall (plainMove row col) l -> Forall (pseudoSpec s row col) l).
  { intros l Ht Hl. induction Hl; constructor; auto using plain_pseudoSpec. }
  destruct (type (at_ s row col)) eqn:Ht; [constructor | ..].
  - now apply getPawnMoves_spec.
  - apply Hplain; [done|]. apply stepMoves_plain; [constructor | offsets_nonzero].
  - apply Hplain; [done|]. apply getSlidingMoves_plain; [constructor | offsets_nonzero].
  - apply Hplain; [done|]. apply getSlidingMoves_plain; [constructor | offsets_nonzero].
  - apply Hplain; [done|]. apply getSlidingMoves_plain; [constructor | offsets_nonzero].
  - unfold getKingMoves. apply castlingMoves_spec; [done|].
    apply Hplain; [congruence|].
    apply stepMoves_plain; [constructor | offsets_nonzero].
Qed.

#[global] Arguments isInCheck : simpl never.
#[global] Arguments isSquareAttacked : simpl never.
#[global] Arguments getPseudoLegalMoves : simpl never.
#[global] Arguments evaluateBoard : simpl never.
#[global] Arguments squares : simpl never.

Lemma cell_setCell_eq b r c p r' c' :
  length b = 64%nat -> r = r' -> c = c' -> 0 <= r < 8 -> 0 <= c < 8 ->
  cell (setCell b r c p) r' c' = p.
Proof.
  intros Hlen <- <- Hr Hc. rewrite cell_setCell by done.
  assert (Hv : isValidPosition r c = true) by (apply valid_bounds; lia).
  now rewrite Hv, !Z.eqb_refl.
Qed.

Lemma cell_setCell_ne b r c p r' c' :
  length b = 64%nat -> r <> r' \/ c <> c' -> cell (setCell b r c p) r' c' = cell b r' c'.
Proof.
  intros Hlen Hne. rewrite cell_setCell by done.
  destruct (Z.eqb_spec r r'), (Z.eqb_spec c c'); try lia;
    now rewrite ?andb_false_r.
Qed.

Ltac cells :=
  repeat first
    [ rewrite cell_setCell_eq by (rewrite ?length_setCell; first [assumption | lia])
    | rewrite cell_setCell_ne by (rewrite ?length_setCell; first [assumption | lia]) ].

Ltac on_square r c r0 c0 :=
  destruct (decide (r = r0 /\ c = c0)) as [[? ?]|?]; try lia.

(** Pointwise comparison of two boards built from [setCell]s; [tac]
    splits on the squares that were written. *)
Ltac board_eq_by tac :=
  apply board_ext;
  [ rewrite ?length_setCell; assumption
  | rewrite ?length_setCell; assumption
  | let r := fresh "r" in let c := fresh "c" in let Hv := fresh "Hrc" in
    intros r c Hv; apply valid_bounds in Hv;
    tac r c; subst; cells; try reflexivity ].

Lemma board_put r c p s : board (put r c p s) = setCell (board s) r c p.
Proof. reflexivity. Qed.
Lemma board_withPlayer s p : board (withPlayer s p) = board s.
Proof. reflexivity. Qed.
Lemma board_withEnPassant s a b : board (withEnPassant s a b) = board s.
Proof. reflexivity. Qed.
Lemma board_withFlags s a b c d e f : board (withFlags s a b c d e f) = board s.
Proof. reflexivity. Qed.
Lemma at_cell s r c : at_ s r c = cell (board s) r c.
Proof. reflexivity. Qed.
Create Rewrite HintDb game.
#[global] Hint Rewrite board_put board_withPlayer board_withEnPassant board_withFlags
  at_cell : game.

(** Reading a member after an assignment to another. *)
Lemma currentPlayer_put r c p s : currentPlayer (put r c p s) = currentPlayer s.
Proof. reflexivity. Qed.
Lemma currentPlayer_withEnPassant s a b : currentPlayer (withEnPassant s a b) = currentPlayer s.
Proof. reflexivity. Qed.
Lemma currentPlayer_withFlags s a b c d e f : currentPlayer (withFlags s a b c d e f) = currentPlayer s.
Proof. reflexivity. Qed.
Lemma whiteKingMoved_put r c p s : whiteKingMoved (put r c p s) = whiteKingMoved s.
Proof. reflexivity. Qed.
Lemma whiteKingMoved_withPlayer s p : whiteKingMoved (withPlayer s p) = whiteKingMoved s.
Proof. reflexivity. Qed.
Lemma whiteKingMoved_withEnPassant s a b : whiteKingMoved (withEnPassant s a b) = whiteKingMoved s.
Proof. reflexivity. Qed.
Lemma blackKingMoved_put r c p s : blackKingMoved (put r c p s) = blackKingMoved s.
Proof. reflexivity. Qed.
Lemma blackKingMoved_withPlayer s p : blackKingMoved (withPlayer s p) = blackKingMoved s.
Proof. reflexivity. Qed.
Lemma blackKingMoved_withEnPassant s a b : blackKingMoved (withEnPassant s a b) = blackKingMoved s.
Proof. reflexivity. Qed.
Lemma whiteRookAMoved_put r c p s : whiteRookAMoved (put r c p s) = whiteRookAMoved s.
Proof. reflexivity. Qed.
Lemma whiteRookAMoved_withPlayer s p : whiteRookAMoved (withPlayer s p) = whiteRookAMoved s.
Proof. reflexivity. Qed.
Lemma whiteRookAMoved_withEnPassant s a b : whiteRookAMoved (withEnPassant s a b) = whiteRookAMoved s.
Proof. reflexivity. Qed.
Lemma whiteRookHMoved_put r c p s : whiteRookHMoved (put r c p s) = whiteRookHMoved s.
Proof. reflexivity. Qed.
Lemma whiteRookHMoved_withPlayer s p : whiteRookHMoved (withPlayer s p) = whiteRookHMoved s.
Proof. reflexivity. Qed.
Lemma whiteRookHMoved_withEnPassant s a b : whiteRookHMoved (withEnPassant s a b) = whiteRookHMoved s.
Proof. reflexivity. Qed.
Lemma blackRookAMoved_put r c p s : blackRookAMoved (put r c p s) = blackRookAMoved s.
Proof. reflexivity. Qed.
Lemma blackRookAMoved_withPlayer s p : blackRookAMoved (withPlayer s p) = blackRookAMoved s.
Proof. reflexivity. Qed.
Lemma blackRookAMoved_withEnPassant s a b : blackRookAMoved (withEnPassant s a b) = blackRookAMoved s.
Proof. reflexivity. Qed.
Lemma blackRookHMoved_put r c p s : blackRookHMoved (put r c p s) = blackRookHMoved s.
Proof. reflexivity. Qed.
Lemma blackRookHMoved_withPlayer s p : blackRookHMoved (withPlayer s p) = blackRookHMoved s.
Proof. reflexivity. Qed.
Lemma blackRookHMoved_withEnPassant s a b : blackRookHMoved (withEnPassant s a b) = blackRookHMoved s.
Proof. reflexivity. Qed.
Lemma enPassantCol_put r c p s : enPassantCol (put r c p s) = enPassantCol s.
Proof. reflexivity. Qed.
Lemma enPassantCol_withPlayer s p : enPassantCol (withPlayer s p) = enPassantCol s.
Proof. reflexivity. Qed.
Lemma enPassantCol_withFlags s a b c d e f : enPassantCol (withFlags s a b c d e f) = enPassantCol s.
Proof. reflexivity. Qed.
Lemma enPassantRow_put r c p s : enPassantRow (put r c p s) = enPassantRow s.
Proof. reflexivity. Qed.
Lemma enPassantRow_withPlayer s p : enPassantRow (withPlayer s p) = enPassantRow s.
Proof. reflexivity. Qed.
Lemma enPassantRow_withFlags s a b c d e f : enPassantRow (withFlags s a b c d e f) = enPassantRow s.
Proof. reflexivity. Qed.
Lemma moveHistory_put r c p s : moveHistory (put r c p s) = moveHistory s.
Proof. reflexivity. Qed.
Lemma moveHistory_withPlayer s p : moveHistory (withPlayer s p) = moveHistory s.
Proof. reflexivity. Qed.
Lemma moveHistory_withEnPassant s a b : moveHistory (withEnPassant s a b) = moveHistory s.
Proof. reflexivity. Qed.
Lemma moveHistory_withFlags s a b c d e f : moveHistory (withFlags s a b c d e f) = moveHistory s.
Proof. reflexivity. Qed.
Lemma currentPlayer_withPlayer s p : currentPlayer (withPlayer s p) = p.
Proof. reflexivity. Qed.
Lemma enPassantCol_withEnPassant s a b : enPassantCol (withEnPassant s a b) = a.
Proof. reflexivity. Qed.
Lemma enPassantRow_withEnPassant s a b : enPassantRow (withEnPassant s a b) = b.
Proof. reflexivity. Qed.
Lemma whiteKingMoved_withFlags s a b c d e f : whiteKingMoved (withFlags s a b c d e f) = a.
Proof. reflexivity. Qed.
Lemma blackKingMoved_withFlags s a b c d e f : blackKingMoved (withFlags s a b c d e f) = b.
Proof. reflexivity. Qed.
Lemma whiteRookAMoved_withFlags s a b c d e f : whiteRookAMoved (withFlags s a b c d e f) = c.
Proof. reflexivity. Qed.
Lemma whiteRookHMoved_withFlags s a b c d e f : whiteRookHMoved (withFlags s a b c d e f) = d.
Proof. reflexivity. Qed.
Lemma blackRookAMoved_withFlags s a b c d e f : blackRookAMoved (withFlags s a b c d e f) = e.
Proof. reflexivity. Qed.
Lemma blackRookHMoved_withFlags s a b c d e f : blackRookHMoved (withFlags s a b c d e f) = f.
Proof. reflexivity. Qed.

#[global] Hint Rewrite
  currentPlayer_put currentPlayer_withEnPassant currentPlayer_withFlags
  whiteKingMoved_put whiteKingMoved_withPlayer whiteKingMoved_withEnPassant
  blackKingMoved_put blackKingMoved_withPlayer blackKingMoved_withEnPassant
  whiteRookAMoved_put whiteRookAMoved_withPlayer whiteRookAMoved_withEnPassant
  whiteRookHMoved_put whiteRookHMoved_withPlayer whiteRookHMoved_withEnPassant
  blackRookAMoved_put blackRookAMoved_withPlayer blackRookAMoved_withEnPassant
  blackRookHMoved_put blackRookHMoved_withPlayer blackRookHMoved_withEnPassant
  enPassantCol_put enPassantCol_withPlayer enPassantCol_withFlags
  enPassantRow_put enPassantRow_withPlayer enPassantRow_withFlags
  moveHistory_put moveHistory_withPlayer moveHistory_withEnPassant
  moveHistory_withFlags currentPlayer_withPlayer enPassantCol_withEnPassant
  enPassantRow_withEnPassant whiteKingMoved_withFlags blackKingMoved_withFlags
  whiteRookAMoved_withFlags whiteRookHMoved_withFlags blackRookAMoved_withFlags
  blackRookHMoved_withFlags
  : game.

Ltac legal_unfold :=
  unfold isLegalMove; cbv beta zeta;
  cbn [snd fromRow fromCol toRow toCol isCastling isEnPassant isPromotion];
  apply state_ext; try reflexivity;
  autorewrite with game; cbn [Z.eqb Pos.eqb].

Lemma isLegalMove_restore s row col m :
  wf s -> isValidPosition row col = true -> pseudoSpec s row col m ->
  snd (isLegalMove m s) = s.
Proof.
  intros Hwf Hv [Hto Hplain Hcastle Hep _ _].
  unfold wf in Hwf.
  destruct m as [fr fc tr tc cap cas ep promo sc].
  cbn [fromRow fromCol toRow toCol isCastling isEnPassant isPromotion] in *.
  apply valid_bounds in Hv, Hto.
  destruct cas.
  - destruct Hcastle as (Hk & -> & _ & Hshape); [done|].
    destruct (color (at_ s row col)); simpl in Hshape; [done | |].
    + destruct Hshape as (_ & -> & -> & -> & [(-> & _)|(-> & _)]); legal_unfold.
      * board_eq_by ltac:(fun r c =>
          on_square r c 7 4; on_square r c 7 5; on_square r c 7 6; on_square r c 7 7).
      * board_eq_by ltac:(fun r c =>
          on_square r c 7 4; on_square r c 7 3; on_square r c 7 2; on_square r c 7 0).
    + destruct Hshape as (_ & -> & -> & -> & [(-> & _)|(-> & _)]); legal_unfold.
      * board_eq_by ltac:(fun r c =>
          on_square r c 0 4; on_square r c 0 5; on_square r c 0 6; on_square r c 0 7).
      * board_eq_by ltac:(fun r c =>
          on_square r c 0 4; on_square r c 0 3; on_square r c 0 2; on_square r c 0 0).
  - destruct Hplain as (-> & -> & Hne); [done|].
    destruct ep.
    + destruct Hep as (_ & _ & Hr & Hc & _); [done|].
      unfold pawnDirection in Hr. rewrite at_cell in Hr.
      legal_unfold.
      destruct (bool_decide (color (cell (board s) row col) = WHITE)); subst tr;
        replace (row + -1 + 1) with row by lia;
        replace (row + 1 - 1) with row by lia;
        destruct Hc as [-> | ->];
        board_eq_by ltac:(fun r c =>
          on_square r c row col; on_square r c (row + -1) (col + 1);
          on_square r c (row + -1) (col - 1); on_square r c (row + 1) (col + 1);
          on_square r c (row + 1) (col - 1); on_square r c row (col + 1);
          on_square r c row (col - 1)).
    + legal_unfold.
      board_eq_by ltac:(fun r c => on_square r c row col; on_square r c tr tc).
Qed.

Lemma isLegalMove_fst m s : fst (isLegalMove m s) = legalNow s m.
Proof. reflexivity. Qed.

Lemma filterLegal_acc s row col l acc :
  wf s -> isValidPosition row col = true -> Forall (pseudoSpec s row col) l ->
  fold_left filterLegalStep l (acc, s)
  = (acc ++ filter (fun m => legalNow s m = true) l, s).
Proof.
  intros Hwf Hv Hl. revert acc.
  induction Hl as [|m l Hm Hl IH]; intros acc; cbn [fold_left].
  - now rewrite app_nil_r.
  - unfold filterLegalStep at 2. cbn [fst snd].
    pose proof (isLegalMove_restore s row col m Hwf Hv Hm) as Hr.
    pose proof (isLegalMove_fst m s) as Hf.
    destruct (isLegalMove m s) as [legal s']. simpl in *. subst s' legal.
    rewrite IH. rewrite filter_cons.
    destruct (legalNow s m) eqn:Hlegal.
    + rewrite decide_True by done. now rewrite <- app_assoc.
    + rewrite decide_False by congruence. done.
Qed.

Lemma filterLegal_eq s row col l :
  wf s -> isValidPosition row col = true -> Forall (pseudoSpec s row col) l ->
  filterLegal l s = (filter (fun m => legalNow s m = true) l, s).
Proof. intros. unfold filterLegal. erewrite filterLegal_acc; eauto. Qed.

Lemma getLegalMoves_eq s row col :
  wf s -> getLegalMoves row col s = (legalMoves s row col, s).
Proof.
  intros Hwf. unfold getLegalMoves, legalMoves.
  destruct (isValidPosition row col) eqn:Hv; simpl; [| done].
  destruct (_ || _); [done|].
  eapply filterLegal_eq; eauto using getPseudoLegalMoves_spec.
Qed.

Lemma legalMoves_spec s row col m :
  m ∈ legalMoves s row col ->
  isValidPosition row col = true /\ type (at_ s row col) <> EMPTY /\
  color (at_ s row col) = currentPlayer s /\
  m ∈ getPseudoLegalMoves s row col /\ legalNow s m = true /\
  pseudoSpec s row col m.
Proof.
  unfold legalMoves.
  destruct (isValidPosition row col) eqn:Hv; simpl; [| by intros ?%elem_of_nil].
  destruct (bool_decide (type _ = EMPTY)) eqn:H1; simpl; [by intros ?%elem_of_nil|].
  destruct (bool_decide (color _ <> _)) eqn:H2; simpl; [by intros ?%elem_of_nil|].
  apply bool_decide_eq_false in H1, H2.
  intros [Hlegal Hin]%list_elem_of_filter.
  assert (Hps : pseudoSpec s row col m).
  { pose proof (getPseudoLegalMoves_spec s row col Hv) as HF.
    rewrite Forall_forall in HF. apply HF. now apply list_elem_of_In. }
  assert (Hcol : color (at_ s row col) = currentPlayer s).
  { destruct (decide (color (at_ s row col) = currentPlayer s)); [done|]. tauto. }
  tauto.
Qed.

Lemma makeMove_eq s fr fc tr tc promo :
  wf s ->
  makeMove fr fc tr tc promo s =
    match matchingMove (legalMoves s fr fc) tr tc with
    | Some move => (true, executeMoveInternal move promo s)
    | None => (false, s)
    end.
Proof. intros Hwf. unfold makeMove. now rewrite getLegalMoves_eq. Qed.

Lemma matchingMove_Some l tr tc m :
  matchingMove l tr tc = Some m -> m ∈ l /\ toRow m = tr /\ toCol m = tc.
Proof.
  unfold matchingMove. induction l as [|x l IH]; simpl; [done|].
  destruct ((toRow x =? tr) && (toCol x =? tc)) eqn:Hx.
  - intros [= <-]. apply andb_true_iff in Hx as [?%Z.eqb_eq ?%Z.eqb_eq].
    split; [left | done].
  - intros H. destruct (IH H) as (? & ? & ?). split; [by right | done].
Qed.

Lemma matchingMove_None l tr tc :
  matchingMove l tr tc = None -> forall m, m ∈ l -> ~ (toRow m = tr /\ toCol m = tc).
Proof.
  unfold matchingMove. induction l as [|x l IH]; simpl; [by intros _ m ?%elem_of_nil|].
  destruct ((toRow x =? tr) && (toCol x =? tc)) eqn:Hx; [done|].
  intros H m [->|Hin]%elem_of_cons.
  - intros [? ?]. apply andb_false_iff in Hx as [?%Z.eqb_neq|?%Z.eqb_neq]; lia.
  - now apply IH.
Qed.

Lemma collectAllMoves_acc s sqs acc :
  wf s ->
  fold_left collectStep sqs (acc, s)
  = (acc ++ flat_map (fun rc => legalMoves s (fst rc) (snd rc)) sqs, s).
Proof.
  intros Hwf. revert acc.
  induction sqs as [|rc sqs IH]; intros acc; cbn [fold_left flat_map].
  - now rewrite app_nil_r.
  - unfold collectStep at 2. cbn [fst snd]. case_bool_decide as Hc.
    + rewrite getLegalMoves_eq by done. rewrite IH. now rewrite <- app_assoc.
    + replace (legalMoves s rc.1 rc.2) with (@nil Move); [apply IH|].
      unfold legalMoves. destruct (negb _); [done|].
      rewrite (bool_decide_eq_true_2 (color _ <> _)) by done.
      now rewrite orb_true_r.
Qed.

Lemma collectAllMoves_eq s : wf s -> collectAllMoves s = (allLegalMoves s, s).
Proof. intros. unfold collectAllMoves. now rewrite collectAllMoves_acc. Qed.

#[global] Arguments isLegalMove : simpl never.
#[global] Arguments executeMoveInternal : simpl never.

Ltac proj_simpl :=
  cbn [board currentPlayer whiteKingMoved blackKingMoved whiteRookAMoved whiteRookHMoved
       blackRookAMoved blackRookHMoved enPassantCol enPassantRow moveHistory
       put withBoard withPlayer withEnPassant withFlags].

Ltac split_ifs :=
  repeat match goal with
  | |- context [if ?b then _ else _] => destruct b
  end.

(** *** The blocks of [executeMoveInternal] *)
Lemma wf_captureEnPassant m p s : wf s -> wf (captureEnPassant m p s).
Proof. intros H. unfold captureEnPassant. split_ifs; auto using wf_put. Qed.

Lemma wf_moveCastlingRook m s : wf s -> wf (moveCastlingRook m s).
Proof. intros H. unfold moveCastlingRook. split_ifs; auto using wf_put. Qed.

Lemma wf_updateEnPassant m p s : wf s -> wf (updateEnPassant m p s).
Proof. intros H. unfold updateEnPassant. split_ifs; exact H. Qed.

Lemma wf_relocatePiece m p s : wf s -> wf (relocatePiece m p s).
Proof. intros H. unfold relocatePiece. auto using wf_put. Qed.

Lemma wf_promotePiece m q s : wf s -> wf (promotePiece m q s).
Proof. intros H. unfold promotePiece. split_ifs; auto using wf_put. Qed.

Lemma wf_updateCastlingRights m p s : wf s -> wf (updateCastlingRights m p s).
Proof. intros H. unfold updateCastlingRights. cbv zeta. split_ifs; exact H. Qed.

Lemma wf_executeMoveInternal m q s : wf s -> wf (executeMoveInternal m q s).
Proof.
  intros H. unfold executeMoveInternal. cbv zeta.
  apply wf_updateCastlingRights, wf_promotePiece, wf_relocatePiece,
    wf_updateEnPassant, wf_moveCastlingRook, wf_captureEnPassant, H.
Qed.

Lemma sameMeta_refl s : sameMeta s s.
Proof. repeat split. Qed.

Lemma sameMeta_trans s1 s2 s3 : sameMeta s1 s2 -> sameMeta s2 s3 -> sameMeta s1 s3.
Proof. unfold sameMeta. intuition congruence. Qed.

Lemma sameMeta_put r c p s : sameMeta s (put r c p s).
Proof. repeat split. Qed.

Lemma sameMeta_captureEnPassant m p s : sameMeta s (captureEnPassant m p s).
Proof. unfold captureEnPassant. split_ifs; auto using sameMeta_refl, sameMeta_put. Qed.

Lemma sameMeta_moveCastlingRook m s : sameMeta s (moveCastlingRook m s).
Proof. unfold moveCastlingRook. split_ifs; repeat split. Qed.

Lemma sameMeta_relocatePiece m p s : sameMeta s (relocatePiece m p s).
Proof. repeat split. Qed.

Lemma sameMeta_promotePiece m q s : sameMeta s (promotePiece m q s).
Proof. unfold promotePiece. split_ifs; repeat split. Qed.

Lemma board_updateEnPassant m p s : board (updateEnPassant m p s) = board s.
Proof. unfold updateEnPassant. cbv zeta. split_ifs; reflexivity. Qed.

Lemma board_updateCastlingRights m p s : board (updateCastlingRights m p s) = board s.
Proof. unfold updateCastlingRights. cbv zeta. split_ifs; reflexivity. Qed.

Lemma meta_updateEnPassant m p s :
  currentPlayer (updateEnPassant m p s) = currentPlayer s /\
  whiteKingMoved (updateEnPassant m p s) = whiteKingMoved s /\
  blackKingMoved (updateEnPassant m p s) = blackKingMoved s /\
  whiteRookAMoved (updateEnPassant m p s) = whiteRookAMoved s /\
  whiteRookHMoved (updateEnPassant m p s) = whiteRookHMoved s /\
  blackRookAMoved (updateEnPassant m p s) = blackRookAMoved s /\
  blackRookHMoved (updateEnPassant m p s) = blackRookHMoved s /\
  moveHistory (updateEnPassant m p s) = moveHistory s /\
  enPassantCol (updateEnPassant m p s) = (if isDoubleStep m p then fromCol m else -1) /\
  enPassantRow (updateEnPassant m p s) =
    (if isDoubleStep m p then Z.quot (fromRow m + toRow m) 2 else enPassantRow s).
Proof.
  unfold updateEnPassant, isDoubleStep. cbv zeta.
  destruct (_ && _); repeat split.
Qed.

Lemma meta_updateCastlingRights m p s :
  currentPlayer (updateCastlingRights m p s) = currentPlayer s /\
  enPassantCol (updateCastlingRights m p s) = enPassantCol s /\
  enPassantRow (updateCastlingRights m p s) = enPassantRow s /\
  moveHistory (updateCastlingRights m p s) = moveHistory s /\
  whiteKingMoved (updateCastlingRights m p s)
    = whiteKingMoved s || (isType KING p && isWhite p) /\
  blackKingMoved (updateCastlingRights m p s)
    = blackKingMoved s || (isType KING p && negb (isWhite p)) /\
  whiteRookAMoved (updateCastlingRights m p s)
    = whiteRookAMoved s || (isType ROOK p && isWhite p && (fromCol m =? 0)) /\
  whiteRookHMoved (updateCastlingRights m p s)
    = whiteRookHMoved s || (isType ROOK p && isWhite p && (fromCol m =? 7)) /\
  blackRookAMoved (updateCastlingRights m p s)
    = blackRookAMoved s || (isType ROOK p && negb (isWhite p) && (fromCol m =? 0)) /\
  blackRookHMoved (updateCastlingRights m p s)
    = blackRookHMoved s || (isType ROOK p && negb (isWhite p) && (fromCol m =? 7)).
Proof.
  unfold updateCastlingRights, isType, isWhite. cbv zeta.
  destruct (bool_decide (type p = KING)) eqn:Hk;
  destruct (bool_decide (type p = ROOK)) eqn:Hr;
  destruct (bool_decide (color p = WHITE));
  destruct (fromCol m =? 0), (fromCol m =? 7); proj_simpl;
  cbn [andb negb]; rewrite ?orb_false_r, ?orb_true_r; repeat split.
Qed.

#[global] Hint Rewrite board_updateEnPassant board_updateCastlingRights : game.

Lemma meta_executeMoveInternal m q s :
  let p := at_ s (fromRow m) (fromCol m) in
  let s' := executeMoveInternal m q s in
  currentPlayer s' = opponent (currentPlayer s) /\
  moveHistory s' = moveHistory s /\
  enPassantCol s' = (if isDoubleStep m p then fromCol m else -1) /\
  enPassantRow s' =
    (if isDoubleStep m p then Z.quot (fromRow m + toRow m) 2 else enPassantRow s) /\
  whiteKingMoved s' = whiteKingMoved s || (isType KING p && isWhite p) /\
  blackKingMoved s' = blackKingMoved s || (isType KING p && negb (isWhite p)) /\
  whiteRookAMoved s' = whiteRookAMoved s || (isType ROOK p && isWhite p && (fromCol m =? 0)) /\
  whiteRookHMoved s' = whiteRookHMoved s || (isType ROOK p && isWhite p && (fromCol m =? 7)) /\
  blackRookAMoved s'
    = blackRookAMoved s || (isType ROOK p && negb (isWhite p) && (fromCol m =? 0)) /\
  blackRookHMoved s'
    = blackRookHMoved s || (isType ROOK p && negb (isWhite p) && (fromCol m =? 7)).
Proof.
  intros p s'. subst s'. unfold executeMoveInternal. cbv zeta. fold p.
  set (s1 := captureEnPassant m p s).
  set (s2 := moveCastlingRook m s1).
  set (s3 := updateEnPassant m p s2).
  set (s4 := relocatePiece m p s3).
  set (s5 := promotePiece m q s4).
  pose proof (sameMeta_captureEnPassant m p s) as H1. fold s1 in H1.
  pose proof (sameMeta_moveCastlingRook m s1) as H2. fold s2 in H2.
  pose proof (meta_updateEnPassant m p s2) as H3. fold s3 in H3.
  pose proof (sameMeta_relocatePiece m p s3) as H4. fold s4 in H4.
  pose proof (sameMeta_promotePiece m q s4) as H5. fold s5 in H5.
  pose proof (meta_updateCastlingRights m p s5) as H6.
  unfold sameMeta in *.
  cbn [currentPlayer withPlayer moveHistory enPassantCol enPassantRow
    whiteKingMoved blackKingMoved whiteRookAMoved whiteRookHMoved blackRookAMoved
    blackRookHMoved].
  destruct H1 as (?&?&?&?&?&?&?&?&?&?), H2 as (?&?&?&?&?&?&?&?&?&?),
    H3 as (?&?&?&?&?&?&?&?&?&?), H4 as (?&?&?&?&?&?&?&?&?&?),
    H5 as (?&?&?&?&?&?&?&?&?&?), H6 as (?&?&?&?&?&?&?&?&?&?).
  destruct (isDoubleStep m p); repeat split; congruence.
Qed.

Lemma pseudoSpec_moveShape s row col m :
  isValidPosition row col = true -> pseudoSpec s row col m -> moveShape m.
Proof.
  intros Hv [Hto Hplain Hcastle Hep _ _]. apply valid_bounds in Hv.
  pose proof Hto as Hto'. apply valid_bounds in Hto'.
  unfold moveShape.
  destruct (isCastling m) eqn:Hcas.
  - destruct Hcastle as (_ & Hnep & Hnpr & Hshape); [done|].
    rewrite Hnep.
    destruct (color (at_ s row col)); simpl in Hshape; [done | |];
      destruct Hshape as (_ & Hfr & Hfc & Htr & Hside);
      rewrite Hfr, Hfc, Htr in *;
      (repeat split; try done; try (intros _; repeat split; try done));
      try lia; intuition lia.
  - destruct Hplain as (Hfr & Hfc & Hne); [done|]. rewrite Hfr, Hfc.
    repeat split; try done.
    + apply valid_bounds. lia.
    + lia.
    + destruct Hep as (_ & Hp & _); done.
    + destruct Hep as (_ & _ & _ & Hc & _); [done|]. lia.
    + destruct Hep as (_ & _ & Hr & _); [done|].
      unfold pawnDirection in Hr. case_bool_decide; lia.
Qed.

Ltac exec_board :=
  unfold promotePiece, relocatePiece, moveCastlingRook, captureEnPassant;
  cbv beta zeta;
  cbn [fromRow fromCol toRow toCol isCastling isEnPassant isPromotion];
  repeat progress (rewrite ?at_cell; autorewrite with game; cbn [Z.eqb Pos.eqb andb]).

Ltac eqb_cases :=
  repeat match goal with
  | |- context [?a =? ?b] => destruct (Z.eqb_spec a b); try lia; cbn [andb]
  end.

Ltac exec_cells := cells; eqb_cases; try reflexivity.

Lemma at_executeMoveInternal s m q r c :
  wf s -> moveShape m -> isValidPosition r c = true ->
  at_ (executeMoveInternal m q s) r c = executedAt m q s r c.
Proof.
  intros Hwf (Hfrom & Hto & Hne & Hcastle & Hep) Hrc.
  unfold wf in Hwf. unfold executedAt, rookFrom, rookTo, captureRowFor.
  destruct m as [fr fc tr tc cap cas ep promo sc].
  cbn [fromRow fromCol toRow toCol isCastling isEnPassant isPromotion] in *.
  apply valid_bounds in Hfrom, Hto, Hrc.
  rewrite (at_cell (executeMoveInternal _ _ _)).
  assert (Hb : forall mv, board (executeMoveInternal mv q s)
               = board (promotePiece mv q (relocatePiece mv (at_ s (fromRow mv) (fromCol mv))
                     (moveCastlingRook mv
                        (captureEnPassant mv (at_ s (fromRow mv) (fromCol mv)) s))))).
  { intros mv. unfold executeMoveInternal. cbv zeta.
    cbn [board withPlayer]. rewrite board_updateCastlingRights.
    unfold promotePiece, relocatePiece. cbv zeta.
    destruct (isPromotion mv); rewrite ?at_cell; autorewrite with game; reflexivity. }
  rewrite Hb. clear Hb.
  cbn [fromRow fromCol].
  destruct cas.
  - destruct Hcastle as (-> & -> & -> & -> & [-> | ->]); [done | |]; exec_board.
    + on_square r c fr 4; on_square r c fr 5; on_square r c fr 6; on_square r c fr 7;
        subst; exec_cells.
    + on_square r c fr 4; on_square r c fr 3; on_square r c fr 2; on_square r c fr 0;
        subst; exec_cells.
  - destruct ep.
    + destruct Hep as (-> & Hc & Hr); [done|]. exec_board.
      destruct (bool_decide (color (cell (board s) fr fc) = WHITE));
        destruct Hr as [-> | ->];
        on_square r c fr fc;
        on_square r c (fr + 1) tc; on_square r c (fr - 1) tc;
        on_square r c (fr + 1 + 1) tc; on_square r c (fr + 1 - 1) tc;
        on_square r c (fr - 1 + 1) tc; on_square r c (fr - 1 - 1) tc;
        subst; exec_cells.
    + exec_board. destruct promo; exec_board;
        on_square r c fr fc; on_square r c tr tc; subst; exec_cells.
Qed.

Lemma legalNow_false s m :
  legalNow s m = false <->
  exists kr kc, findKing (trialPosition m s) (currentPlayer s) = Some (kr, kc) /\
    isSquareAttacked (trialPosition m s) kr kc (opponent (currentPlayer s)) = true.
Proof.
  unfold legalNow, isInCheck. rewrite negb_false_iff.
  destruct (findKing _ _) as [[kr kc]|].
  - split.
    + intros H. exists kr, kc. auto.
    + intros (kr' & kc' & [= <- <-] & H). exact H.
  - split; [done|]. intros (? & ? & [=] & _).
Qed.

Lemma isLegalMove_frame_wf (s : GameState) (row col : Z) (move : Move) :
  wf s -> isValidPosition row col = true ->
  In move (getPseudoLegalMoves s row col) ->
  snd (isLegalMove move s) = s /\
  (color (at_ s row col) = currentPlayer s ->
   (fst (isLegalMove move s) = false <->
    exists kingRow kingCol,
      findKing (trialPosition move s) (color (at_ s row col)) = Some (kingRow, kingCol) /\
      isSquareAttacked (trialPosition move s) kingRow kingCol
        (opponent (color (at_ s row col))) = true)).
Proof.
  intros Hwf Hv Hin.
  assert (Hps : pseudoSpec s row col move).
  { pose proof (getPseudoLegalMoves_spec s row col Hv) as HF.
    rewrite Forall_forall in HF. now apply HF. }
  split.
  - now apply (isLegalMove_restore s row col).
  - intros ->. rewrite isLegalMove_fst. apply legalNow_false.
Qed.

Lemma makeMove_iff_legal_wf (s : GameState) (fromRow_ fromCol_ toRow_ toCol_ : Z)
    (promotionPiece : PieceType) :
  wf s ->
  (fst (makeMove fromRow_ fromCol_ toRow_ toCol_ promotionPiece s) = true <->
   exists move, In move (fst (getLegalMoves fromRow_ fromCol_ s)) /\
                toRow move = toRow_ /\ toCol move = toCol_) /\
  (fst (makeMove fromRow_ fromCol_ toRow_ toCol_ promotionPiece s) = false ->
   snd (makeMove fromRow_ fromCol_ toRow_ toCol_ promotionPiece s) = s).
Proof.
  intros Hwf. rewrite makeMove_eq, getLegalMoves_eq by done. cbn [fst].
  destruct (matchingMove _ _ _) as [m|] eqn:Hm; cbn [fst snd].
  - split; [| done]. split; [| done]. intros _.
    apply matchingMove_Some in Hm as (Hin & ? & ?).
    exists m. split; [now apply list_elem_of_In | done].
  - split; [| done]. split; [done|].
    intros (m & Hin & ? & ?). exfalso.
    eapply matchingMove_None; eauto. now apply list_elem_of_In.
Qed.

Lemma makeMove_Some s fr fc tr tc q s' :
  wf s -> makeMove fr fc tr tc q s = (true, s') ->
  exists m, m ∈ legalMoves s fr fc /\ toRow m = tr /\ toCol m = tc /\
            s' = executeMoveInternal m q s.
Proof.
  intros Hwf. rewrite makeMove_eq by done.
  destruct (matchingMove _ _ _) as [m|] eqn:Hm; [| done].
  intros [= <-]. apply matchingMove_Some in Hm as (? & ? & ?). eauto.
Qed.

Lemma makeMove_enPassant_target s fr fc tr tc q s' :
  wf s -> makeMove fr fc tr tc q s = (true, s') ->
  let double := bool_decide (type (at_ s fr fc) = PAWN) && (Z.abs (fr - tr) =? 2) in
  enPassantCol s' = (if double then fc else -1) /\
  enPassantRow s' = (if double then (fr + tr) / 2 else enPassantRow s) /\
  (double = true -> tc = fc).
Proof.
  intros Hwf Hmk double.
  apply makeMove_Some in Hmk as (m & Hin & <- & <- & ->); [| done].
  apply legalMoves_spec in Hin as (Hv & Hne & Hcol & _ & _ & Hps).
  destruct (meta_executeMoveInternal m q s) as (_ & _ & Hc & Hr & _).
  rewrite Hc, Hr. clear Hc Hr.
  destruct Hps as [Hto Hplain Hcastle Hep Hpromo Hpawn].
  apply valid_bounds in Hv, Hto.
  destruct (isCastling m) eqn:Hcas.
  - destruct Hcastle as (Hk & _ & _ & Hshape); [done|].
    assert (Hd1 : isDoubleStep m (at_ s (fromRow m) (fromCol m)) = false).
    { unfold isDoubleStep. apply andb_false_iff. right. apply Z.eqb_neq.
      destruct (color (at_ s fr fc)); simpl in Hshape; [done | |];
        destruct Hshape as (_ & -> & _ & -> & _); lia. }
    assert (Hd2 : double = false).
    { subst double. rewrite Hk. now rewrite bool_decide_eq_false_2. }
    rewrite Hd1, Hd2. repeat split; done.
  - destruct Hplain as (Hfr & Hfc & _); [done|].
    unfold isDoubleStep. subst double. rewrite Hfr, Hfc in *.
    destruct (bool_decide (type (at_ s fr fc) = PAWN)) eqn:Ht; cbn [andb];
      [| repeat split; done].
    destruct (Z.abs (fr - toRow m) =? 2) eqn:Ha; [| repeat split; done].
    apply bool_decide_eq_true in Ht. apply Z.eqb_eq in Ha.
    destruct (Hpawn Ht) as (_ & _ & Hrows).
    destruct (Hrows Ha) as (_ & Hcol').
    split; [done|]. split; [| intros _; exact Hcol'].
    rewrite Z.quot_div_nonneg by lia. done.
Qed.

(** The part of C4 that the code keeps: the target after a double step. *)
Lemma makeMove_double_step_sets_target (s s' : GameState) (fr fc tr tc : Z) (q : PieceType) :
  wf s -> makeMove fr fc tr tc q s = (true, s') ->
  type (at_ s fr fc) = PAWN -> Z.abs (fr - tr) = 2 ->
  enPassantRow s' = (fr + tr) / 2 /\ enPassantCol s' = (fc + tc) / 2.
Proof.
  intros Hwf Hmk Ht Ha.
  destruct (makeMove_enPassant_target s fr fc tr tc q s' Hwf Hmk) as (Hc & Hr & Hcol).
  rewrite (bool_decide_eq_true_2 _ Ht) in *.
  apply Z.eqb_eq in Ha. rewrite Ha in *. cbn [andb] in *.
  rewrite Hcol by done. split; [done|].
  rewrite Hc. replace (fc + fc) with (fc * 2) by lia. now rewrite Z.div_mul.
Qed.

Lemma boundary_promotion_inv (s s' : GameState) (fr fc tr tc : Z) :
  wf s -> enPassantOk s ->
  Boundary.makeMove (Some s) fr fc tr tc = (true, Some s') ->
  type (at_ s fr fc) = PAWN -> tr = 0 \/ tr = 7 ->
  color (at_ s fr fc) = currentPlayer s /\
  at_ s' tr tc = mkPiece QUEEN (currentPlayer s) true.
Proof.
  intros Hwf Hep Hmk Ht Hlast.
  unfold Boundary.makeMove in Hmk.
  destruct (makeMove fr fc tr tc QUEEN s) as [ok s''] eqn:Hm.
  injection Hmk as -> ->.
  apply makeMove_Some in Hm as (m & Hin & Htr & Htc & ->); [| done].
  apply legalMoves_spec in Hin as (Hv & Hne & Hcol & _ & _ & Hps).
  split; [done|].
  rewrite at_executeMoveInternal;
    [| done | eapply pseudoSpec_moveShape; eauto | subst; apply Hps].
  destruct Hps as [Hto Hplain Hcastle Hepm Hpromo Hpawn].
  destruct (Hpawn Ht) as (Hcas & Hflag & _).
  destruct (Hplain Hcas) as (Hfr & Hfc & _).
  assert (Hnep : isEnPassant m = false).
  { destruct (isEnPassant m); [| done].
    destruct Hepm as (_ & _ & _ & _ & Hr & _); [done|].
    unfold enPassantOk in Hep. lia. }
  unfold executedAt. rewrite Htr, Htc, !Z.eqb_refl. cbn [andb].
  rewrite Hflag, Htr by done.
  replace ((tr =? 0) || (tr =? 7)) with true
    by (destruct Hlast as [-> | ->]; reflexivity).
  rewrite Hfr, Hfc, Hcol. reflexivity.
Qed.

#[global] Arguments minimax : simpl never.
#[global] Arguments searchTrial : simpl never.

Lemma orderingScore_coords m g s : coords (fst (fst (orderingScore m g s))) = coords m.
Proof.
  unfold orderingScore. cbv beta zeta. unfold smallNoise.
  destruct (givesCheckTrial m s). reflexivity.
Qed.

Lemma orderingLoop_coords l g s :
  map coords (fst (fst (orderingLoop l g s))) = map coords l.
Proof.
  revert g s. induction l as [|m l IH]; intros g s; cbn [orderingLoop]; [done|].
  pose proof (orderingScore_coords m g s) as Hm.
  destruct (orderingScore m g s) as [[m' g1] s1].
  specialize (IH g1 s1).
  destruct (orderingLoop l g1 s1) as [[l' g2] s2].
  cbn [fst map] in *. now rewrite Hm, IH.
Qed.

Lemma insertByScore_In x m l : In x (insertByScore m l) <-> x = m \/ In x l.
Proof.
  induction l as [|y l IH]; cbn [insertByScore].
  - simpl. intuition.
  - destruct (score y <? score m); simpl in *; intuition.
Qed.

Lemma sortByScore_In x l : In x (sortByScore l) <-> In x l.
Proof.
  unfold sortByScore. induction l as [|y l IH]; cbn [foldr]; [done|].
  rewrite insertByScore_In. simpl. intuition.
Qed.

Lemma bestLoop_In depth moves best bestScore g s :
  let m := fst (fst (bestLoop depth moves best bestScore g s)) in
  m = best \/ In m moves.
Proof.
  revert best bestScore g s.
  induction moves as [|mv moves IH]; intros best bestScore g s; cbn [bestLoop].
  - left. reflexivity.
  - cbv zeta.
    destruct (searchTrial _ mv s) as [sc s1].
    match goal with
    | |- context [let '(better, g0) := ?e in _] => destruct e as [better g1]
    end.
    destruct better.
    + destruct (IH mv sc g1 s1) as [-> | Hin]; [right; left; done | right; right; done].
    + destruct (IH best bestScore g1 s1) as [-> | Hin]; [left; done | right; right; done].
Qed.

Lemma squares_complete r c : isValidPosition r c = true -> In (r, c) squares.
Proof.
  intros Hv. apply valid_bounds in Hv.
  assert (Hr : r = 0 \/ r = 1 \/ r = 2 \/ r = 3 \/ r = 4 \/ r = 5 \/ r = 6 \/ r = 7) by lia.
  assert (Hc : c = 0 \/ c = 1 \/ c = 2 \/ c = 3 \/ c = 4 \/ c = 5 \/ c = 6 \/ c = 7) by lia.
  clear Hv. unfold squares, range8. cbn [flat_map map app].
  repeat destruct Hr as [-> | Hr]; try subst r;
    repeat destruct Hc as [-> | Hc]; try subst c; simpl; tauto.
Qed.

Lemma allLegalMoves_In s m :
  In m (allLegalMoves s) <-> exists r c, In m (legalMoves s r c).
Proof.
  unfold allLegalMoves. rewrite in_flat_map. split.
  - intros ([r c] & _ & Hin). eauto.
  - intros (r & c & Hin). exists (r, c). split; [| done].
    apply squares_complete.
    unfold legalMoves in Hin. destruct (isValidPosition r c); [done | destruct Hin].
Qed.

Lemma legal_from_square s r c m :
  kingsHome s -> In m (legalMoves s r c) -> fromRow m = r /\ fromCol m = c.
Proof.
  intros Hk Hin. apply list_elem_of_In, legalMoves_spec in Hin
    as (Hv & Hne & Hcol & _ & _ & Hps).
  destruct Hps as [Hto Hplain Hcastle _ _ _].
  destruct (isCastling m).
  - destruct Hcastle as (Htk & _ & _ & Hshape); [done|].
    destruct (Hk r c Hv Htk) as [Hw Hb].
    destruct (color (at_ s r c)); simpl in Hshape; [done | |].
    + destruct Hshape as (Hflag & -> & -> & _). destruct Hw; auto.
    + destruct Hshape as (Hflag & -> & -> & _). destruct Hb; auto.
  - destruct Hplain as (? & ? & _); auto.
Qed.

Lemma getBestMove_sound_inv (s : GameState) (depth : Z) (g : Rng) :
  wf s -> kingsHome s -> 0 < depth ->
  exists m g' s', getBestMove depth g s = Some (m, g', s') /\
    (isNoMove m <-> forall r c, fst (getLegalMoves r c s) = []) /\
    (~ isNoMove m ->
     exists m', In m' (fst (getLegalMoves (fromRow m) (fromCol m) s)) /\
                toRow m' = toRow m /\ toCol m' = toCol m).
Proof.
  intros Hwf Hk Hd. unfold getBestMove.
  rewrite collectAllMoves_eq by done.
  assert (Hall : forall r c, fst (getLegalMoves r c s) = legalMoves s r c).
  { intros. now rewrite getLegalMoves_eq. }
  destruct (allLegalMoves s) as [|m0 rest] eqn:Hmoves.
  - exists noMove, g, s. split; [done|]. split.
    + split; [| done]. intros _ r c. rewrite Hall.
      destruct (legalMoves s r c) as [|x l] eqn:Hl; [done|]. exfalso.
      assert (Hin : In x (allLegalMoves s)).
      { apply allLegalMoves_In. exists r, c. rewrite Hl. now left. }
      rewrite Hmoves in Hin. destruct Hin.
    + intros H. exfalso. apply H. reflexivity.
  - rewrite (proj2 (Z.leb_gt depth 0)) by lia.
    pose proof (orderingLoop_coords (m0 :: rest) g s) as Hord.
    destruct (orderingLoop (m0 :: rest) g s) as [[ordered g1] s1].
    cbn [fst] in Hord.
    set (sorted := sortByScore ordered).
    set (bs := if bool_decide (currentPlayer s1 = WHITE) then -999999 else 999999).
    pose proof (bestLoop_In (Z.to_nat (depth - 1)) sorted (hd noMove sorted) bs g1 s1)
      as Hbest.
    destruct (bestLoop _ sorted _ bs g1 s1) as [[m g2] s2].
    cbn [fst] in Hbest.
    exists m, g2, s2. split; [done|].
    assert (Hm : In m ordered).
    { apply sortByScore_In. fold sorted.
      destruct Hbest as [-> | Hin]; [| done].
      destruct sorted as [|x l] eqn:Hs; [| now left].
      exfalso. destruct ordered as [|y l']; [discriminate Hord|].
      assert (In y sorted) by (apply sortByScore_In; now left).
      rewrite Hs in *. done. }
    assert (Hc : In (coords m) (map coords (allLegalMoves s))).
    { rewrite Hmoves, <- Hord. now apply in_map. }
    apply in_map_iff in Hc as (m' & Hcm & Hin').
    apply allLegalMoves_In in Hin' as (r & c & Hin').
    pose proof (legal_from_square s r c m' Hk Hin') as [Hfr Hfc].
    pose proof Hin' as Hspec.
    apply list_elem_of_In, legalMoves_spec in Hspec as (Hv & _).
    apply valid_bounds in Hv.
    unfold coords in Hcm. injection Hcm as H1 H2 H3 H4.
    assert (Hnot : ~ isNoMove m).
    { unfold isNoMove, coords. intros [= Hx _ _ _]. lia. }
    split.
    + split; [done|]. intros Hnone. exfalso.
      specialize (Hnone r c). rewrite Hall in Hnone. rewrite Hnone in Hin'.
      destruct Hin'.
    + intros _. exists m'. rewrite Hall. rewrite <- H1, <- H2, Hfr, Hfc.
      repeat split; auto.
Qed.

Lemma kingsHome_initial : kingsHome initializeBoard.
Proof.
  intros r c Hv. apply squares_complete in Hv.
  revert r c Hv.
  assert (H : Forall (fun rc => let r := fst rc in let c := snd rc in
     type (at_ initializeBoard r c) = KING ->
    (color (at_ initializeBoard r c) = WHITE ->
     whiteKingMoved initializeBoard = false -> r = 7 /\ c = 4) /\
    (color (at_ initializeBoard r c) = BLACK ->
     blackKingMoved initializeBoard = false -> r = 0 /\ c = 4)) squares).
  { vm_compute. repeat constructor; intros; try discriminate; auto. }
  rewrite Forall_forall in H. intros r c Hin. exact (H (r, c) Hin).
Qed.

Lemma noNewKings_refl s : noNewKings s s.
Proof. intros r c _ Hk _. auto. Qed.

Lemma noNewKings_trans s1 s2 s3 :
  noNewKings s1 s2 -> noNewKings s2 s3 -> noNewKings s1 s3.
Proof.
  intros H12 H23 r c Hv Hk Hc.
  destruct (H23 r c Hv Hk Hc) as [Hk2 Hc2].
  destruct (H12 r c Hv Hk2) as [Hk1 Hc1]; [congruence|].
  split; congruence.
Qed.

Lemma flagsGrow_refl s : flagsGrow s s.
Proof. split; auto. Qed.

Lemma flagsGrow_trans s1 s2 s3 : flagsGrow s1 s2 -> flagsGrow s2 s3 -> flagsGrow s1 s3.
Proof. unfold flagsGrow. intuition. Qed.

Lemma sameMeta_flagsGrow s s' : sameMeta s s' -> flagsGrow s s'.
Proof. unfold sameMeta, flagsGrow. intuition congruence. Qed.

Lemma kingsHome_derived S s :
  kingsHome S -> noNewKings S s -> flagsGrow S s -> kingsHome s.
Proof.
  intros HS Hn [Hw Hb] r c Hv Hk.
  split; intros Hc Hflag.
  - destruct (Hn r c Hv Hk) as [Hk' Hc']; [congruence|].
    destruct (HS r c Hv Hk') as [HW _]. apply HW; [congruence|].
    destruct (whiteKingMoved S); [| done]. rewrite Hw in Hflag; done.
  - destruct (Hn r c Hv Hk) as [Hk' Hc']; [congruence|].
    destruct (HS r c Hv Hk') as [_ HB]. apply HB; [congruence|].
    destruct (blackKingMoved S); [| done]. rewrite Hb in Hflag; done.
Qed.

Lemma okMove_later S s m :
  noNewKings S s -> okMove S m ->
  ~ (isCastling m = true /\ type (at_ s (fromRow m) (rookFrom m)) = KING /\
     color (at_ s (fromRow m) (rookFrom m)) <> NONE).
Proof.
  intros Hn [(Hfrom & Hto & _ & Hcas & _) Hno] (Hc & Hk & Hcol).
  apply Hno. split; [done|].
  assert (Hv : isValidPosition (fromRow m) (rookFrom m) = true).
  { apply valid_bounds in Hfrom. apply valid_bounds. unfold rookFrom.
    destruct (toCol m =? 6); lia. }
  destruct (Hn _ _ Hv Hk Hcol) as [? ?]. split; congruence.
Qed.

(** [executeMoveInternal] with a queen as the promotion piece keeps
    [kingsHome]. *)
Lemma kingsHome_executeMoveInternal s m :
  wf s -> moveShape m -> kingsHome s -> kingsHome (executeMoveInternal m QUEEN s).
Proof.
  intros Hwf Hshape Hk r c Hv.
  rewrite at_executeMoveInternal by done.
  destruct (meta_executeMoveInternal m QUEEN s) as (_ & _ & _ & _ & Hwk & Hbk & _).
  cbv zeta in Hwk, Hbk. rewrite Hwk, Hbk. clear Hwk Hbk.
  destruct Hshape as (Hfrom & Hto & Hne & Hcas & Hep).
  assert (Hrook : isValidPosition (fromRow m) (rookFrom m) = true).
  { apply valid_bounds in Hfrom. apply valid_bounds. unfold rookFrom.
    destruct (toCol m =? 6); lia. }
  unfold executedAt, isType, isWhite.
  set (p := at_ s (fromRow m) (fromCol m)).
  repeat match goal with
  | |- context [if ?b then _ else _] => destruct b eqn:?
  end; cbn [type color]; intros Hty; try discriminate Hty.
  - (* the destination *)
    split; intros Hc; rewrite (bool_decide_eq_true_2 _ Hty);
      [rewrite (bool_decide_eq_true_2 _ Hc) | rewrite bool_decide_eq_false_2 by congruence];
      cbn [andb negb]; rewrite orb_true_r; discriminate.
  - (* the rook's new square *)
    destruct (Hk _ _ Hrook Hty) as [HW HB].
    assert (Hcol : rookFrom m <> 4) by (unfold rookFrom; destruct (toCol m =? 6); lia).
    split; intros Hc Hflag; apply orb_false_iff in Hflag as [Hflag _].
    + destruct (HW Hc Hflag). lia.
    + destruct (HB Hc Hflag). lia.
  - (* an untouched square *)
    destruct (Hk _ _ Hv Hty) as [HW HB].
    split; intros Hc Hflag; apply orb_false_iff in Hflag as [Hflag _]; auto.
Qed.

Lemma squares_valid r c : In (r, c) squares -> isValidPosition r c = true.
Proof.
  assert (H : Forall (fun rc => isValidPosition (fst rc) (snd rc) = true) squares).
  { vm_compute. repeat constructor. }
  rewrite Forall_forall in H. intros Hin. exact (H (r, c) Hin).
Qed.

Lemma stepMoves_mono s row col offsets moves x :
  In x moves -> In x (stepMoves s row col offsets moves).
Proof.
  unfold stepMoves. revert moves.
  induction offsets as [|o offsets IH]; intros moves Hin; cbn [fold_left]; [done|].
  apply IH. destruct (isValidPosition _ _); [| done].
  destruct (_ || _); [| done]. apply in_or_app. now left.
Qed.

Lemma stepMoves_In s row col offsets moves o :
  In o offsets ->
  isValidPosition (row + fst o) (col + snd o) = true ->
  color (at_ s (row + fst o) (col + snd o)) <> color (at_ s row col) ->
  exists cap, In (mkMove row col (row + fst o) (col + snd o) cap false false false 0)
                 (stepMoves s row col offsets moves).
Proof.
  intros Hin Hv Hcol. unfold stepMoves. revert moves.
  induction offsets as [|o' offsets IH]; intros moves; [destruct Hin|].
  cbn [fold_left]. destruct Hin as [-> | Hin].
  - rewrite Hv. rewrite (bool_decide_eq_true_2 (color _ <> _)) by done.
    rewrite orb_true_r. eexists.
    apply (stepMoves_mono s row col offsets). apply in_or_app. right. now left.
  - apply IH. exact Hin.
Qed.

Lemma castlingMoves_mono s p moves x : In x moves -> In x (castlingMoves s p moves).
Proof.
  intros Hin. unfold castlingMoves.
  repeat match goal with
  | |- context [if ?b then _ else _] => destruct b
  end; repeat (apply in_or_app; left); exact Hin.
Qed.

(** The board at the moment [isLegalMove] tests a castling move. *)
Lemma at_trialPosition_castling s m r c :
  wf s -> moveShape m -> isCastling m = true -> isValidPosition r c = true ->
  at_ (trialPosition m s) r c =
    if (r =? toRow m) && (c =? toCol m) then at_ s (fromRow m) (fromCol m)
    else if (r =? fromRow m) && (c =? fromCol m) then emptyPiece
    else if (r =? fromRow m) && (c =? rookFrom m) then emptyPiece
    else if (r =? fromRow m) && (c =? rookTo m) then at_ s (fromRow m) (rookFrom m)
    else at_ s r c.
Proof.
  intros Hwf (Hfrom & Hto & Hne & Hcastle & Hep) Hcas Hrc.
  unfold wf in Hwf. unfold rookFrom, rookTo.
  destruct m as [fr fc tr tc cap cas ep promo sc].
  cbn [fromRow fromCol toRow toCol isCastling isEnPassant isPromotion] in *.
  subst cas. destruct Hcastle as (-> & -> & -> & -> & Hside); [done|].
  apply valid_bounds in Hfrom, Hto, Hrc.
  rewrite (at_cell (trialPosition _ _)).
  unfold trialPosition. cbv beta zeta.
  cbn [fromRow fromCol toRow toCol isCastling isEnPassant isPromotion].
  destruct Hside as [-> | ->];
    repeat progress (rewrite ?at_cell; autorewrite with game; cbn [Z.eqb Pos.eqb andb]).
  - on_square r c fr 4; on_square r c fr 5; on_square r c fr 6; on_square r c fr 7;
      subst; exec_cells.
  - on_square r c fr 4; on_square r c fr 3; on_square r c fr 2; on_square r c fr 0;
      subst; exec_cells.
Qed.

Lemma opponent_other (X Y : Color) :
  X <> NONE -> X <> Y -> Y <> NONE -> X = opponent Y.
Proof. destruct X, Y; unfold opponent; simpl; congruence. Qed.

(** A castling move whose rook corner holds a king is never legal: the
    king dragged to the rook's square would stand next to the castled
    king. *)
Lemma castling_corner_no_king S r c m :
  wf S -> kingsHome S -> In m (legalMoves S r c) -> isCastling m = true ->
  ~ (type (at_ S (fromRow m) (rookFrom m)) = KING /\
     color (at_ S (fromRow m) (rookFrom m)) <> NONE).
Proof.
  intros Hwf Hhome Hin Hcas [Hk Hcol].
  apply list_elem_of_In, legalMoves_spec in Hin
    as (Hv & Hne & Hplayer & _ & Hlegal & Hps).
  pose proof (pseudoSpec_moveShape _ _ _ _ Hv Hps) as Hshape.
  pose proof (at_trialPosition_castling S m) as Hat.
  specialize (fun r c => Hat r c Hwf Hshape Hcas).
  destruct Hps as [Hto _ Hcastle _ _ _].
  destruct (Hcastle Hcas) as (Hking & _ & _ & Hcs).
  destruct Hshape as (Hfrom & _ & _ & Hsh & _).
  destruct (Hsh Hcas) as (_ & _ & Hfc & Htr & Hside).
  set (Y := color (at_ S r c)) in *.
  set (X := color (at_ S (fromRow m) (rookFrom m))) in *.
  (* the generating king stands on the move's origin *)
  assert (Hhomesq : fromRow m = r /\ fromCol m = c /\ Y <> NONE /\
            ((Y = WHITE /\ whiteKingMoved S = false /\ fromRow m = 7) \/
             (Y = BLACK /\ blackKingMoved S = false /\ fromRow m = 0))).
  { destruct (Hhome r c Hv Hking) as [HW HB]. fold Y in HW, HB.
    destruct Y; simpl in Hcs; [done | |].
    - destruct Hcs as (Hflag & Hfr7 & Hfc4 & _). destruct HW as [-> ->]; auto.
      repeat split; auto.
    - destruct Hcs as (Hflag & Hfr0 & Hfc4 & _). destruct HB as [-> ->]; auto.
      repeat split; auto. }
  destruct Hhomesq as (Hr & Hc & HY & Hflags).
  assert (Hrookv : isValidPosition (fromRow m) (rookFrom m) = true).
  { apply valid_bounds in Hfrom. apply valid_bounds. unfold rookFrom.
    destruct (toCol m =? 6); lia. }
  assert (HXY : X <> Y).
  { intros HXY. destruct (Hhome _ _ Hrookv Hk) as [HW HB]. fold X in HW, HB.
    assert (rookFrom m <> 4) by (unfold rookFrom; destruct (toCol m =? 6); lia).
    destruct Hflags as [(HYw & Hf & _) | (HYb & Hf & _)].
    - destruct HW; [congruence | done | lia].
    - destruct HB; [congruence | done | lia]. }
  assert (HX : X = opponent Y) by (apply opponent_other; auto).
  unfold legalNow in Hlegal. rewrite <- Hplayer in Hlegal.
  apply negb_true_iff in Hlegal.
  pose proof Hfrom as Hfb. apply valid_bounds in Hfb.
  pose proof Hto as Htb. apply valid_bounds in Htb.
  (* the squares of the trial position *)
  assert (Hat_to : at_ (trialPosition m S) (toRow m) (toCol m) = at_ S r c).
  { rewrite Hat by done. rewrite !Z.eqb_refl. cbn [andb]. now rewrite Hr, Hc. }
  assert (Hat_rook : at_ (trialPosition m S) (fromRow m) (rookTo m)
                     = at_ S (fromRow m) (rookFrom m)).
  { rewrite Hat.
    - unfold rookTo, rookFrom. rewrite Htr, Hfc.
      destruct Hside as [-> | ->]; cbn [Z.eqb Pos.eqb andb];
        rewrite ?Z.eqb_refl, ?andb_false_r; cbn [andb]; reflexivity.
    - apply valid_bounds. unfold rookTo. destruct (toCol m =? 6); lia. }
  unfold isInCheck in Hlegal.
  destruct (findKing (trialPosition m S) Y) as [[kr kc]|] eqn:Hfind.
  - (* the king found is the castled king *)
    unfold findKing in Hfind. apply find_some in Hfind as [Hsq Hp].
    cbn [fst snd] in Hp. apply andb_true_iff in Hp as [Hpk Hpc].
    apply bool_decide_eq_true in Hpk, Hpc.
    apply squares_valid in Hsq. pose proof Hsq as Hsqb. apply valid_bounds in Hsqb.
    assert (Hkk : kr = toRow m /\ kc = toCol m).
    { rewrite Hat in Hpk, Hpc by done.
      destruct ((kr =? toRow m) && (kc =? toCol m)) eqn:E1.
      { apply andb_true_iff in E1 as [?%Z.eqb_eq ?%Z.eqb_eq]. done. }
      destruct ((kr =? fromRow m) && (kc =? fromCol m)) eqn:E2; [discriminate Hpk|].
      destruct ((kr =? fromRow m) && (kc =? rookFrom m)) eqn:E3; [discriminate Hpk|].
      destruct ((kr =? fromRow m) && (kc =? rookTo m)) eqn:E4.
      { fold X in Hpc. congruence. }
      exfalso. destruct (Hhome kr kc Hsq Hpk) as [HW HB].
      assert (kr = fromRow m /\ kc = fromCol m) as [-> ->].
      { destruct Hflags as [(HYw & Hf & ?) | (HYb & Hf & ?)].
        - destruct HW; [congruence | done |]. lia.
        - destruct HB; [congruence | done |]. lia. }
      rewrite !Z.eqb_refl in E2. discriminate E2. }
    destruct Hkk as [-> ->].
    (* and the dragged king attacks it *)
    assert (Hatt : isSquareAttacked (trialPosition m S) (toRow m) (toCol m) (opponent Y)
                   = true).
    { unfold isSquareAttacked. apply existsb_exists.
      exists (fromRow m, rookTo m). split.
      { apply squares_complete. apply valid_bounds. unfold rookTo.
        destruct (toCol m =? 6); lia. }
      cbn [fst snd]. rewrite Hat_rook. fold X.
      rewrite (bool_decide_eq_true_2 (type _ <> EMPTY)) by congruence.
      rewrite (bool_decide_eq_true_2 (X = opponent Y)) by done.
      rewrite (bool_decide_eq_false_2 (type _ = PAWN)) by congruence.
      cbn [andb]. apply existsb_exists.
      unfold getPseudoLegalMoves. rewrite Hat_rook, Hk. unfold getKingMoves.
      assert (Hoff : exists o, In o [(-1,-1); (-1,0); (-1,1); (0,-1); (0,1); (1,-1); (1,0); (1,1)]
                 /\ fromRow m + fst o = toRow m /\ rookTo m + snd o = toCol m).
      { unfold rookTo. rewrite Htr.
        destruct Hside as [-> | ->]; cbn [Z.eqb Pos.eqb].
        - exists (0, 1). simpl. split; [tauto | lia].
        - exists (0, -1). simpl. split; [tauto | lia]. }
      destruct Hoff as (o & Ho & Ho1 & Ho2).
      destruct (stepMoves_In (trialPosition m S) (fromRow m) (rookTo m) _ [] o Ho)
        as [cap Hmv].
      - rewrite Ho1, Ho2. exact Hto.
      - rewrite Ho1, Ho2, Hat_to, Hat_rook. fold X Y. congruence.
      - eexists. split; [apply castlingMoves_mono; exact Hmv|].
        cbn [toRow toCol isCastling]. rewrite Ho1, Ho2, !Z.eqb_refl. reflexivity. }
    congruence.
  - (* a king of the mover is on the board *)
    unfold findKing in Hfind.
    pose proof (find_none _ _ Hfind (toRow m, toCol m)) as Hnone.
    cbn [fst snd] in Hnone. rewrite Hat_to, Hking in Hnone. fold Y in Hnone.
    rewrite !bool_decide_eq_true_2 in Hnone by done.
    discriminate Hnone. now apply squares_complete.
Qed.

Lemma board_withPlayer' s p : board (withPlayer s p) = board s.
Proof. reflexivity. Qed.

(** The kings of the executed position, square by square. *)
Lemma executed_king s m r c :
  wf s -> moveShape m -> isValidPosition r c = true ->
  ~ (isCastling m = true /\ type (at_ s (fromRow m) (rookFrom m)) = KING /\
     color (at_ s (fromRow m) (rookFrom m)) <> NONE) ->
  type (at_ (executeMoveInternal m QUEEN s) r c) = KING ->
  color (at_ (executeMoveInternal m QUEEN s) r c) <> NONE ->
  (r = toRow m /\ c = toCol m /\
   type (at_ s (fromRow m) (fromCol m)) = KING /\
   color (at_ s (fromRow m) (fromCol m)) = color (at_ (executeMoveInternal m QUEEN s) r c))
  \/
  ((r <> toRow m \/ c <> toCol m) /\ (r <> fromRow m \/ c <> fromCol m) /\
   at_ (executeMoveInternal m QUEEN s) r c = at_ s r c).
Proof.
  intros Hwf Hshape Hv Hno.
  rewrite at_executeMoveInternal by done.
  unfold executedAt.
  destruct ((r =? toRow m) && (c =? toCol m)) eqn:E1.
  { apply andb_true_iff in E1 as [?%Z.eqb_eq ?%Z.eqb_eq]. cbn [type color].
    destruct (isPromotion m); [discriminate|]. intros Hk Hc. left. auto. }
  destruct ((r =? fromRow m) && (c =? fromCol m)) eqn:E2; [discriminate|].
  assert (H1 : r <> toRow m \/ c <> toCol m).
  { apply andb_false_iff in E1 as [?%Z.eqb_neq | ?%Z.eqb_neq]; auto. }
  assert (H2 : r <> fromRow m \/ c <> fromCol m).
  { apply andb_false_iff in E2 as [?%Z.eqb_neq | ?%Z.eqb_neq]; auto. }
  destruct (isCastling m && (r =? fromRow m) && (c =? rookFrom m)) eqn:E3; [discriminate|].
  destruct (isCastling m && (r =? fromRow m) && (c =? rookTo m)) eqn:E4.
  { intros Hk Hc. exfalso. apply Hno.
    apply andb_true_iff in E4 as [E4 _]. apply andb_true_iff in E4 as [E4 _]. auto. }
  destruct (isEnPassant m && _ && _); [discriminate|].
  intros _ _. right. auto.
Qed.

(** One trial of the search: if the recursive call adds no king, the
    restored position has none that the position before the trial lacks. *)
Lemma searchTrial_spec rec m s :
  wf s -> moveShape m ->
  ~ (isCastling m = true /\ type (at_ s (fromRow m) (rookFrom m)) = KING /\
     color (at_ s (fromRow m) (rookFrom m)) <> NONE) ->
  (let s1 := executeMoveInternal m QUEEN s in
   wf (snd (rec s1)) /\ noNewKings s1 (snd (rec s1)) /\
   moveHistory (snd (rec s1)) = moveHistory s1) ->
  let s3 := snd (searchTrial rec m s) in
  wf s3 /\ sameMeta s s3 /\ noNewKings s s3.
Proof.
  intros Hwf Hshape Hno Hrec. cbv zeta in Hrec.
  destruct Hrec as (Hwf2 & Hnew & Hhist).
  destruct (meta_executeMoveInternal m QUEEN s) as (_ & Hh1 & _).
  cbv zeta in Hh1.
  unfold searchTrial. cbv beta zeta.
  destruct (rec (executeMoveInternal m QUEEN s)) as [sc s2]. cbn [snd] in *.
  set (capRow := if bool_decide (currentPlayer s = WHITE) then toRow m + 1 else toRow m - 1).
  set (rest := withFlags _ _ _ _ _ _ _).
  assert (Hwfr : wf rest).
  { subst rest. unfold wf. cbn [board withFlags withEnPassant].
    rewrite !board_put, !length_setCell. exact Hwf2. }
  assert (Hmeta : sameMeta s rest).
  { subst rest. unfold sameMeta. proj_simpl. repeat split. congruence. }
  assert (Hat : forall r c, isValidPosition r c = true ->
            at_ rest r c =
              if (r =? toRow m) && (c =? toCol m) then at_ s (toRow m) (toCol m)
              else if (r =? fromRow m) && (c =? fromCol m) then at_ s2 (toRow m) (toCol m)
              else at_ s2 r c).
  { intros r c Hv. subst rest. unfold wf in Hwf2.
    destruct Hshape as (Hfrom & Hto & Hne & _).
    apply valid_bounds in Hfrom, Hto, Hv.
    rewrite !at_cell. autorewrite with game.
    on_square r c (toRow m) (toCol m); on_square r c (fromRow m) (fromCol m);
      subst; exec_cells. }
  assert (Hkings : noNewKings s rest).
  { intros r c Hv. rewrite Hat by done.
    pose proof Hshape as (Hfrom & Hto & Hne & Hsh).
    destruct ((r =? toRow m) && (c =? toCol m)) eqn:E1.
    { apply andb_true_iff in E1 as [->%Z.eqb_eq ->%Z.eqb_eq]. auto. }
    destruct ((r =? fromRow m) && (c =? fromCol m)) eqn:E2.
    - apply andb_true_iff in E2 as [->%Z.eqb_eq ->%Z.eqb_eq].
      intros Hk Hc.
      destruct (Hnew _ _ Hto Hk Hc) as [Hk1 Hc1].
      assert (Hc1' : color (at_ (executeMoveInternal m QUEEN s) (toRow m) (toCol m)) <> NONE)
        by congruence.
      destruct (executed_king s m _ _ Hwf Hshape Hto Hno Hk1 Hc1')
        as [(_ & _ & ? & ?) | (? & _)]; [split; congruence | lia].
    - intros Hk Hc.
      destruct (Hnew _ _ Hv Hk Hc) as [Hk1 Hc1].
      assert (Hc1' : color (at_ (executeMoveInternal m QUEEN s) r c) <> NONE)
        by congruence.
      destruct (executed_king s m _ _ Hwf Hshape Hv Hno Hk1 Hc1')
        as [(-> & -> & _) | (_ & _ & Heq)].
      + rewrite !Z.eqb_refl in E1. discriminate E1.
      + rewrite Heq in *. split; congruence. }
  clearbody rest.
  destruct (isEnPassant m).
  - split; [now apply wf_put|]. split.
    + eapply sameMeta_trans; [exact Hmeta | apply sameMeta_put].
    + intros r c Hv. rewrite at_put by done.
      destruct (_ && _ && _) eqn:E.
      * apply andb_true_iff in E as [E ->%Z.eqb_eq].
        apply andb_true_iff in E as [_ ->%Z.eqb_eq]. auto.
      * apply Hkings; done.
  - auto.
Qed.

Lemma orderingKeeps_trans s1 s2 s3 :
  orderingKeeps s1 s2 -> orderingKeeps s2 s3 -> orderingKeeps s1 s3.
Proof.
  intros (?&?&?&?&?&?) (?&?&?&?&?&?).
  split; [done|]. split; [eapply noNewKings_trans; eauto|].
  split; [eapply flagsGrow_trans; eauto|].
  split; [congruence|]. split; congruence.
Qed.

Lemma orderingScore_snd m g s : snd (orderingScore m g s) = snd (givesCheckTrial m s).
Proof.
  unfold orderingScore. cbv beta zeta. unfold smallNoise.
  destruct (givesCheckTrial m s). reflexivity.
Qed.

Lemma givesCheckTrial_snd m s :
  snd (givesCheckTrial m s) = manualRestore m s (executeMoveInternal m QUEEN s).
Proof. reflexivity. Qed.

Lemma manualRestore_spec m s s1 :
  wf s -> wf s1 -> moveShape m ->
  (forall r c, isValidPosition r c = true ->
     type (at_ s1 r c) = KING -> color (at_ s1 r c) <> NONE ->
     (r = toRow m /\ c = toCol m) \/ at_ s1 r c = at_ s r c) ->
  flagsGrow s s1 ->
  orderingKeeps s (manualRestore m s s1).
Proof.
  intros Hwf Hwf1 Hshape Hking Hflags.
  unfold manualRestore. cbv zeta.
  set (rest := withEnPassant _ _ _).
  assert (Hwfr : wf rest).
  { subst rest. unfold wf. autorewrite with game.
    rewrite !length_setCell. exact Hwf1. }
  assert (Hfl : flagsGrow s rest).
  { subst rest. unfold flagsGrow. autorewrite with game. exact Hflags. }
  assert (Hat : forall r c, isValidPosition r c = true ->
            at_ rest r c =
              if (r =? toRow m) && (c =? toCol m) then at_ s (toRow m) (toCol m)
              else if (r =? fromRow m) && (c =? fromCol m) then at_ s (fromRow m) (fromCol m)
              else at_ s1 r c).
  { intros r c Hv. subst rest. unfold wf in Hwf1.
    destruct Hshape as (Hfrom & Hto & Hne & _).
    apply valid_bounds in Hfrom, Hto, Hv.
    rewrite !at_cell. autorewrite with game.
    on_square r c (toRow m) (toCol m); on_square r c (fromRow m) (fromCol m);
      subst; exec_cells. }
  assert (Hkings : noNewKings s rest).
  { intros r c Hv. rewrite Hat by done.
    destruct ((r =? toRow m) && (c =? toCol m)) eqn:E1.
    { apply andb_true_iff in E1 as [->%Z.eqb_eq ->%Z.eqb_eq]. auto. }
    destruct ((r =? fromRow m) && (c =? fromCol m)) eqn:E2.
    { apply andb_true_iff in E2 as [->%Z.eqb_eq ->%Z.eqb_eq]. auto. }
    intros Hk Hc.
    destruct (Hking _ _ Hv Hk Hc) as [(-> & ->) | Heq].
    - rewrite !Z.eqb_refl in E1. discriminate E1.
    - rewrite Heq in *. auto. }
  assert (Hmeta : currentPlayer rest = currentPlayer s /\
                  enPassantCol rest = enPassantCol s /\
                  enPassantRow rest = enPassantRow s).
  { subst rest. autorewrite with game. auto. }
  clearbody rest.
  destruct (isEnPassant m).
  - split; [now apply wf_put|]. split; [| split; [exact Hfl | exact Hmeta]].
    intros r c Hv. rewrite at_put by done.
    destruct (_ && _ && _); [discriminate | apply Hkings; done].
  - split; [done|]. split; [done|]. split; [exact Hfl | exact Hmeta].
Qed.

Lemma orderingScore_spec m g s :
  wf s -> moveShape m ->
  ~ (isCastling m = true /\ type (at_ s (fromRow m) (rookFrom m)) = KING /\
     color (at_ s (fromRow m) (rookFrom m)) <> NONE) ->
  orderingKeeps s (snd (orderingScore m g s)).
Proof.
  intros Hwf Hshape Hno.
  rewrite orderingScore_snd, givesCheckTrial_snd.
  apply manualRestore_spec; auto using wf_executeMoveInternal.
  - intros r c Hv Hk Hc.
    destruct (executed_king s m _ _ Hwf Hshape Hv Hno Hk Hc)
      as [(-> & -> & _) | (_ & _ & Heq)]; auto.
  - destruct (meta_executeMoveInternal m QUEEN s) as (_ & _ & _ & _ & Hwk & Hbk & _).
    cbv zeta in Hwk, Hbk. unfold flagsGrow. rewrite Hwk, Hbk.
    split; intros ->; reflexivity.
Qed.

Lemma okMove_rescored S m0 m : rescored m0 m -> okMove S m0 -> okMove S m.
Proof. intros <-. exact (fun H => H). Qed.

Lemma orderingScore_rescored m g s : rescored m (fst (fst (orderingScore m g s))).
Proof.
  unfold orderingScore. cbv beta zeta. unfold smallNoise.
  destruct (givesCheckTrial m s). reflexivity.
Qed.

Lemma orderingLoop_spec S l g s :
  Forall (okMove S) l -> wf s -> noNewKings S s ->
  Forall (okMove S) (fst (fst (orderingLoop l g s))) /\
  orderingKeeps s (snd (orderingLoop l g s)).
Proof.
  intros Hl. revert g s.
  induction Hl as [|m l Hm Hl IH]; intros g s Hwf Hn; cbn [orderingLoop].
  - split; [constructor|]. split; [done|]. split; [apply noNewKings_refl|].
    split; [apply flagsGrow_refl | repeat split].
  - pose proof (orderingScore_spec m g s Hwf (proj1 Hm) (okMove_later S s m Hn Hm)) as H1.
    pose proof (orderingScore_rescored m g s) as Hre.
    destruct (orderingScore m g s) as [[m' g1] s1]. cbn [fst snd] in *.
    destruct H1 as (Hwf1 & Hn1 & Hrest1).
    destruct (IH g1 s1 Hwf1 (noNewKings_trans _ _ _ Hn Hn1)) as [Hok H2].
    destruct (orderingLoop l g1 s1) as [[l' g2] s2]. cbn [fst snd] in *.
    split.
    + constructor; [eapply okMove_rescored; eauto | done].
    + eapply orderingKeeps_trans; [| exact H2]. split; auto.
Qed.

Lemma searchKeeps_refl s : wf s -> searchKeeps s s.
Proof. intros. split; [done|]. split; [apply sameMeta_refl | apply noNewKings_refl]. Qed.

Lemma searchKeeps_trans s1 s2 s3 :
  searchKeeps s1 s2 -> searchKeeps s2 s3 -> searchKeeps s1 s3.
Proof.
  intros (?&?&?) (?&?&?). split; [done|].
  split; [eapply sameMeta_trans | eapply noNewKings_trans]; eauto.
Qed.

Section Search.

Variable rec : Z -> Z -> bool -> GameState -> Z * GameState.
Hypothesis rec_keeps : forall alpha beta mx s,
  wf s -> kingsHome s -> searchKeeps s (snd (rec alpha beta mx s)).

Variable S : GameState.
Hypothesis S_home : kingsHome S.

Lemma trial_keeps (f : GameState -> Z * GameState) m s :
  (forall s1, wf s1 -> kingsHome s1 -> searchKeeps s1 (snd (f s1))) ->
  okMove S m -> wf s -> noNewKings S s -> flagsGrow S s ->
  searchKeeps s (snd (searchTrial f m s)).
Proof.
  intros Hf Hm Hwf Hn Hfl.
  apply searchTrial_spec; auto.
  - apply Hm.
  - eapply okMove_later; eauto.
  - cbv zeta.
    destruct (Hf (executeMoveInternal m QUEEN s)) as (Hw & Hmeta & Hk).
    + now apply wf_executeMoveInternal.
    + apply kingsHome_executeMoveInternal; [done | apply Hm |].
      eapply kingsHome_derived; eauto.
    + split; [done|]. split; [done|]. apply Hmeta.
Qed.

Lemma maxLoop_keeps l alpha beta e s :
  Forall (okMove S) l -> wf s -> noNewKings S s -> flagsGrow S s ->
  searchKeeps s (snd (maxLoop rec l alpha beta e s)).
Proof.
  intros Hl. revert alpha beta e s.
  induction Hl as [|m l Hm Hl IH]; intros alpha beta e s Hwf Hn Hfl; cbn [maxLoop].
  - now apply searchKeeps_refl.
  - pose proof (trial_keeps (rec alpha beta false) m s
                  (rec_keeps alpha beta false) Hm Hwf Hn Hfl) as H1.
    destruct (searchTrial _ m s) as [ev s1]. cbn [snd] in H1.
    destruct (beta <=? Z.max alpha ev); [exact H1|].
    eapply searchKeeps_trans; [exact H1|].
    destruct H1 as (Hwf1 & Hmeta1 & Hn1).
    apply IH; [done | eapply noNewKings_trans; eauto |].
    eapply flagsGrow_trans; [exact Hfl | now apply sameMeta_flagsGrow].
Qed.

Lemma minLoop_keeps l alpha beta e s :
  Forall (okMove S) l -> wf s -> noNewKings S s -> flagsGrow S s ->
  searchKeeps s (snd (minLoop rec l alpha beta e s)).
Proof.
  intros Hl. revert alpha beta e s.
  induction Hl as [|m l Hm Hl IH]; intros alpha beta e s Hwf Hn Hfl; cbn [minLoop].
  - now apply searchKeeps_refl.
  - pose proof (trial_keeps (rec alpha beta true) m s
                  (rec_keeps alpha beta true) Hm Hwf Hn Hfl) as H1.
    destruct (searchTrial _ m s) as [ev s1]. cbn [snd] in H1.
    destruct (Z.min beta ev <=? alpha); [exact H1|].
    eapply searchKeeps_trans; [exact H1|].
    destruct H1 as (Hwf1 & Hmeta1 & Hn1).
    apply IH; [done | eapply noNewKings_trans; eauto |].
    eapply flagsGrow_trans; [exact Hfl | now apply sameMeta_flagsGrow].
Qed.

End Search.

Lemma allLegalMoves_ok S : wf S -> kingsHome S -> Forall (okMove S) (allLegalMoves S).
Proof.
  intros Hwf Hk. apply Forall_forall. intros m Hin.
  apply allLegalMoves_In in Hin as (r & c & Hin).
  pose proof Hin as Hspec.
  apply list_elem_of_In, legalMoves_spec in Hspec as (Hv & _ & _ & _ & _ & Hps).
  split; [eapply pseudoSpec_moveShape; eauto|].
  intros (Hc & Hking). eapply castling_corner_no_king; eauto.
Qed.

Lemma minimax_S d alpha beta mx s :
  minimax (S d) alpha beta mx s =
    let '(allMoves, s) := collectAllMoves s in
    match allMoves with
    | [] =>
        (if isInCheck s (currentPlayer s)
         then (if mx then -999999 else 999999)
         else 0, s)
    | _ :: _ =>
        if mx
        then maxLoop (minimax d) allMoves alpha beta (-999999) s
        else minLoop (minimax d) allMoves alpha beta 999999 s
    end.
Proof. reflexivity. Qed.

Lemma minimax_keeps depth alpha beta mx s :
  wf s -> kingsHome s -> searchKeeps s (snd (minimax depth alpha beta mx s)).
Proof.
  revert alpha beta mx s.
  induction depth as [|d IH]; intros alpha beta mx s Hwf Hk.
  - now apply searchKeeps_refl.
  - rewrite minimax_S, collectAllMoves_eq by done.
    pose proof (allLegalMoves_ok s Hwf Hk) as Hok.
    destruct (allLegalMoves s) as [|m0 l]; [now apply searchKeeps_refl|].
    destruct mx.
    + apply (maxLoop_keeps (minimax d) IH s Hk); auto using noNewKings_refl, flagsGrow_refl.
    + apply (minLoop_keeps (minimax d) IH s Hk); auto using noNewKings_refl, flagsGrow_refl.
Qed.

Lemma bestLoop_keeps S depth l best bs g s :
  kingsHome S ->
  Forall (okMove S) l -> wf s -> noNewKings S s -> flagsGrow S s ->
  searchKeeps s (snd (bestLoop depth l best bs g s)).
Proof.
  intros HS Hl. revert best bs g s.
  induction Hl as [|m l Hm Hl IH]; intros best bs g s Hwf Hn Hfl; cbn [bestLoop].
  - now apply searchKeeps_refl.
  - cbv zeta.
    pose proof (trial_keeps S HS
      (fun s0 => minimax depth (-999999) 999999 (bool_decide (currentPlayer s0 = BLACK)) s0)
      m s) as H1.
    destruct (searchTrial _ m s) as [sc s1]. cbn [snd] in H1.
    specialize (H1 (fun s1 Hw Hh => minimax_keeps _ _ _ _ s1 Hw Hh) Hm Hwf Hn Hfl).
    match goal with
    | |- context [let '(better, g0) := ?e in _] => destruct e as [better g1]
    end.
    assert (Hnext : forall b' bs', searchKeeps s (snd (bestLoop depth l b' bs' g1 s1))).
    { intros b' bs'. eapply searchKeeps_trans; [exact H1|].
      destruct H1 as (Hwf1 & Hmeta1 & Hn1).
      apply IH; [done | eapply noNewKings_trans; eauto |].
      eapply flagsGrow_trans; [exact Hfl | now apply sameMeta_flagsGrow]. }
    destruct better; apply Hnext.
Qed.

Lemma sortByScore_Forall (P : Move -> Prop) l : Forall P l -> Forall P (sortByScore l).
Proof.
  rewrite !Forall_forall. intros H x Hin. apply H. now apply sortByScore_In.
Qed.

Lemma getBestMove_keeps depth g s m g' s' :
  Inv s -> getBestMove depth g s = Some (m, g', s') -> Inv s'.
Proof.
  intros (Hwf & Hep & Hk). unfold getBestMove.
  rewrite collectAllMoves_eq by done.
  pose proof (allLegalMoves_ok s Hwf Hk) as Hok.
  destruct (allLegalMoves s) as [|m0 l].
  { intros [= <- <- <-]. split; [done|]. split; done. }
  destruct (depth <=? 0); [discriminate|].
  destruct (orderingLoop_spec s (m0 :: l) g s Hok Hwf (noNewKings_refl s))
    as [Hok1 (Hwf1 & Hn1 & Hfl1 & Hp1 & Hc1 & Hr1)].
  destruct (orderingLoop (m0 :: l) g s) as [[ordered g1] s1]. cbn [fst snd] in *.
  set (sorted := sortByScore ordered).
  set (bs := if bool_decide (currentPlayer s1 = WHITE) then -999999 else 999999).
  pose proof (bestLoop_keeps s (Z.to_nat (depth - 1)) sorted (hd noMove sorted) bs g1 s1
                Hk (sortByScore_Forall _ _ Hok1) Hwf1 Hn1 Hfl1)
    as (Hwf2 & Hmeta2 & Hn2).
  destruct (bestLoop _ sorted _ bs g1 s1) as [[mb g2] s2]. cbn [snd] in *.
  intros [= <- <- <-].
  split; [done|]. split.
  - unfold enPassantOk in *. destruct Hmeta2 as (_&_&_&_&_&_&_&_&Hr2&_).
    rewrite Hr2, Hr1. exact Hep.
  - apply (kingsHome_derived s); [done | |].
    + eapply noNewKings_trans; eauto.
    + eapply flagsGrow_trans; [exact Hfl1 | now apply sameMeta_flagsGrow].
Qed.

Lemma makeMove_keeps fr fc tr tc s :
  Inv s -> Inv (snd (makeMove fr fc tr tc QUEEN s)).
Proof.
  intros (Hwf & Hep & Hk).
  destruct (makeMove fr fc tr tc QUEEN s) as [ok s'] eqn:Hm. cbn [snd].
  destruct ok.
  - pose proof (makeMove_enPassant_target s fr fc tr tc QUEEN s' Hwf Hm) as (_ & Hr & _).
    cbv zeta in Hr.
    assert (Hrows : bool_decide (type (at_ s fr fc) = PAWN) && (Z.abs (fr - tr) =? 2) = true
                    -> (fr = 6 /\ tr = 4) \/ (fr = 1 /\ tr = 3)).
    { intros Hd. apply andb_true_iff in Hd as [Ht%bool_decide_eq_true Ha%Z.eqb_eq].
      destruct (makeMove_Some _ _ _ _ _ _ _ Hwf Hm) as (mv & Hin & <- & <- & _).
      apply legalMoves_spec in Hin as (Hv & _ & _ & _ & _ & Hps).
      destruct Hps as [_ Hplain _ _ _ Hpawn].
      destruct (Hpawn Ht) as (Hcas & _ & Hrows).
      destruct (Hplain Hcas) as (Hfr & _). rewrite Hfr in Hrows.
      destruct (Hrows Ha) as [? _]. done. }
    destruct (makeMove_Some _ _ _ _ _ _ _ Hwf Hm) as (mv & Hin & _ & _ & ->).
    apply legalMoves_spec in Hin as (Hv & _ & _ & _ & _ & Hps).
    split; [now apply wf_executeMoveInternal|]. split.
    + unfold enPassantOk in *. rewrite Hr.
      destruct (_ && _); [| done].
      destruct Hrows as [[-> ->] | [-> ->]]; [done | | ]; vm_compute; auto.
    + apply kingsHome_executeMoveInternal; auto.
      eapply pseudoSpec_moveShape; eauto.
  - rewrite makeMove_eq in Hm by done.
    destruct (matchingMove _ _ _); [discriminate|].
    injection Hm as <-. split; [done|]. split; done.
Qed.

Lemma Inv_initial : Inv initializeBoard.
Proof.
  split; [reflexivity|]. split; [left; reflexivity | apply kingsHome_initial].
Qed.

Lemma reachable_Inv s : reachable s -> Inv s.
Proof.
  induction 1 as [| s fr fc tr tc _ IH | s depth g m g' s' _ IH Hbest].
  - exact Inv_initial.
  - now apply makeMove_keeps.
  - eapply getBestMove_keeps; eauto.
Qed.

(** *** The attack oracle reads the board only *)
Lemma at_board s s' r c : board s = board s' -> at_ s r c = at_ s' r c.
Proof. intros H. unfold at_. now rewrite H. Qed.

Lemma stepMoves_board s s' row col offsets moves :
  board s = board s' -> stepMoves s row col offsets moves = stepMoves s' row col offsets moves.
Proof. intros H. unfold stepMoves, at_. now rewrite H. Qed.

Lemma slideRay_board s s' row col dr dc dists moves :
  board s = board s' ->
  slideRay s row col dr dc dists moves = slideRay s' row col dr dc dists moves.
Proof.
  intros H. revert moves.
  induction dists as [|d dists IH]; intros moves; cbn [slideRay]; [done|].
  rewrite !(at_board s s') by done. now rewrite !IH.
Qed.

Lemma getSlidingMoves_board s s' row col directions moves :
  board s = board s' ->
  getSlidingMoves s row col directions moves = getSlidingMoves s' row col directions moves.
Proof.
  intros H. unfold getSlidingMoves. revert moves.
  induction directions as [|d ds IH]; intros moves; cbn [fold_left]; [done|].
  now rewrite (slideRay_board s s'), IH.
Qed.

Lemma castlingMoves_existsb s p moves (P : Move -> bool) :
  (forall m, isCastling m = true -> P m = false) ->
  existsb P (castlingMoves s p moves) = existsb P moves.
Proof.
  intros HP. unfold castlingMoves.
  repeat match goal with
  | |- context [if ?b then _ else _] => destruct b
  end; rewrite ?existsb_app; cbn [existsb];
    rewrite ?HP by reflexivity; cbn [orb]; rewrite ?orb_false_r; reflexivity.
Qed.

Lemma attackers_board s s' r c (P : Move -> bool) :
  board s = board s' ->
  (forall m, isCastling m = true -> P m = false) ->
  type (at_ s r c) <> PAWN ->
  existsb P (getPseudoLegalMoves s r c) = existsb P (getPseudoLegalMoves s' r c).
Proof.
  intros H HP Hnp. unfold getPseudoLegalMoves.
  rewrite <- (at_board s s') by done.
  destruct (type (at_ s r c)); [reflexivity | exfalso; now apply Hnp | ..].
  - unfold getKnightMoves. now rewrite (stepMoves_board s s').
  - unfold getBishopMoves. now rewrite (getSlidingMoves_board s s').
  - unfold getRookMoves. now rewrite (getSlidingMoves_board s s').
  - unfold getQueenMoves. now rewrite (getSlidingMoves_board s s').
  - unfold getKingMoves. rewrite !castlingMoves_existsb by done.
    now rewrite (stepMoves_board s s').
Qed.

Lemma existsb_ext_in {A} (f g : A -> bool) l :
  (forall x, In x l -> f x = g x) -> existsb f l = existsb g l.
Proof.
  induction l as [|x l IH]; intros H; cbn [existsb]; [done|].
  rewrite H by (now left). rewrite IH; [done|]. intros y Hy. apply H. now right.
Qed.

Lemma isSquareAttacked_board s s' row col a :
  board s = board s' -> isSquareAttacked s row col a = isSquareAttacked s' row col a.
Proof.
  intros H. unfold isSquareAttacked. apply existsb_ext_in. intros [r c] _.
  cbn [fst snd]. rewrite <- (at_board s s') by done.
  destruct (_ && _); [| done].
  destruct (bool_decide (type (at_ s r c) = PAWN)) eqn:Hp; [done|].
  apply bool_decide_eq_false in Hp.
  apply attackers_board; [done | | done].
  intros m ->. now rewrite andb_false_r.
Qed.

Lemma findKing_board s s' c : board s = board s' -> findKing s c = findKing s' c.
Proof. intros H. unfold findKing, at_. now rewrite H. Qed.

Lemma isInCheck_board s s' c : board s = board s' -> isInCheck s c = isInCheck s' c.
Proof.
  intros H. unfold isInCheck. rewrite (findKing_board s s') by done.
  destruct (findKing s' c) as [[kr kc]|]; [| done].
  now apply isSquareAttacked_board.
Qed.

(** What a legal castling move of the code does guarantee. *)
Lemma castling_legal_requirements s r c m :
  wf s -> In m (legalMoves s r c) -> isCastling m = true ->
  type (at_ s r c) = KING /\ color (at_ s r c) = currentPlayer s /\
  castlingShape s (currentPlayer s) m /\
  isInCheck (trialPosition m s) (currentPlayer s) = false.
Proof.
  intros Hwf Hin Hc.
  apply list_elem_of_In, legalMoves_spec in Hin as (Hv & _ & Hcol & _ & Hlegal & Hps).
  destruct Hps as [_ _ Hcastle _ _ _].
  destruct (Hcastle Hc) as (Hk & _ & _ & Hshape).
  rewrite Hcol in Hshape.
  unfold legalNow in Hlegal. apply negb_true_iff in Hlegal. auto.
Qed.

Lemma reachable_wf s : reachable s -> wf s.
Proof. intros H. apply reachable_Inv in H. apply H. Qed.

Lemma reachable_playMoves moves s : reachable s -> reachable (snd (playMoves moves s)).
Proof.
  unfold playMoves. intros Hs.
  assert (H : forall acc, reachable (snd acc) ->
            reachable (snd (fold_left
              (fun acc mv => let '(fr, fc, tr, tc) := mv in
                 let '(ok, s') := makeMove fr fc tr tc QUEEN (snd acc) in
                 (fst acc ++ [ok], s')) moves acc))).
  { induction moves as [|[[[fr fc] tr] tc] moves IH]; intros acc Hacc; cbn [fold_left];
      [done|].
    apply IH.
    pose proof (reachable_makeMove (snd acc) fr fc tr tc Hacc) as Hn.
    destruct (makeMove fr fc tr tc QUEEN (snd acc)). exact Hn. }
  apply H. exact Hs.
Qed.

(** C1 (code defect). [getBestMove] does not leave the state as it found
    it.  Searching the starting position at depth 1 leaves the a-pawn, and
    every other piece that has a legal move, marked [hasMoved].  Searching
    the position after 1.e4 e5 2.Nf3 Nc6 3.Bc4 Bc5 at depth 1 leaves
    [whiteKingMoved] set and removes the rook of h1 from the board
    (square 7,7 read through [getPiece]: 14 before, 0 after). *)
Theorem getBestMove_leaks_trial_moves :
  match getBestMove 1 [] initializeBoard with
  | Some (_, _, s') =>
      s' <> initializeBoard /\
      at_ initializeBoard 6 0 = mkPiece PAWN WHITE false /\
      at_ s' 6 0 = mkPiece PAWN WHITE true
  | None => False
  end /\
  fst castlingReady = [true; true; true; true; true; true] /\
  match getBestMove 1 [] (snd castlingReady) with
  | Some (_, _, s') =>
      whiteKingMoved (snd castlingReady) = false /\ whiteKingMoved s' = true /\
      getPiece (snd castlingReady) 7 7 = 14 /\ getPiece s' 7 7 = 0
  | None => False
  end.
Proof.
  split; [| split].
  - vm_compute. split; [discriminate | split; reflexivity].
  - vm_compute. reflexivity.
  - vm_compute. repeat split.
Qed.

(** C2. For every reachable state and every move that the pseudo-legal
    generator produces for a square of the board, [isLegalMove] leaves the
    state exactly as it was, and (the moving piece being of the side to
    move) it returns [false] exactly when, in the position it has tried,
    the first king of the moving side is on a square attacked by the
    opponent. *)
Theorem isLegalMove_frame (s : GameState) (row col : Z) (move : Move) :
  reachable s -> isValidPosition row col = true ->
  In move (getPseudoLegalMoves s row col) ->
  snd (isLegalMove move s) = s /\
  (color (at_ s row col) = currentPlayer s ->
   (fst (isLegalMove move s) = false <->
    exists kingRow kingCol,
      findKing (trialPosition move s) (color (at_ s row col)) = Some (kingRow, kingCol) /\
      isSquareAttacked (trialPosition move s) kingRow kingCol
        (opponent (color (at_ s row col))) = true)).
Proof. intros Hr. apply isLegalMove_frame_wf. now apply reachable_wf. Qed.

Lemma isLegalMove_frame_witness :
  snd (isLegalMove (mkMove 6 4 4 4 false false false false 0) initializeBoard)
  = initializeBoard.
Proof.
  apply (isLegalMove_frame initializeBoard 6 4).
  - apply reachable_init.
  - reflexivity.
  - vm_compute. tauto.
Defined.

(** C3 (code defect). [getKingMoves] of this revision tests neither check
    nor the squares the king crosses.  After 1.e4 e5 2.Nf3 Nc6 3.Bc4 Bc5
    4.d3 Bb4+ White is in check and castling is in the legal-move list of
    the king's square, and [makeMove] carries it out; after 1.g3 b6 2.Bg2
    Ba6 3.e4 Nc6 4.Nf3 Nf6 the square f1 that the king crosses is attacked
    and castling is in the list. *)
Theorem castling_listed_in_check_and_through_attack :
  (fst checkedBeforeCastling = [true; true; true; true; true; true; true; true] /\
   isInCheck (snd checkedBeforeCastling) WHITE = true /\
   In castleKingside (fst (getLegalMoves 7 4 (snd checkedBeforeCastling))) /\
   fst (makeMove 7 4 7 6 QUEEN (snd checkedBeforeCastling)) = true) /\
  (fst attackedTransit = [true; true; true; true; true; true; true; true] /\
   isInCheck (snd attackedTransit) WHITE = false /\
   isSquareAttacked (snd attackedTransit) 7 5 BLACK = true /\
   In castleKingside (fst (getLegalMoves 7 4 (snd attackedTransit)))).
Proof.
  split.
  - vm_compute. repeat split. tauto.
  - vm_compute. repeat split. tauto.
Qed.

(** C4 (code defect). After 1.e4 the en-passant target is the midpoint
    (5,4); after the reply Nf6, which is no pawn move, the column is reset
    to -1 but the row still holds 5: line 418 resets [enPassantCol] only. *)
Theorem enPassantRow_survives_unrelated_move :
  let s1 := snd (makeMove 6 4 4 4 QUEEN initializeBoard) in
  let s2 := snd (makeMove 0 6 2 5 QUEEN s1) in
  fst (makeMove 6 4 4 4 QUEEN initializeBoard) = true /\
  (enPassantRow s1, enPassantCol s1) = (5, 4) /\
  fst (makeMove 0 6 2 5 QUEEN s1) = true /\
  (enPassantRow s2, enPassantCol s2) = (5, -1).
Proof. vm_compute. repeat split. Qed.

(** C5. For every reachable state and any four coordinates, [makeMove]
    returns [true] exactly when the legal-move list of the from-square has
    a move to the to-square, and when it returns [false] the state is
    unchanged. *)
Theorem makeMove_iff_legal (s : GameState) (fromRow_ fromCol_ toRow_ toCol_ : Z)
    (promotionPiece : PieceType) :
  reachable s ->
  (fst (makeMove fromRow_ fromCol_ toRow_ toCol_ promotionPiece s) = true <->
   exists move, In move (fst (getLegalMoves fromRow_ fromCol_ s)) /\
                toRow move = toRow_ /\ toCol move = toCol_) /\
  (fst (makeMove fromRow_ fromCol_ toRow_ toCol_ promotionPiece s) = false ->
   snd (makeMove fromRow_ fromCol_ toRow_ toCol_ promotionPiece s) = s).
Proof. intros Hr. apply makeMove_iff_legal_wf. now apply reachable_wf. Qed.

Lemma makeMove_iff_legal_witness :
  fst (makeMove 6 4 3 4 QUEEN initializeBoard) = false /\
  snd (makeMove 6 4 3 4 QUEEN initializeBoard) = initializeBoard.
Proof.
  split; [vm_compute; reflexivity|].
  apply (makeMove_iff_legal initializeBoard 6 4 3 4 QUEEN).
  - apply reachable_init.
  - vm_compute. reflexivity.
Defined.

(** C6. In the starting position the legal-move lists of the 64 squares
    hold 20 moves together, 16 of pawns and 4 of knights, none of them
    castling. *)
Theorem initial_position_has_twenty_moves :
  let all := flat_map (fun rc => fst (getLegalMoves (fst rc) (snd rc) initializeBoard))
                      squares in
  let movedType m := type (at_ initializeBoard (fromRow m) (fromCol m)) in
  currentPlayer initializeBoard = WHITE /\
  length all = 20%nat /\
  length (filter (fun m => movedType m = PAWN) all) = 16%nat /\
  length (filter (fun m => movedType m = KNIGHT) all) = 4%nat /\
  Forall (fun m => isCastling m = false) all.
Proof.
  vm_compute. repeat split. repeat constructor.
Qed.

(** C7. For every reachable state and every positive depth, [getBestMove]
    returns; its move is the sentinel with all four coordinates -1 exactly
    when no square has a legal move, and otherwise its destination is the
    destination of a move in the legal-move list that the state of the
    call gives for its from-square. *)
Theorem getBestMove_returns_legal_move (s : GameState) (depth : Z) (g : Rng) :
  reachable s -> 0 < depth ->
  exists m g' s', getBestMove depth g s = Some (m, g', s') /\
    (isNoMove m <-> forall r c, fst (getLegalMoves r c s) = []) /\
    (~ isNoMove m ->
     exists m', In m' (fst (getLegalMoves (fromRow m) (fromCol m) s)) /\
                toRow m' = toRow m /\ toCol m' = toCol m).
Proof.
  intros Hr Hd. apply reachable_Inv in Hr as (Hwf & _ & Hk).
  now apply getBestMove_sound_inv.
Qed.

Lemma getBestMove_returns_legal_move_witness :
  exists m g' s', getBestMove 1 [] initializeBoard = Some (m, g', s') /\
    (isNoMove m <-> forall r c, fst (getLegalMoves r c initializeBoard) = []) /\
    (~ isNoMove m ->
     exists m', In m' (fst (getLegalMoves (fromRow m) (fromCol m) initializeBoard)) /\
                toRow m' = toRow m /\ toCol m' = toCol m).
Proof.
  apply (getBestMove_returns_legal_move initializeBoard 1 []).
  - apply reachable_init.
  - lia.
Defined.

(** C8. [evaluateBoard] is 0 on the starting position, and with Black's
    queen taken off square (0,3) it is at least 900, the queen's value,
    higher. *)
Theorem evaluateBoard_initial_and_queen_odds :
  evaluateBoard initializeBoard = 0 /\
  pieceValues QUEEN = 900 /\
  evaluateBoard (put 0 3 emptyPiece initializeBoard)
    >= evaluateBoard initializeBoard + pieceValues QUEEN.
Proof. vm_compute. repeat split; discriminate. Qed.

(** C9. The boundary's [makeMove] takes four coordinates and passes the
    default [QUEEN]: in every reachable state, when it moves a pawn to
    row 0 or row 7, the pawn is of the side to move and the destination
    then holds a queen of that side. *)
Theorem boundary_promotion_is_queen (s s' : GameState) (fr fc tr tc : Z) :
  reachable s ->
  Boundary.makeMove (Some s) fr fc tr tc = (true, Some s') ->
  type (at_ s fr fc) = PAWN -> tr = 0 \/ tr = 7 ->
  color (at_ s fr fc) = currentPlayer s /\
  at_ s' tr tc = mkPiece QUEEN (currentPlayer s) true.
Proof.
  intros Hr. apply reachable_Inv in Hr as (Hwf & Hep & _).
  now apply boundary_promotion_inv.
Qed.

Lemma boundary_promotion_is_queen_witness :
  color (at_ (snd beforePromotion) 1 0) = currentPlayer (snd beforePromotion) /\
  at_ (snd (makeMove 1 0 0 0 QUEEN (snd beforePromotion))) 0 0
    = mkPiece QUEEN (currentPlayer (snd beforePromotion)) true.
Proof.
  apply (boundary_promotion_is_queen (snd beforePromotion)
           (snd (makeMove 1 0 0 0 QUEEN (snd beforePromotion))) 1 0 0 0).
  - apply reachable_playMoves, reachable_init.
  - vm_compute. reflexivity.
  - vm_compute. reflexivity.
  - left. reflexivity.
Defined.

(** C10. [isSquareAttacked] and [isInCheck] assign to no member (the
    embedding gives them no result state), and their value is a function
    of the board alone: two states with equal boards, and so two equal
    states, give equal answers for every square and colour. *)
Theorem attack_queries_are_pure (s s' : GameState) (row col : Z) (c : Color) :
  board s = board s' ->
  isSquareAttacked s row col c = isSquareAttacked s' row col c /\
  isInCheck s c = isInCheck s' c.
Proof.
  intros H. split; [now apply isSquareAttacked_board | now apply isInCheck_board].
Qed.

Lemma attack_queries_are_pure_witness :
  isSquareAttacked initializeBoard 5 4 WHITE
    = isSquareAttacked (withPlayer initializeBoard BLACK) 5 4 WHITE /\
  isInCheck initializeBoard WHITE = isInCheck (withPlayer initializeBoard BLACK) WHITE.
Proof.
  apply (attack_queries_are_pure initializeBoard (withPlayer initializeBoard BLACK)).
  reflexivity.
Defined.

(** *** Castling flags through the executor and the search *)
Lemma castlingFlagsGrow_refl s : castlingFlagsGrow s s.
Proof. unfold castlingFlagsGrow. tauto. Qed.

Lemma castlingFlagsGrow_trans s1 s2 s3 :
  castlingFlagsGrow s1 s2 -> castlingFlagsGrow s2 s3 -> castlingFlagsGrow s1 s3.
Proof. unfold castlingFlagsGrow. tauto. Qed.

Lemma sameMeta_castlingFlagsGrow s s' : sameMeta s s' -> castlingFlagsGrow s s'.
Proof.
  intros (_ & H1 & H2 & H3 & H4 & H5 & H6 & _). unfold castlingFlagsGrow.
  rewrite H1, H2, H3, H4, H5, H6. tauto.
Qed.

Lemma executeMoveInternal_flags m q s : castlingFlagsGrow s (executeMoveInternal m q s).
Proof.
  pose proof (meta_executeMoveInternal m q s) as H. cbv zeta in H.
  destruct H as (_ & _ & _ & _ & H1 & H2 & H3 & H4 & H5 & H6).
  unfold castlingFlagsGrow. rewrite H1, H2, H3, H4, H5, H6.
  repeat split; intros ->; reflexivity.
Qed.

Lemma manualRestore_flags m s s1 :
  whiteKingMoved (manualRestore m s s1) = whiteKingMoved s1 /\
  blackKingMoved (manualRestore m s s1) = blackKingMoved s1 /\
  whiteRookAMoved (manualRestore m s s1) = whiteRookAMoved s1 /\
  whiteRookHMoved (manualRestore m s s1) = whiteRookHMoved s1 /\
  blackRookAMoved (manualRestore m s s1) = blackRookAMoved s1 /\
  blackRookHMoved (manualRestore m s s1) = blackRookHMoved s1.
Proof.
  unfold manualRestore. destruct (isEnPassant m); autorewrite with game; tauto.
Qed.

Lemma orderingScore_flags m g s : castlingFlagsGrow s (snd (orderingScore m g s)).
Proof.
  rewrite orderingScore_snd, givesCheckTrial_snd.
  pose proof (manualRestore_flags m s (executeMoveInternal m QUEEN s))
    as (H1 & H2 & H3 & H4 & H5 & H6).
  pose proof (executeMoveInternal_flags m QUEEN s) as H.
  unfold castlingFlagsGrow in *. rewrite H1, H2, H3, H4, H5, H6. exact H.
Qed.

Lemma orderingLoop_flags l g s : castlingFlagsGrow s (snd (orderingLoop l g s)).
Proof.
  revert g s. induction l as [|m l IH]; intros g s; cbn [orderingLoop].
  - apply castlingFlagsGrow_refl.
  - pose proof (orderingScore_flags m g s) as H1.
    destruct (orderingScore m g s) as [[m' g1] s1]. cbn [snd] in H1.
    specialize (IH g1 s1).
    destruct (orderingLoop l g1 s1) as [[l' g2] s2]. cbn [snd] in *.
    eapply castlingFlagsGrow_trans; eauto.
Qed.

(** What [getBestMove] keeps of the state it is called on. *)
Lemma getBestMove_meta depth g s m g' s' :
  wf s -> kingsHome s -> getBestMove depth g s = Some (m, g', s') ->
  wf s' /\ currentPlayer s' = currentPlayer s /\
  enPassantCol s' = enPassantCol s /\ enPassantRow s' = enPassantRow s /\
  moveHistory s' = moveHistory s /\
  castlingFlagsGrow s s' /\ noNewKings s s'.
Proof.
  intros Hwf Hk. unfold getBestMove.
  rewrite collectAllMoves_eq by done.
  pose proof (allLegalMoves_ok s Hwf Hk) as Hok.
  destruct (allLegalMoves s) as [|m0 l].
  { intros [= <- <- <-]. repeat split; auto using castlingFlagsGrow_refl.
    all: try (intros H; exact H). all: try apply noNewKings_refl. }
  destruct (depth <=? 0); [discriminate|].
  destruct (orderingLoop_spec s (m0 :: l) g s Hok Hwf (noNewKings_refl s))
    as [Hok1 (Hwf1 & Hn1 & Hfl1 & Hp1 & Hc1 & Hr1)].
  pose proof (orderingLoop_flags (m0 :: l) g s) as Hcf1.
  assert (Hh1 : moveHistory (snd (orderingLoop (m0 :: l) g s)) = moveHistory s).
  { clear. generalize (m0 :: l). intros l0. revert g s.
    induction l0 as [|m1 l1 IH]; intros g s; cbn [orderingLoop]; [reflexivity|].
    rename m1 into m.
    assert (H1 : moveHistory (snd (orderingScore m g s)) = moveHistory s).
    { rewrite orderingScore_snd, givesCheckTrial_snd. unfold manualRestore.
      pose proof (meta_executeMoveInternal m QUEEN s) as H. cbv zeta in H.
      destruct H as (_ & H & _).
      destruct (isEnPassant m); autorewrite with game; exact H. }
    destruct (orderingScore m g s) as [[m' g1] s1]. cbn [snd] in H1.
    specialize (IH g1 s1).
    destruct (orderingLoop l1 g1 s1) as [[l' g2] s2]. cbn [snd] in *. congruence. }
  destruct (orderingLoop (m0 :: l) g s) as [[ordered g1] s1]. cbn [fst snd] in *.
  set (sorted := sortByScore ordered).
  set (bs := if bool_decide (currentPlayer s1 = WHITE) then -999999 else 999999).
  pose proof (bestLoop_keeps s (Z.to_nat (depth - 1)) sorted (hd noMove sorted) bs g1 s1
                Hk (sortByScore_Forall _ _ Hok1) Hwf1 Hn1 Hfl1)
    as (Hwf2 & Hmeta2 & Hn2).
  destruct (bestLoop _ sorted _ bs g1 s1) as [[mb g2] s2]. cbn [snd] in *.
  intros [= <- <- <-].
  pose proof (sameMeta_castlingFlagsGrow _ _ Hmeta2) as Hcf2.
  destruct Hmeta2 as (Hp2 & _ & _ & _ & _ & _ & _ & Hc2 & Hr2 & Hh2).
  split; [done|]. split; [congruence|]. split; [congruence|]. split; [congruence|].
  split; [congruence|].
  split; [eapply castlingFlagsGrow_trans; eauto | eapply noNewKings_trans; eauto].
Qed.

Lemma makeMove_flags fr fc tr tc q s :
  wf s -> castlingFlagsGrow s (snd (makeMove fr fc tr tc q s)).
Proof.
  intros Hwf. rewrite makeMove_eq by done.
  destruct (matchingMove _ _ _); cbn [snd].
  - apply executeMoveInternal_flags.
  - apply castlingFlagsGrow_refl.
Qed.

Lemma boundaryStep_reachable s s' : reachable s -> boundaryStep s s' -> reachable s'.
Proof.
  intros Hr Hs. destruct Hs.
  - now apply reachable_makeMove.
  - eapply reachable_getBestMove; eauto.
Qed.

Lemma laterState_reachable s s' : reachable s -> laterState s s' -> reachable s'.
Proof.
  intros Hr Hl. induction Hl as [|s1 s2 s3 Hs _ IH]; [done|].
  apply IH. eapply boundaryStep_reachable; eauto.
Qed.

Lemma boundaryStep_flags s s' :
  reachable s -> boundaryStep s s' -> castlingFlagsGrow s s'.
Proof.
  intros Hr Hs. apply reachable_Inv in Hr as (Hwf & _ & Hk). destruct Hs.
  - now apply makeMove_flags.
  - eapply getBestMove_meta; eauto.
Qed.

Lemma laterState_flags s s' :
  reachable s -> laterState s s' -> castlingFlagsGrow s s'.
Proof.
  intros Hr Hl. induction Hl as [|s1 s2 s3 Hs _ IH].
  - apply castlingFlagsGrow_refl.
  - eapply castlingFlagsGrow_trans; [eapply boundaryStep_flags; eauto|].
    apply IH. eapply boundaryStep_reachable; eauto.
Qed.

(** *** The side to move *)
Lemma reachable_player s :
  reachable s -> currentPlayer s = WHITE \/ currentPlayer s = BLACK.
Proof.
  induction 1 as [| s fr fc tr tc Hr IH | s depth g m g' s' Hr IH Hbest].
  - now left.
  - pose proof (reachable_wf _ Hr) as Hwf.
    rewrite makeMove_eq by done.
    destruct (matchingMove _ _ _) as [mv|]; cbn [snd]; [| exact IH].
    pose proof (meta_executeMoveInternal mv QUEEN s) as H. cbv zeta in H.
    destruct H as (-> & _). unfold opponent. case_bool_decide; auto.
  - apply reachable_Inv in Hr as (Hwf & _ & Hk).
    destruct (getBestMove_meta _ _ _ _ _ _ Hwf Hk Hbest) as (_ & -> & _). exact IH.
Qed.

Lemma reachable_enPassantCol s : reachable s -> -1 <= enPassantCol s < 8.
Proof.
  induction 1 as [| s fr fc tr tc Hr IH | s depth g m g' s' Hr IH Hbest].
  - replace (enPassantCol initializeBoard) with (-1) by (vm_compute; reflexivity). lia.
  - pose proof (reachable_wf _ Hr) as Hwf.
    destruct (makeMove fr fc tr tc QUEEN s) as [ok s'] eqn:Hm. cbn [snd].
    destruct ok.
    + pose proof (makeMove_enPassant_target s fr fc tr tc QUEEN s' Hwf Hm) as (Hc & _).
      cbv zeta in Hc. rewrite Hc.
      destruct (makeMove_Some _ _ _ _ _ _ _ Hwf Hm) as (mv & Hin & _).
      apply legalMoves_spec in Hin as (Hv%valid_bounds & _).
      destruct (_ && _); lia.
    + rewrite makeMove_eq in Hm by done.
      destruct (matchingMove _ _ _); [discriminate|]. injection Hm as <-. exact IH.
  - apply reachable_Inv in Hr as (Hwf & _ & Hk).
    destruct (getBestMove_meta _ _ _ _ _ _ Hwf Hk Hbest) as (_ & _ & -> & _). exact IH.
Qed.

(** *** Membership in the generated lists *)
Lemma mayLand_dec s row col r c :
  isValidPosition r c = true ->
  (bool_decide (type (at_ s r c) = EMPTY)
   || bool_decide (color (at_ s r c) <> color (at_ s row col))) = true
  <-> mayLand s row col r c.
Proof.
  intros Hv. unfold mayLand. rewrite orb_true_iff, !bool_decide_eq_true. tauto.
Qed.

Lemma stepMoves_iff s row col offsets moves m :
  In m (stepMoves s row col offsets moves) <->
  In m moves \/
  exists o, In o offsets /\
    mayLand s row col (row + fst o) (col + snd o) /\
    m = landingMove s row col (row + fst o) (col + snd o).
Proof.
  unfold stepMoves. revert moves.
  induction offsets as [|o offsets IH]; intros moves; cbn [fold_left].
  - split; [auto | intros [H | (o & [] & _)]; exact H].
  - rewrite IH. clear IH.
    assert (Htail : forall P : Prop,
      (P <-> mayLand s row col (row + fst o) (col + snd o) /\
             m = landingMove s row col (row + fst o) (col + snd o)) ->
      (In m moves \/ P) \/
      (exists o', In o' offsets /\
         mayLand s row col (row + fst o') (col + snd o') /\
         m = landingMove s row col (row + fst o') (col + snd o')) <->
      In m moves \/
      (exists o', In o' (o :: offsets) /\
         mayLand s row col (row + fst o') (col + snd o') /\
         m = landingMove s row col (row + fst o') (col + snd o'))).
    { intros P HP. split.
      - intros [[H | H] | (o' & Hin & H)].
        + now left.
        + right. exists o. split; [now left | now apply HP].
        + right. exists o'. split; [now right | done].
      - intros [H | (o' & [<- | Hin] & H)].
        + left. now left.
        + left. right. now apply HP.
        + right. exists o'. done. }
    destruct (isValidPosition (row + fst o) (col + snd o)) eqn:Hv.
    + destruct (bool_decide _ || bool_decide _) eqn:Hb.
      * apply mayLand_dec in Hb; [| done].
        rewrite in_app_iff. apply Htail. cbn [In]. split.
        -- intros [<- | []]. split; [exact Hb | reflexivity].
        -- intros [_ ->]. left. reflexivity.
      * assert (Hn : ~ mayLand s row col (row + fst o) (col + snd o)).
        { intros H. apply mayLand_dec in H; [congruence | done]. }
        rewrite <- (Htail False); [tauto|]. tauto.
    + assert (Hn : ~ mayLand s row col (row + fst o) (col + snd o)).
      { intros [H _]. congruence. }
      rewrite <- (Htail False); [tauto|]. tauto.
Qed.

Lemma landingMove_empty s row col r c :
  type (at_ s r c) = EMPTY ->
  landingMove s row col r c = mkMove row col r c false false false false 0.
Proof.
  intros H. unfold landingMove. f_equal. apply bool_decide_eq_false. tauto.
Qed.

Lemma landingMove_capture s row col r c :
  type (at_ s r c) <> EMPTY ->
  landingMove s row col r c = mkMove row col r c true false false false 0.
Proof.
  intros H. unfold landingMove. f_equal. now apply bool_decide_eq_true.
Qed.

(** The inner loop, for any list of distances: the move at a distance is
    produced when every earlier distance of the list met an empty square
    of the board. *)
Lemma slideRay_iff s row col dr dc dists moves m :
  In m (slideRay s row col dr dc dists moves) <->
  In m moves \/
  exists pre k post, dists = pre ++ k :: post /\
    Forall (fun j => isValidPosition (row + dr * j) (col + dc * j) = true /\
                     type (at_ s (row + dr * j) (col + dc * j)) = EMPTY) pre /\
    mayLand s row col (row + dr * k) (col + dc * k) /\
    m = landingMove s row col (row + dr * k) (col + dc * k).
Proof.
  revert moves. induction dists as [|d dists IH]; intros moves; cbn [slideRay].
  - split; [auto | intros [H | (pre & k & post & Heq & _)]; [exact H|]].
    destruct pre; discriminate.
  - cbv zeta.
    set (Q := fun l : list Z => exists pre k post, l = pre ++ k :: post /\
      Forall (fun j => isValidPosition (row + dr * j) (col + dc * j) = true /\
                       type (at_ s (row + dr * j) (col + dc * j)) = EMPTY) pre /\
      mayLand s row col (row + dr * k) (col + dc * k) /\
      m = landingMove s row col (row + dr * k) (col + dc * k)).
    fold (Q (d :: dists)). fold (Q dists) in IH.
    assert (Hsplit : Q (d :: dists) <->
      (mayLand s row col (row + dr * d) (col + dc * d) /\
       m = landingMove s row col (row + dr * d) (col + dc * d)) \/
      ((isValidPosition (row + dr * d) (col + dc * d) = true /\
        type (at_ s (row + dr * d) (col + dc * d)) = EMPTY) /\ Q dists)).
    { unfold Q. split.
      - intros (pre & k & post & Heq & Hpre & Hl & Hm).
        destruct pre as [|d' pre]; cbn [app] in Heq.
        + injection Heq as Hd Hpost. subst k. left. done.
        + injection Heq as Hd Hrest. subst d'. right.
          inversion Hpre as [|? ? Hd Hpre']; subst.
          split; [done|]. exists pre, k, post. done.
      - intros [[Hl Hm] | [Hd (pre & k & post & Heq & Hpre & Hl & Hm)]].
        + exists [], d, dists. split; [done|]. split; [constructor | done].
        + exists (d :: pre), k, post. split; [now rewrite Heq|].
          split; [now constructor | done]. }
    rewrite Hsplit. clear Hsplit.
    destruct (isValidPosition (row + dr * d) (col + dc * d)) eqn:Hv; cbn [negb].
    + case_bool_decide as He.
      * rewrite IH, in_app_iff. cbn [In].
        rewrite (landingMove_empty s row col _ _ He).
        unfold mayLand. rewrite Hv. intuition.
      * case_bool_decide as Hc.
        -- rewrite in_app_iff. cbn [In].
           rewrite (landingMove_capture s row col _ _ He).
           unfold mayLand. rewrite Hv. intuition.
        -- unfold mayLand. intuition.
    + unfold mayLand. rewrite Hv. intuition; discriminate.
Qed.

Lemma distances_split pre k post :
  [1; 2; 3; 4; 5; 6; 7] = pre ++ k :: post ->
  1 <= k <= 7 /\ forall j, In j pre <-> 1 <= j < k.
Proof.
  intros H.
  do 8 (destruct pre as [|? pre]; cbn [app] in H;
        [ first [ discriminate H
                | injection H as <- _; split; [lia | intros j; cbn [In]; lia] ]
        | first [ discriminate H | injection H as <- H ] ]).
Qed.

Lemma distances_prefix k :
  1 <= k <= 7 ->
  exists pre post, [1; 2; 3; 4; 5; 6; 7] = pre ++ k :: post /\
                   forall j, In j pre -> 1 <= j < k.
Proof.
  intros Hk.
  assert (Hc : k = 1 \/ k = 2 \/ k = 3 \/ k = 4 \/ k = 5 \/ k = 6 \/ k = 7) by lia.
  destruct Hc as [-> | [-> | [-> | [-> | [-> | [-> | ->]]]]]].
  - exists [], [2;3;4;5;6;7]. split; [done|]. intros j []. 
  - exists [1], [3;4;5;6;7]. split; [done|]. intros j; cbn [In]; lia.
  - exists [1;2], [4;5;6;7]. split; [done|]. intros j; cbn [In]; lia.
  - exists [1;2;3], [5;6;7]. split; [done|]. intros j; cbn [In]; lia.
  - exists [1;2;3;4], [6;7]. split; [done|]. intros j; cbn [In]; lia.
  - exists [1;2;3;4;5], [7]. split; [done|]. intros j; cbn [In]; lia.
  - exists [1;2;3;4;5;6], []. split; [done|]. intros j; cbn [In]; lia.
Qed.

(** One direction of [getSlidingMoves]: the loop [dist = 1 .. 7]. *)
Lemma slideRay_distances s row col dr dc moves m :
  In m (slideRay s row col dr dc [1; 2; 3; 4; 5; 6; 7] moves) <->
  In m moves \/
  exists k, 1 <= k <= 7 /\ clearPath s row col dr dc k /\
    mayLand s row col (row + dr * k) (col + dc * k) /\
    m = landingMove s row col (row + dr * k) (col + dc * k).
Proof.
  rewrite slideRay_iff. split; (intros [H | H]; [now left | right]).
  - destruct H as (pre & k & post & Heq & Hpre & Hl & ->).
    apply distances_split in Heq as [Hk Hin].
    exists k. split; [done|]. split; [| done].
    intros j Hj. rewrite Forall_forall in Hpre. apply Hpre. now apply Hin.
  - destruct H as (k & Hk & Hclear & Hl & ->).
    destruct (distances_prefix k Hk) as (pre & post & Heq & Hin).
    exists pre, k, post. split; [done|]. split; [| done].
    apply Forall_forall. intros j Hj. apply Hclear. now apply Hin.
Qed.

Lemma getSlidingMoves_iff s row col directions moves m :
  In m (getSlidingMoves s row col directions moves) <->
  In m moves \/
  exists d k, In d directions /\ 1 <= k <= 7 /\
    clearPath s row col (fst d) (snd d) k /\
    mayLand s row col (row + fst d * k) (col + snd d * k) /\
    m = landingMove s row col (row + fst d * k) (col + snd d * k).
Proof.
  unfold getSlidingMoves. revert moves.
  induction directions as [|d ds IH]; intros moves; cbn [fold_left].
  - split; [auto | intros [H | (d & k & [] & _)]; exact H].
  - rewrite IH, slideRay_distances. clear IH. split.
    + intros [[H | (k & H)] | (d' & k & Hin & H)]; auto.
      * right. exists d, k. split; [now left | done].
      * right. exists d', k. split; [now right | done].
    + intros [H | (d' & k & [<- | Hin] & H)]; auto.
      * left. right. exists k. done.
      * right. exists d', k. done.
Qed.

Lemma snoc_if {A} (b : bool) (l : list A) x :
  (if b then l ++ [x] else l) = l ++ (if b then [x] else []).
Proof. destruct b; [done | now rewrite app_nil_r]. Qed.

Lemma getPawnMoves_app s row col moves :
  getPawnMoves s row col moves =
    moves ++ pawnPushes s row col ++ pawnCaptures s row col (-1) ++ pawnCaptures s row col 1.
Proof.
  unfold getPawnMoves, pawnPushes, pawnCaptures, pawnStartRow, lastRank.
  cbn [fold_left]. cbv zeta. fold (pawnDirection (at_ s row col)).
  set (d := pawnDirection (at_ s row col)).
  repeat match goal with
         | |- context [if ?b then _ else _] => destruct b
         end;
    cbn [app]; rewrite <- ?app_assoc, ?app_nil_r; reflexivity.
Qed.

Lemma pawnPushes_iff s row col m :
  In m (pawnPushes s row col) <->
  let p := at_ s row col in
  let d := pawnDirection p in
  (isValidPosition (row + d) col = true /\ type (at_ s (row + d) col) = EMPTY /\
   m = mkMove row col (row + d) col false false false (lastRank (row + d)) 0) \/
  (isValidPosition (row + d) col = true /\ type (at_ s (row + d) col) = EMPTY /\
   row = pawnStartRow p /\ type (at_ s (row + 2 * d) col) = EMPTY /\
   m = mkMove row col (row + 2 * d) col false false false false 0).
Proof.
  cbv zeta. unfold pawnPushes.
  set (d := pawnDirection (at_ s row col)).
  destruct (isValidPosition (row + d) col) eqn:Hv; cbn [andb].
  - case_bool_decide as He.
    + destruct (row =? pawnStartRow (at_ s row col)) eqn:Hs; cbn [andb].
      * apply Z.eqb_eq in Hs. case_bool_decide as He2; cbn [In]; intuition congruence.
      * apply Z.eqb_neq in Hs. cbn [In]. intuition congruence.
    + cbn [In]. intuition congruence.
  - cbn [In]. intuition congruence.
Qed.

Lemma pawnCaptures_iff s row col dcol m :
  In m (pawnCaptures s row col dcol) <->
  let p := at_ s row col in
  let d := pawnDirection p in
  isValidPosition (row + d) (col + dcol) = true /\
  ((type (at_ s (row + d) (col + dcol)) <> EMPTY /\
    color (at_ s (row + d) (col + dcol)) <> color p /\
    m = mkMove row col (row + d) (col + dcol) true false false (lastRank (row + d)) 0) \/
   (col + dcol = enPassantCol s /\ row + d = enPassantRow s /\
    m = mkMove row col (row + d) (col + dcol) true false true false 0)).
Proof.
  cbv zeta. unfold pawnCaptures.
  set (d := pawnDirection (at_ s row col)).
  destruct (isValidPosition (row + d) (col + dcol)) eqn:Hv.
  - rewrite in_app_iff.
    assert (H1 : forall (b : bool) (x : Move), In m (if b then [x] else []) <-> b = true /\ m = x).
    { intros [] x; cbn [In]; intuition congruence. }
    rewrite !H1, !andb_true_iff, !bool_decide_eq_true, !Z.eqb_eq. tauto.
  - cbn [In]. intuition congruence.
Qed.

Lemma getPawnMoves_iff s row col moves m :
  In m (getPawnMoves s row col moves) <-> In m moves \/ pawnMove s row col m.
Proof.
  rewrite getPawnMoves_app, !in_app_iff, pawnPushes_iff, !pawnCaptures_iff.
  unfold pawnMove. cbv zeta.
  set (d := pawnDirection (at_ s row col)). split.
  - intros [H | [[H | H] | [[Hv [H | H]] | [Hv [H | H]]]]]; auto.
    + right. right. right. left. exists (-1). split; [now left|]. tauto.
    + right. right. right. right. exists (-1). split; [now left|]. tauto.
    + right. right. right. left. exists 1. split; [now right|]. tauto.
    + right. right. right. right. exists 1. split; [now right|]. tauto.
  - intros [H | [H | [H | [(dc & [-> | ->] & H) | (dc & [-> | ->] & H)]]]]; tauto.
Qed.

Lemma castlingMoves_iff s p moves m :
  In m (castlingMoves s p moves) <-> In m moves \/ castlingMove s (color p) m.
Proof.
  unfold castlingMoves, castlingMove.
  assert (H1 : forall (b : bool) l (x : Move),
            In m (if b then l ++ [x] else l) <-> In m l \/ (b = true /\ m = x)).
  { intros [] l x; rewrite ?in_app_iff; cbn [In]; intuition congruence. }
  case_bool_decide as Hw; cbn [andb].
  - destruct (whiteKingMoved s) eqn:Hk; cbn [negb].
    + case_bool_decide as Hb; [congruence|]. cbn [andb]. intuition congruence.
    + rewrite !H1, !andb_true_iff, !negb_true_iff. intuition congruence.
  - case_bool_decide as Hb; cbn [andb].
    + destruct (blackKingMoved s) eqn:Hk; cbn [negb].
      * intuition congruence.
      * rewrite !H1, !andb_true_iff, !negb_true_iff. intuition congruence.
    + intuition congruence.
Qed.

Lemma getPseudoLegalMoves_iff s row col m :
  In m (getPseudoLegalMoves s row col) <-> pseudoMove s row col m.
Proof.
  unfold getPseudoLegalMoves, pseudoMove.
  destruct (type (at_ s row col)).
  - cbn [In]. tauto.
  - rewrite getPawnMoves_iff. cbn [In]. tauto.
  - unfold getKnightMoves. rewrite stepMoves_iff. cbn [In]. unfold stepMove, knightOffsets. tauto.
  - unfold getBishopMoves. rewrite getSlidingMoves_iff. cbn [In].
    unfold slideMove, bishopDirections. tauto.
  - unfold getRookMoves. rewrite getSlidingMoves_iff. cbn [In].
    unfold slideMove, rookDirections. tauto.
  - unfold getQueenMoves. rewrite getSlidingMoves_iff. cbn [In].
    unfold slideMove, kingOffsets. tauto.
  - unfold getKingMoves. cbv zeta. rewrite castlingMoves_iff, stepMoves_iff. cbn [In].
    unfold stepMove, kingOffsets. tauto.
Qed.

(** *** The offset tables *)
Lemma knightOffsets_iff dr dc :
  In (dr, dc) knightOffsets <-> Z.abs dr * Z.abs dc = 2.
Proof.
  unfold knightOffsets. cbn [In]. split.
  - intros H. repeat (destruct H as [[= <- <-] | H]; [reflexivity|]). destruct H.
  - intros H.
    pose proof (Z.abs_nonneg dr) as Ha. pose proof (Z.abs_nonneg dc) as Hb.
    assert (Ha0 : Z.abs dr <> 0) by (intros H0; rewrite H0 in H; lia).
    assert (Hb0 : Z.abs dc <> 0) by (intros H0; rewrite H0, Z.mul_0_r in H; lia).
    assert (H1 : Z.abs dr <= 2) by nia.
    assert (H2 : Z.abs dc <= 2) by nia.
    assert (Hc : (dr = -2 \/ dr = -1 \/ dr = 1 \/ dr = 2) /\
                 (dc = -2 \/ dc = -1 \/ dc = 1 \/ dc = 2)) by lia.
    destruct Hc as [[-> | [-> | [-> | ->]]] [-> | [-> | [-> | ->]]]];
      cbn in H; try discriminate H; tauto.
Qed.

Lemma kingOffsets_iff dr dc :
  In (dr, dc) kingOffsets <-> Z.max (Z.abs dr) (Z.abs dc) = 1.
Proof.
  unfold kingOffsets. cbn [In]. split.
  - intros H. repeat (destruct H as [[= <- <-] | H]; [reflexivity|]). destruct H.
  - intros H.
    assert (Hc : (dr = -1 \/ dr = 0 \/ dr = 1) /\ (dc = -1 \/ dc = 0 \/ dc = 1)) by lia.
    destruct Hc as [[-> | [-> | ->]] [-> | [-> | ->]]];
      cbn in H; try discriminate H; tauto.
Qed.

Lemma lineDirection_iff t dr dc :
  lineDirection t dr dc <->
  (t = BISHOP /\ In (dr, dc) bishopDirections) \/
  (t = ROOK /\ In (dr, dc) rookDirections) \/
  (t = QUEEN /\ In (dr, dc) kingOffsets).
Proof.
  unfold lineDirection, bishopDirections, rookDirections, kingOffsets. cbn [In]. split.
  - intros (H1 & H2 & H3).
    assert (Hc : (dr = -1 \/ dr = 0 \/ dr = 1) /\ (dc = -1 \/ dc = 0 \/ dc = 1)) by lia.
    destruct t; try contradiction;
      destruct Hc as [[-> | [-> | ->]] [-> | [-> | ->]]]; try lia; tauto.
  - intros [[-> H] | [[-> H] | [-> H]]];
      repeat (destruct H as [[= <- <-] | H]; [lia|]); destruct H.
Qed.

(** Between a square of the board and another one on a line through it,
    every square of the line is on the board. *)
Lemma line_inside row col dr dc k j :
  isValidPosition row col = true ->
  isValidPosition (row + dr * k) (col + dc * k) = true ->
  -1 <= dr <= 1 -> -1 <= dc <= 1 -> 1 <= j < k ->
  isValidPosition (row + dr * j) (col + dc * j) = true.
Proof.
  rewrite !valid_bounds. intros H1 H2 Hr Hc Hj.
  assert (Hcr : dr = -1 \/ dr = 0 \/ dr = 1) by lia.
  assert (Hcc : dc = -1 \/ dc = 0 \/ dc = 1) by lia.
  destruct Hcr as [-> | [-> | ->]], Hcc as [-> | [-> | ->]]; lia.
Qed.

Lemma line_length row col dr dc k :
  isValidPosition row col = true ->
  isValidPosition (row + dr * k) (col + dc * k) = true ->
  -1 <= dr <= 1 -> -1 <= dc <= 1 -> dr <> 0 \/ dc <> 0 -> 1 <= k -> k <= 7.
Proof.
  rewrite !valid_bounds. intros H1 H2 Hr Hc Hn Hk.
  assert (Hcr : dr = -1 \/ dr = 0 \/ dr = 1) by lia.
  assert (Hcc : dc = -1 \/ dc = 0 \/ dc = 1) by lia.
  destruct Hcr as [-> | [-> | ->]], Hcc as [-> | [-> | ->]]; lia.
Qed.

(** X1. [getKnightMoves]: the pseudo-legal moves of a knight are exactly
    the moves to the squares of the board a knight's jump away (two ranks
    and one file, or one rank and two files) that are empty or hold a
    piece of another colour, with [isCapture] set exactly on the occupied
    ones and no other flag. *)
Theorem knight_moves_are_its_jumps (s : GameState) (row col : Z) (m : Move) :
  type (at_ s row col) = KNIGHT ->
  (In m (getPseudoLegalMoves s row col) <->
   exists r c,
     Z.abs (r - row) * Z.abs (c - col) = 2 /\
     isValidPosition r c = true /\
     (type (at_ s r c) = EMPTY \/ color (at_ s r c) <> color (at_ s row col)) /\
     m = mkMove row col r c (bool_decide (type (at_ s r c) <> EMPTY))
                false false false 0).
Proof.
  intros Ht. rewrite getPseudoLegalMoves_iff. unfold pseudoMove. rewrite Ht.
  unfold stepMove, mayLand, landingMove. split.
  - intros ([dr dc] & Hin & [Hv Hl] & ->). cbn [fst snd] in *.
    exists (row + dr), (col + dc). apply knightOffsets_iff in Hin.
    replace (row + dr - row) with dr by lia. replace (col + dc - col) with dc by lia.
    done.
  - intros (r & c & Hj & Hv & Hl & ->).
    exists (r - row, c - col). cbn [fst snd].
    replace (row + (r - row)) with r by lia. replace (col + (c - col)) with c by lia.
    split; [now apply knightOffsets_iff | done].
Qed.

Lemma knight_moves_are_its_jumps_witness :
  In (mkMove 7 1 5 2 false false false false 0) (getPseudoLegalMoves initializeBoard 7 1) <->
  exists r c,
    Z.abs (r - 7) * Z.abs (c - 1) = 2 /\
    isValidPosition r c = true /\
    (type (at_ initializeBoard r c) = EMPTY \/
     color (at_ initializeBoard r c) <> color (at_ initializeBoard 7 1)) /\
    mkMove 7 1 5 2 false false false false 0
    = mkMove 7 1 r c (bool_decide (type (at_ initializeBoard r c) <> EMPTY))
             false false false 0.
Proof.
  apply (knight_moves_are_its_jumps initializeBoard 7 1).
  vm_compute. reflexivity.
Defined.

(** X2. [getSlidingMoves] with the direction tables of [getBishopMoves],
    [getRookMoves] and [getQueenMoves]: the pseudo-legal moves of a bishop,
    rook or queen standing on the board are exactly the moves along a
    diagonal (bishop), a rank or file (rook) or either (queen) to a square
    of the board that is empty or holds a piece of another colour, every
    square passed on the way being empty; [isCapture] is set exactly on
    the occupied destinations. *)
Theorem sliding_moves_follow_clear_lines (s : GameState) (row col : Z) (m : Move) :
  isValidPosition row col = true ->
  type (at_ s row col) = BISHOP \/ type (at_ s row col) = ROOK \/
  type (at_ s row col) = QUEEN ->
  (In m (getPseudoLegalMoves s row col) <->
   exists dr dc k,
     lineDirection (type (at_ s row col)) dr dc /\ 1 <= k /\
     isValidPosition (row + dr * k) (col + dc * k) = true /\
     (forall j, 1 <= j < k -> type (at_ s (row + dr * j) (col + dc * j)) = EMPTY) /\
     (type (at_ s (row + dr * k) (col + dc * k)) = EMPTY \/
      color (at_ s (row + dr * k) (col + dc * k)) <> color (at_ s row col)) /\
     m = mkMove row col (row + dr * k) (col + dc * k)
                (bool_decide (type (at_ s (row + dr * k) (col + dc * k)) <> EMPTY))
                false false false 0).
Proof.
  intros Hv Ht. rewrite getPseudoLegalMoves_iff. unfold pseudoMove.
  assert (Hgen : forall dirs,
    (forall dr dc, In (dr, dc) dirs <-> lineDirection (type (at_ s row col)) dr dc) ->
    slideMove s row col dirs m <->
    exists dr dc k,
     lineDirection (type (at_ s row col)) dr dc /\ 1 <= k /\
     isValidPosition (row + dr * k) (col + dc * k) = true /\
     (forall j, 1 <= j < k -> type (at_ s (row + dr * j) (col + dc * j)) = EMPTY) /\
     (type (at_ s (row + dr * k) (col + dc * k)) = EMPTY \/
      color (at_ s (row + dr * k) (col + dc * k)) <> color (at_ s row col)) /\
     m = mkMove row col (row + dr * k) (col + dc * k)
                (bool_decide (type (at_ s (row + dr * k) (col + dc * k)) <> EMPTY))
                false false false 0).
  { intros dirs Hdirs. unfold slideMove, mayLand, landingMove, clearPath. split.
    - intros ([dr dc] & k & Hin & Hk & Hclear & [Hvk Hl] & ->). cbn [fst snd] in *.
      exists dr, dc, k. apply Hdirs in Hin.
      split; [done|]. split; [lia|]. split; [done|]. split; [| done].
      intros j Hj. now apply Hclear.
    - intros (dr & dc & k & Hd & Hk & Hvk & Hclear & Hl & ->).
      exists (dr, dc), k. cbn [fst snd].
      pose proof Hd as (Hr & Hc & Hnz).
      assert (Hn : dr <> 0 \/ dc <> 0).
      { destruct (type (at_ s row col)); try contradiction; lia. }
      split; [now apply Hdirs|].
      split; [split; [done | now apply (line_length row col dr dc k)]|].
      split; [| done].
      intros j Hj. split; [now apply (line_inside row col dr dc k j) | now apply Hclear]. }
  destruct Ht as [Ht | [Ht | Ht]]; rewrite Ht in *; apply Hgen; intros dr dc;
    rewrite lineDirection_iff; intuition discriminate.
Qed.

Lemma sliding_moves_follow_clear_lines_witness :
  In (mkMove 4 2 3 1 false false false false 0)
     (getPseudoLegalMoves (snd castlingReady) 4 2) <->
  exists dr dc k,
    lineDirection (type (at_ (snd castlingReady) 4 2)) dr dc /\ 1 <= k /\
    isValidPosition (4 + dr * k) (2 + dc * k) = true /\
    (forall j, 1 <= j < k ->
       type (at_ (snd castlingReady) (4 + dr * j) (2 + dc * j)) = EMPTY) /\
    (type (at_ (snd castlingReady) (4 + dr * k) (2 + dc * k)) = EMPTY \/
     color (at_ (snd castlingReady) (4 + dr * k) (2 + dc * k))
       <> color (at_ (snd castlingReady) 4 2)) /\
    mkMove 4 2 3 1 false false false false 0
    = mkMove 4 2 (4 + dr * k) (2 + dc * k)
        (bool_decide (type (at_ (snd castlingReady) (4 + dr * k) (2 + dc * k)) <> EMPTY))
        false false false 0.
Proof.
  apply (sliding_moves_follow_clear_lines (snd castlingReady) 4 2).
  - reflexivity.
  - left. vm_compute. reflexivity.
Defined.

(** X3. [getKingMoves]: the pseudo-legal moves of a king are exactly the
    moves to the neighbouring squares of the board that are empty or hold
    a piece of another colour, and the castling moves of its colour, which
    are built from the fixed squares of the home rank and depend on the
    moved-flags and on the squares between king and rook being empty, not
    on where the king stands. *)
Theorem king_moves_are_steps_and_castling (s : GameState) (row col : Z) (m : Move) :
  type (at_ s row col) = KING ->
  (In m (getPseudoLegalMoves s row col) <->
   (exists r c,
      Z.max (Z.abs (r - row)) (Z.abs (c - col)) = 1 /\
      isValidPosition r c = true /\
      (type (at_ s r c) = EMPTY \/ color (at_ s r c) <> color (at_ s row col)) /\
      m = mkMove row col r c (bool_decide (type (at_ s r c) <> EMPTY))
                 false false false 0) \/
   castlingMove s (color (at_ s row col)) m).
Proof.
  intros Ht. rewrite getPseudoLegalMoves_iff. unfold pseudoMove. rewrite Ht.
  unfold stepMove, mayLand, landingMove.
  assert (H : forall A B B' : Prop, (B <-> B') -> (B \/ A <-> B' \/ A)) by tauto.
  apply H. clear H. split.
  - intros ([dr dc] & Hin & [Hv Hl] & ->). cbn [fst snd] in *.
    exists (row + dr), (col + dc). apply kingOffsets_iff in Hin.
    replace (row + dr - row) with dr by lia. replace (col + dc - col) with dc by lia.
    done.
  - intros (r & c & Hj & Hv & Hl & ->).
    exists (r - row, c - col). cbn [fst snd].
    replace (row + (r - row)) with r by lia. replace (col + (c - col)) with c by lia.
    split; [now apply kingOffsets_iff | done].
Qed.

Lemma king_moves_are_steps_and_castling_witness :
  In castleKingside (getPseudoLegalMoves (snd castlingReady) 7 4) <->
  (exists r c,
     Z.max (Z.abs (r - 7)) (Z.abs (c - 4)) = 1 /\
     isValidPosition r c = true /\
     (type (at_ (snd castlingReady) r c) = EMPTY \/
      color (at_ (snd castlingReady) r c) <> color (at_ (snd castlingReady) 7 4)) /\
     castleKingside
     = mkMove 7 4 r c (bool_decide (type (at_ (snd castlingReady) r c) <> EMPTY))
              false false false 0) \/
  castlingMove (snd castlingReady) (color (at_ (snd castlingReady) 7 4)) castleKingside.
Proof.
  apply (king_moves_are_steps_and_castling (snd castlingReady) 7 4).
  vm_compute. reflexivity.
Defined.

(** X4. [getPawnMoves]: the pseudo-legal moves of a pawn are exactly: one
    rank forward (towards row 0 for White, towards row 7 otherwise) onto
    an empty square; two ranks forward from row 6 (White) or row 1 over
    two empty squares; one rank forward and one file aside onto a piece
    of another colour; and the same diagonal step onto the en-passant
    target, whatever stands there.  The first and third are promotions
    exactly when they reach row 0 or row 7. *)
Theorem pawn_moves_are_the_four_kinds (s : GameState) (row col : Z) (m : Move) :
  type (at_ s row col) = PAWN ->
  (In m (getPseudoLegalMoves s row col) <-> pawnMove s row col m).
Proof.
  intros Ht. rewrite getPseudoLegalMoves_iff. unfold pseudoMove. now rewrite Ht.
Qed.

Lemma pawn_moves_are_the_four_kinds_witness :
  In (mkMove 6 4 4 4 false false false false 0) (getPseudoLegalMoves initializeBoard 6 4)
  <-> pawnMove initializeBoard 6 4 (mkMove 6 4 4 4 false false false false 0).
Proof.
  apply (pawn_moves_are_the_four_kinds initializeBoard 6 4).
  vm_compute. reflexivity.
Defined.

Lemma landing_capture_flag s row col r c :
  mayLand s row col r c ->
  isValidPosition r c = true /\
  (if isCapture (landingMove s row col r c)
   then type (at_ s r c) <> EMPTY /\ color (at_ s r c) <> color (at_ s row col)
   else type (at_ s r c) = EMPTY).
Proof.
  intros [Hv Hl]. split; [done|]. unfold landingMove. cbn [isCapture].
  case_bool_decide as He.
  - split; [done|]. destruct Hl; [contradiction | done].
  - destruct (decide (type (at_ s r c) = EMPTY)); [done | contradiction].
Qed.

(** X5. No generator lets a piece take a piece of its own colour, and
    [isCapture] says whether the destination is occupied: every
    pseudo-legal move other than an en-passant capture ends on a square of
    the board that is empty when [isCapture] is clear and holds a piece of
    another colour when it is set. *)
Theorem moves_never_take_own_piece (s : GameState) (row col : Z) (m : Move) :
  In m (getPseudoLegalMoves s row col) -> isEnPassant m = false ->
  isValidPosition (toRow m) (toCol m) = true /\
  (if isCapture m
   then type (at_ s (toRow m) (toCol m)) <> EMPTY /\
        color (at_ s (toRow m) (toCol m)) <> color (at_ s row col)
   else type (at_ s (toRow m) (toCol m)) = EMPTY).
Proof.
  rewrite getPseudoLegalMoves_iff. unfold pseudoMove. intros Hm Hep.
  assert (Hstep : forall offs, stepMove s row col offs m ->
    isValidPosition (toRow m) (toCol m) = true /\
    (if isCapture m
     then type (at_ s (toRow m) (toCol m)) <> EMPTY /\
          color (at_ s (toRow m) (toCol m)) <> color (at_ s row col)
     else type (at_ s (toRow m) (toCol m)) = EMPTY)).
  { intros offs (o & _ & Hl & ->). now apply landing_capture_flag. }
  assert (Hslide : forall dirs, slideMove s row col dirs m ->
    isValidPosition (toRow m) (toCol m) = true /\
    (if isCapture m
     then type (at_ s (toRow m) (toCol m)) <> EMPTY /\
          color (at_ s (toRow m) (toCol m)) <> color (at_ s row col)
     else type (at_ s (toRow m) (toCol m)) = EMPTY)).
  { intros dirs (d & k & _ & _ & _ & Hl & ->). now apply landing_capture_flag. }
  destruct (type (at_ s row col)) eqn:Ht; [destruct Hm | | eauto ..].
  - unfold pawnMove in Hm. cbv zeta in Hm.
    assert (Hd : pawnDirection (at_ s row col) = -1 /\ pawnStartRow (at_ s row col) = 6 \/
                 pawnDirection (at_ s row col) = 1 /\ pawnStartRow (at_ s row col) = 1).
    { unfold pawnDirection, pawnStartRow. case_bool_decide; auto. }
    destruct Hm as [(Hv & He & ->) | [(Hv & He & Hs & He2 & ->) |
                   [(dc & _ & Hv & Ht' & Hc & ->) | (dc & _ & _ & _ & _ & ->)]]];
      cbn [toRow toCol isCapture isEnPassant] in *; try done.
    split; [| done]. apply valid_bounds in Hv. apply valid_bounds. lia.
  - destruct Hm as [Hm | Hm]; [eauto|].
    unfold castlingMove, isEmptyAt in Hm.
    destruct Hm as [(_ & _ & [(_ & _ & He & ->) | (_ & _ & He & _ & ->)]) |
                    (_ & _ & [(_ & _ & He & ->) | (_ & _ & He & _ & ->)])];
      cbn [toRow toCol isCapture]; apply bool_decide_eq_true in He; done.
Qed.

Lemma moves_never_take_own_piece_witness :
  isValidPosition 5 2 = true /\
  type (at_ initializeBoard 5 2) = EMPTY.
Proof.
  apply (moves_never_take_own_piece initializeBoard 7 1
           (mkMove 7 1 5 2 false false false false 0)).
  - vm_compute. tauto.
  - reflexivity.
Defined.

Lemma at_trialPosition s m r c :
  wf s -> moveShape m -> isValidPosition r c = true ->
  at_ (trialPosition m s) r c = trialAt m s r c.
Proof.
  intros Hwf Hshape Hrc.
  destruct (isCastling m) eqn:Hcas.
  { rewrite at_trialPosition_castling by done. unfold trialAt. rewrite Hcas.
    destruct Hshape as (_ & _ & _ & Hc & _). destruct (Hc Hcas) as (-> & _).
    cbn [andb]. reflexivity. }
  destruct Hshape as (Hfrom & Hto & Hne & Hcastle & Hep).
  unfold wf in Hwf. unfold trialAt, rookFrom, rookTo, captureRowFor.
  destruct m as [fr fc tr tc cap cas ep promo sc].
  cbn [fromRow fromCol toRow toCol isCastling isEnPassant isPromotion] in *.
  subst cas.
  apply valid_bounds in Hfrom, Hto, Hrc.
  rewrite (at_cell (trialPosition _ _)).
  unfold trialPosition. cbv beta zeta.
  cbn [fromRow fromCol toRow toCol isCastling isEnPassant isPromotion].
  destruct ep.
  - destruct Hep as (_ & Hc & Hr); [done|].
    repeat progress (rewrite ?at_cell; autorewrite with game; cbn [Z.eqb Pos.eqb andb]).
    destruct (bool_decide (color (cell (board s) fr fc) = WHITE));
      destruct Hr as [-> | ->];
      on_square r c fr fc;
      on_square r c (fr + 1) tc; on_square r c (fr - 1) tc;
      on_square r c (fr + 1 + 1) tc; on_square r c (fr + 1 - 1) tc;
      on_square r c (fr - 1 + 1) tc; on_square r c (fr - 1 - 1) tc;
      subst; exec_cells.
  - repeat progress (rewrite ?at_cell; autorewrite with game; cbn [Z.eqb Pos.eqb andb]).
    on_square r c fr fc; on_square r c tr tc; subst; exec_cells.
Qed.

(** The executed board is the trial board except on the destination. *)
Lemma executedAt_trialAt m q s r c :
  executedAt m q s r c =
    if (r =? toRow m) && (c =? toCol m)
    then mkPiece (if isPromotion m then q else type (at_ s (fromRow m) (fromCol m)))
                 (color (at_ s (fromRow m) (fromCol m))) true
    else trialAt m s r c.
Proof.
  unfold executedAt, trialAt. cbv zeta. now destruct (_ && _).
Qed.

Lemma at_invalid s r c : isValidPosition r c = false -> at_ s r c = emptyPiece.
Proof. intros H. unfold at_, cell. now rewrite H. Qed.

Lemma sameOccupancy_sym s s' : sameOccupancy s s' -> sameOccupancy s' s.
Proof. intros H r c. destruct (H r c) as [H1 H2]. split; [tauto | congruence]. Qed.

Lemma mayLand_occ s s' row col r c :
  sameOccupancy s s' -> mayLand s row col r c -> mayLand s' row col r c.
Proof.
  intros H [Hv Hl]. split; [done|].
  destruct (H r c) as [H1 H2], (H row col) as [_ H3].
  rewrite <- H2, <- H3. tauto.
Qed.

Lemma landingMove_occ s s' row col r c :
  sameOccupancy s s' -> landingMove s row col r c = landingMove s' row col r c.
Proof.
  intros H. unfold landingMove. f_equal.
  destruct (H r c) as [H1 _]. apply bool_decide_ext. tauto.
Qed.

Lemma clearPath_occ s s' row col dr dc k :
  sameOccupancy s s' -> clearPath s row col dr dc k -> clearPath s' row col dr dc k.
Proof.
  intros H Hc j Hj. destruct (Hc j Hj) as [Hv He]. split; [done|].
  now apply (H (row + dr * j) (col + dc * j)).
Qed.

Lemma stepMove_occ s s' row col offs m :
  sameOccupancy s s' -> stepMove s row col offs m -> stepMove s' row col offs m.
Proof.
  intros H (o & Hin & Hl & ->). exists o. split; [done|].
  split; [now apply (mayLand_occ s s') | now apply landingMove_occ].
Qed.

Lemma slideMove_occ s s' row col dirs m :
  sameOccupancy s s' -> slideMove s row col dirs m -> slideMove s' row col dirs m.
Proof.
  intros H (d & k & Hin & Hk & Hc & Hl & ->). exists d, k.
  split; [done|]. split; [done|]. split; [now apply (clearPath_occ s s')|].
  split; [now apply (mayLand_occ s s') | now apply landingMove_occ].
Qed.

Lemma castlingMove_flag s c m : castlingMove s c m -> isCastling m = true.
Proof.
  unfold castlingMove. intuition (subst; reflexivity).
Qed.

(** The moves of a piece that is no pawn, castling apart, depend on the
    position only through the type of the piece, and the emptiness and
    colour of the squares. *)
Lemma pseudoMove_occ s s' r c m :
  sameOccupancy s s' -> type (at_ s r c) = type (at_ s' r c) ->
  type (at_ s r c) <> PAWN -> isCastling m = false ->
  pseudoMove s r c m -> pseudoMove s' r c m.
Proof.
  intros H Ht Hnp Hcas. unfold pseudoMove. rewrite <- Ht.
  destruct (type (at_ s r c)); try done.
  - now apply stepMove_occ.
  - now apply slideMove_occ.
  - now apply slideMove_occ.
  - now apply slideMove_occ.
  - intros [Hs | Hc].
    + left. now apply (stepMove_occ s s').
    + apply castlingMove_flag in Hc. congruence.
Qed.

Lemma existsb_iff_eq {A} (f g : A -> bool) l l' :
  ((exists x, In x l /\ f x = true) <-> (exists x, In x l' /\ g x = true)) ->
  existsb f l = existsb g l'.
Proof.
  intros H. apply eq_true_iff_eq. now rewrite !existsb_exists.
Qed.

Lemma isSquareAttacked_occ s s' row col a :
  sameOccupancy s s' ->
  (forall r c, color (at_ s r c) = a -> type (at_ s r c) = type (at_ s' r c)) ->
  isSquareAttacked s row col a = isSquareAttacked s' row col a.
Proof.
  intros H Ht. unfold isSquareAttacked. apply existsb_ext_in. intros [r c] _.
  cbn [fst snd]. destruct (H r c) as [He Hc].
  rewrite <- Hc.
  replace (bool_decide (type (at_ s' r c) <> EMPTY))
    with (bool_decide (type (at_ s r c) <> EMPTY)) by (apply bool_decide_ext; tauto).
  destruct (decide (color (at_ s r c) = a)) as [Ha | Ha];
    [rewrite (bool_decide_eq_true_2 _ Ha), andb_true_r
    | rewrite (bool_decide_eq_false_2 _ Ha), andb_false_r; reflexivity].
  destruct (bool_decide (type (at_ s r c) <> EMPTY)) eqn:Hne; [| done].
  rewrite <- (Ht r c Ha).
  destruct (decide (type (at_ s r c) = PAWN)) as [Hp | Hp];
    [rewrite (bool_decide_eq_true_2 _ Hp); reflexivity
    | rewrite (bool_decide_eq_false_2 _ Hp)].
  apply existsb_iff_eq.
  assert (Hgo : forall s1 s2, sameOccupancy s1 s2 ->
            type (at_ s1 r c) = type (at_ s2 r c) -> type (at_ s1 r c) <> PAWN ->
            (exists x, In x (getPseudoLegalMoves s1 r c) /\
               (toRow x =? row) && (toCol x =? col) && negb (isCastling x) = true) ->
            (exists x, In x (getPseudoLegalMoves s2 r c) /\
               (toRow x =? row) && (toCol x =? col) && negb (isCastling x) = true)).
  { intros s1 s2 H12 Ht12 Hnp (x & Hin & Hx). exists x. split; [| done].
    apply getPseudoLegalMoves_iff. apply getPseudoLegalMoves_iff in Hin.
    apply (pseudoMove_occ s1 s2); auto.
    apply andb_true_iff in Hx as [_ Hx]. now apply negb_true_iff in Hx. }
  split.
  - apply (Hgo s s'); auto.
  - apply (Hgo s' s);
      [now apply sameOccupancy_sym | symmetry; auto | rewrite <- (Ht r c Ha); exact Hp].
Qed.

Lemma find_ext_in {A} (f g : A -> bool) (l : list A) :
  (forall x, In x l -> f x = g x) -> find f l = find g l.
Proof.
  induction l as [|x l IH]; intros H; cbn [find]; [done|].
  rewrite H by (now left). rewrite IH; [done|]. intros y Hy. apply H. now right.
Qed.

Lemma opponent_ne (c : Color) : opponent c <> c.
Proof. unfold opponent. case_bool_decide; congruence. Qed.

(** The position [executeMoveInternal] leaves and the position
    [isLegalMove] has tried differ on the destination square only, and
    there only in [hasMoved] and the promoted type. *)
Lemma executed_vs_trial s m q r c :
  wf s -> moveShape m -> isValidPosition r c = true ->
  at_ (executeMoveInternal m q s) r c =
    if (r =? toRow m) && (c =? toCol m)
    then mkPiece (if isPromotion m then q else type (at_ s (fromRow m) (fromCol m)))
                 (color (at_ s (fromRow m) (fromCol m))) true
    else at_ (trialPosition m s) r c.
Proof.
  intros Hwf Hsh Hv.
  rewrite at_executeMoveInternal, at_trialPosition by done.
  apply executedAt_trialAt.
Qed.

Lemma trial_destination s m :
  wf s -> moveShape m ->
  at_ (trialPosition m s) (toRow m) (toCol m) = at_ s (fromRow m) (fromCol m).
Proof.
  intros Hwf Hsh. pose proof Hsh as (_ & Hto & _).
  rewrite at_trialPosition by done. unfold trialAt.
  now rewrite !Z.eqb_refl.
Qed.

Lemma executed_sameOccupancy s m q :
  wf s -> moveShape m -> q <> EMPTY ->
  type (at_ s (fromRow m) (fromCol m)) <> EMPTY ->
  sameOccupancy (trialPosition m s) (executeMoveInternal m q s).
Proof.
  intros Hwf Hsh Hq Hp r c.
  destruct (isValidPosition r c) eqn:Hv.
  - rewrite (executed_vs_trial s m q r c) by done.
    destruct ((r =? toRow m) && (c =? toCol m)) eqn:Hto; [| done].
    apply andb_true_iff in Hto as [->%Z.eqb_eq ->%Z.eqb_eq].
    rewrite trial_destination by done. cbn [type color].
    split; [| done]. destruct (isPromotion m); tauto.
  - now rewrite !at_invalid by done.
Qed.

(** After the execution the mover is in check exactly when the trial
    position of [isLegalMove] had him in check. *)
Lemma executed_check_is_trial_check s m q :
  wf s -> moveShape m -> q <> EMPTY -> q <> KING ->
  type (at_ s (fromRow m) (fromCol m)) <> EMPTY ->
  (isPromotion m = true -> type (at_ s (fromRow m) (fromCol m)) = PAWN) ->
  isInCheck (executeMoveInternal m q s) (color (at_ s (fromRow m) (fromCol m)))
  = isInCheck (trialPosition m s) (color (at_ s (fromRow m) (fromCol m))).
Proof.
  intros Hwf Hsh Hq Hqk Hp Hpromo.
  set (P := color (at_ s (fromRow m) (fromCol m))).
  unfold isInCheck.
  assert (Hking : findKing (executeMoveInternal m q s) P = findKing (trialPosition m s) P).
  { unfold findKing. apply find_ext_in. intros [r c] Hin. cbn [fst snd].
    apply squares_valid in Hin.
    rewrite (executed_vs_trial s m q r c) by done.
    destruct ((r =? toRow m) && (c =? toCol m)) eqn:Hto; [| done].
    apply andb_true_iff in Hto as [->%Z.eqb_eq ->%Z.eqb_eq].
    rewrite trial_destination by done. cbn [type color]. f_equal.
    destruct (isPromotion m) eqn:Hpr; [| done].
    rewrite (Hpromo eq_refl).
    rewrite !bool_decide_eq_false_2; [done | discriminate | done]. }
  rewrite Hking. destruct (findKing (trialPosition m s) P) as [[kr kc]|]; [| done].
  symmetry. apply isSquareAttacked_occ.
  - now apply executed_sameOccupancy.
  - intros r c Hc.
    destruct (isValidPosition r c) eqn:Hv; [| now rewrite !at_invalid by done].
    rewrite (executed_vs_trial s m q r c) by done.
    destruct ((r =? toRow m) && (c =? toCol m)) eqn:Hto; [| done].
    apply andb_true_iff in Hto as [->%Z.eqb_eq ->%Z.eqb_eq].
    rewrite trial_destination in Hc by done. fold P in Hc.
    exfalso. symmetry in Hc. now apply opponent_ne in Hc.
Qed.

(** A legal move and the square it was listed for. *)
Lemma legal_move_facts s r c m :
  wf s -> kingsHome s -> In m (legalMoves s r c) ->
  fromRow m = r /\ fromCol m = c /\ moveShape m /\
  type (at_ s (fromRow m) (fromCol m)) <> EMPTY /\
  color (at_ s (fromRow m) (fromCol m)) = currentPlayer s /\
  (isPromotion m = true -> type (at_ s (fromRow m) (fromCol m)) = PAWN) /\
  isInCheck (trialPosition m s) (currentPlayer s) = false /\
  pseudoSpec s r c m.
Proof.
  intros Hwf Hk Hin.
  destruct (legal_from_square s r c m Hk Hin) as [Hfr Hfc].
  apply list_elem_of_In, legalMoves_spec in Hin as (Hv & Hne & Hcol & _ & Hlegal & Hps).
  rewrite Hfr, Hfc.
  split; [done|]. split; [done|].
  split; [eapply pseudoSpec_moveShape; eauto|].
  split; [done|]. split; [done|].
  split; [apply Hps|].
  split; [| done]. unfold legalNow in Hlegal. now apply negb_true_iff in Hlegal.
Qed.

Lemma makeMove_not_in_check s fr fc tr tc q s' :
  wf s -> kingsHome s -> q <> EMPTY -> q <> KING ->
  makeMove fr fc tr tc q s = (true, s') ->
  isInCheck s' (currentPlayer s) = false.
Proof.
  intros Hwf Hk Hq Hqk Hm.
  destruct (makeMove_Some _ _ _ _ _ _ _ Hwf Hm) as (m & Hin & _ & _ & ->).
  apply list_elem_of_In in Hin.
  destruct (legal_move_facts s fr fc m Hwf Hk Hin)
    as (_ & _ & Hsh & Hne & Hcol & Hpromo & Hlegal & _).
  rewrite <- Hcol, executed_check_is_trial_check by done.
  now rewrite Hcol.
Qed.

Lemma laterState_trans s1 s2 s3 : laterState s1 s2 -> laterState s2 s3 -> laterState s1 s3.
Proof.
  intros H1 H2. induction H1 as [|a b c Hs _ IH]; [done|].
  eapply later_step; eauto.
Qed.

Lemma laterState_playMoves moves s : laterState s (snd (playMoves moves s)).
Proof.
  unfold playMoves.
  assert (H : forall acc, laterState s (snd acc) ->
            laterState s (snd (fold_left (fun acc mv =>
               let '(fr, fc, tr, tc) := mv in
               let '(ok, s') := makeMove fr fc tr tc QUEEN (snd acc) in
               (fst acc ++ [ok], s')) moves acc))).
  { induction moves as [|[[[fr fc] tr] tc] moves IH]; intros acc Hacc; cbn [fold_left].
    - exact Hacc.
    - apply IH.
      pose proof (step_makeMove (snd acc) fr fc tr tc) as Hn.
      destruct (makeMove fr fc tr tc QUEEN (snd acc)) as [ok s1]. cbn [snd] in *.
      eapply laterState_trans; [exact Hacc|].
      eapply later_step; [exact Hn | apply later_refl]. }
  apply H. apply later_refl.
Qed.

(** X6. Every state reached from the starting position by calls of
    [makeMove] and [getBestMove] has a board of 64 squares, White or
    Black to move, an en-passant column between -1 and 7, an en-passant
    row that is -1, 2 or 5, and every king whose moved-flag is clear on
    the home square of its colour. *)
Theorem reachable_state_invariant (s : GameState) :
  reachable s ->
  length (board s) = 64%nat /\
  (currentPlayer s = WHITE \/ currentPlayer s = BLACK) /\
  -1 <= enPassantCol s < 8 /\
  (enPassantRow s = -1 \/ enPassantRow s = 2 \/ enPassantRow s = 5) /\
  (forall r c, isValidPosition r c = true -> type (at_ s r c) = KING ->
     (color (at_ s r c) = WHITE -> whiteKingMoved s = false -> r = 7 /\ c = 4) /\
     (color (at_ s r c) = BLACK -> blackKingMoved s = false -> r = 0 /\ c = 4)).
Proof.
  intros Hr. pose proof (reachable_Inv s Hr) as (Hwf & Hep & Hk).
  split; [exact Hwf|]. split; [now apply reachable_player|].
  split; [now apply reachable_enPassantCol|]. split; [exact Hep | exact Hk].
Qed.

Lemma reachable_state_invariant_witness :
  length (board (snd castlingReady)) = 64%nat /\
  (currentPlayer (snd castlingReady) = WHITE \/ currentPlayer (snd castlingReady) = BLACK) /\
  -1 <= enPassantCol (snd castlingReady) < 8 /\
  (enPassantRow (snd castlingReady) = -1 \/ enPassantRow (snd castlingReady) = 2 \/
   enPassantRow (snd castlingReady) = 5) /\
  (forall r c, isValidPosition r c = true -> type (at_ (snd castlingReady) r c) = KING ->
     (color (at_ (snd castlingReady) r c) = WHITE ->
      whiteKingMoved (snd castlingReady) = false -> r = 7 /\ c = 4) /\
     (color (at_ (snd castlingReady) r c) = BLACK ->
      blackKingMoved (snd castlingReady) = false -> r = 0 /\ c = 4)).
Proof.
  apply (reachable_state_invariant (snd castlingReady)).
  apply reachable_playMoves, reachable_init.
Defined.

(** X7. The side to move changes exactly when [makeMove] succeeds: in a
    reachable state a successful call hands the move from White to Black
    or from Black to White, and a refused call leaves it. *)
Theorem makeMove_alternates_turn (s : GameState) (fr fc tr tc : Z) (q : PieceType) :
  reachable s ->
  let r := makeMove fr fc tr tc q s in
  (fst r = true ->
   (currentPlayer s = WHITE /\ currentPlayer (snd r) = BLACK) \/
   (currentPlayer s = BLACK /\ currentPlayer (snd r) = WHITE)) /\
  (fst r = false -> currentPlayer (snd r) = currentPlayer s).
Proof.
  intros Hr. cbv zeta.
  pose proof (reachable_wf _ Hr) as Hwf. pose proof (reachable_player _ Hr) as Hp.
  rewrite makeMove_eq by done.
  destruct (matchingMove _ _ _) as [mv|]; cbn [fst snd].
  - split; [| discriminate]. intros _.
    pose proof (meta_executeMoveInternal mv q s) as H. cbv zeta in H.
    destruct H as (-> & _). unfold opponent.
    destruct Hp as [-> | ->]; [left | right]; split; try reflexivity.
  - split; [discriminate | reflexivity].
Qed.

Lemma makeMove_alternates_turn_witness :
  let r := makeMove 6 4 4 4 QUEEN initializeBoard in
  (fst r = true ->
   (currentPlayer initializeBoard = WHITE /\ currentPlayer (snd r) = BLACK) \/
   (currentPlayer initializeBoard = BLACK /\ currentPlayer (snd r) = WHITE)) /\
  (fst r = false -> currentPlayer (snd r) = currentPlayer initializeBoard).
Proof.
  apply (makeMove_alternates_turn initializeBoard 6 4 4 4 QUEEN).
  apply reachable_init.
Defined.

(** X8. What the restoring code of [getBestMove] does achieve: for a
    reachable state the call leaves the side to move, both components of
    the en-passant target and the move history as they were and the board
    at 64 squares; castling flags are set at most, never cleared; and
    every king on the board afterwards stands where a king of the same
    colour stood before. *)
Theorem getBestMove_keeps_turn_and_target (s s' : GameState) (depth : Z) (g g' : Rng)
    (m : Move) :
  reachable s -> getBestMove depth g s = Some (m, g', s') ->
  length (board s') = 64%nat /\
  currentPlayer s' = currentPlayer s /\
  enPassantCol s' = enPassantCol s /\ enPassantRow s' = enPassantRow s /\
  moveHistory s' = moveHistory s /\
  castlingFlagsGrow s s' /\
  (forall r c, isValidPosition r c = true ->
     type (at_ s' r c) = KING -> color (at_ s' r c) <> NONE ->
     type (at_ s r c) = KING /\ color (at_ s r c) = color (at_ s' r c)).
Proof.
  intros Hr Hb. apply reachable_Inv in Hr as (Hwf & _ & Hk).
  exact (getBestMove_meta _ _ _ _ _ _ Hwf Hk Hb).
Qed.

Lemma getBestMove_keeps_turn_and_target_witness :
  length (board afterSearch) = 64%nat /\
  currentPlayer afterSearch = currentPlayer initializeBoard /\
  enPassantCol afterSearch = enPassantCol initializeBoard /\
  enPassantRow afterSearch = enPassantRow initializeBoard /\
  moveHistory afterSearch = moveHistory initializeBoard /\
  castlingFlagsGrow initializeBoard afterSearch /\
  (forall r c, isValidPosition r c = true ->
     type (at_ afterSearch r c) = KING -> color (at_ afterSearch r c) <> NONE ->
     type (at_ initializeBoard r c) = KING /\
     color (at_ initializeBoard r c) = color (at_ afterSearch r c)).
Proof.
  apply (getBestMove_keeps_turn_and_target initializeBoard afterSearch 1 [] [] chosenMove).
  - apply reachable_init.
  - vm_compute. reflexivity.
Defined.

Lemma legal_castling_move s r c m :
  wf s -> In m (legalMoves s r c) -> isCastling m = true ->
  type (at_ s r c) = KING /\ castlingMove s (currentPlayer s) m.
Proof.
  intros Hwf Hin Hcas.
  apply list_elem_of_In, legalMoves_spec in Hin as (_ & _ & Hcol & Hps & _).
  apply list_elem_of_In, getPseudoLegalMoves_iff in Hps. unfold pseudoMove in Hps.
  assert (Hstep : forall offs, ~ stepMove s r c offs m).
  { intros offs (o & _ & _ & ->). discriminate Hcas. }
  assert (Hslide : forall dirs, ~ slideMove s r c dirs m).
  { intros dirs (d & k & _ & _ & _ & _ & ->). discriminate Hcas. }
  destruct (type (at_ s r c)); try done; try (now apply Hstep in Hps);
    try (now apply Hslide in Hps).
  - exfalso. unfold pawnMove in Hps. cbv zeta in Hps.
    destruct Hps as [(_ & _ & ->) | [(_ & _ & _ & _ & ->) |
                    [(dc & _ & _ & _ & _ & ->) | (dc & _ & _ & _ & _ & ->)]]];
      discriminate Hcas.
  - split; [done|]. destruct Hps as [Hps | Hps]; [now apply Hstep in Hps|].
    now rewrite <- Hcol.
Qed.

Lemma castlingMove_from s c m : castlingMove s c m -> fromCol m = 4.
Proof. unfold castlingMove. intuition (subst; reflexivity). Qed.

(** X9. Castling rights never return.  From a reachable state on, through
    any further calls of [makeMove] and [getBestMove], each of the six
    moved-flags that is set stays set; so wherever castling is later in a
    legal-move list, the flag of that king and the flag of that rook were
    clear all along. *)
Theorem castling_rights_never_return (s s' : GameState) :
  reachable s -> laterState s s' ->
  castlingFlagsGrow s s' /\
  (forall r c m, In m (fst (getLegalMoves r c s')) -> isCastling m = true ->
     (currentPlayer s' = WHITE ->
      whiteKingMoved s = false /\
      (toCol m = 6 -> whiteRookHMoved s = false) /\
      (toCol m = 2 -> whiteRookAMoved s = false)) /\
     (currentPlayer s' = BLACK ->
      blackKingMoved s = false /\
      (toCol m = 6 -> blackRookHMoved s = false) /\
      (toCol m = 2 -> blackRookAMoved s = false))).
Proof.
  intros Hr Hl.
  pose proof (laterState_flags s s' Hr Hl) as Hf.
  split; [exact Hf|]. intros r c m Hin Hcas.
  pose proof (laterState_reachable s s' Hr Hl) as Hr'.
  pose proof (reachable_wf _ Hr') as Hwf'.
  rewrite getLegalMoves_eq in Hin by done. cbn [fst] in Hin.
  destruct (legal_castling_move s' r c m Hwf' Hin Hcas) as [_ Hc].
  destruct Hf as (H1 & H2 & H3 & H4 & H5 & H6).
  assert (Hno : forall b b' : bool, (b = true -> b' = true) -> b' = false -> b = false).
  { intros [] [] H H'; auto; try discriminate. specialize (H eq_refl). discriminate. }
  unfold castlingMove in Hc.
  split; intros Hp; rewrite Hp in Hc;
    destruct Hc as [(Hcol & Hk & Hside) | (Hcol & Hk & Hside)]; try discriminate Hcol;
    (split; [eapply Hno; eauto|]);
    destruct Hside as [(Hrk & _ & _ & ->) | (Hrk & _ & _ & _ & ->)];
    cbn [toCol]; split; intros; try lia; eapply Hno; eauto.
Qed.

Lemma castling_rights_never_return_witness :
  castlingFlagsGrow initializeBoard (snd castlingReady) /\
  (forall r c m, In m (fst (getLegalMoves r c (snd castlingReady))) -> isCastling m = true ->
     (currentPlayer (snd castlingReady) = WHITE ->
      whiteKingMoved initializeBoard = false /\
      (toCol m = 6 -> whiteRookHMoved initializeBoard = false) /\
      (toCol m = 2 -> whiteRookAMoved initializeBoard = false)) /\
     (currentPlayer (snd castlingReady) = BLACK ->
      blackKingMoved initializeBoard = false /\
      (toCol m = 6 -> blackRookHMoved initializeBoard = false) /\
      (toCol m = 2 -> blackRookAMoved initializeBoard = false))).
Proof.
  apply (castling_rights_never_return initializeBoard (snd castlingReady)).
  - apply reachable_init.
  - apply laterState_playMoves.
Defined.

(** X10. Castling is listed only with rights and room: in a reachable
    state a castling move in the legal-move list of a square means that
    the square is the home square of the king of the side to move, and
    that the move is the one [getKingMoves] builds when the king's flag
    and the rook's flag are clear and the squares between them are empty. *)
Theorem castling_needs_rights_and_room (s : GameState) (r c : Z) (m : Move) :
  reachable s -> In m (fst (getLegalMoves r c s)) -> isCastling m = true ->
  type (at_ s r c) = KING /\ color (at_ s r c) = currentPlayer s /\
  fromRow m = r /\ fromCol m = c /\ c = 4 /\
  castlingMove s (currentPlayer s) m.
Proof.
  intros Hr Hin Hcas. apply reachable_Inv in Hr as (Hwf & _ & Hk).
  rewrite getLegalMoves_eq in Hin by done. cbn [fst] in Hin.
  destruct (legal_castling_move s r c m Hwf Hin Hcas) as [Ht Hc].
  destruct (legal_move_facts s r c m Hwf Hk Hin) as (Hfr & Hfc & _ & _ & Hcol & _).
  rewrite Hfr, Hfc in Hcol.
  repeat split; auto.
  pose proof (castlingMove_from _ _ _ Hc) as H4. congruence.
Qed.

Lemma castling_needs_rights_and_room_witness :
  type (at_ (snd castlingReady) 7 4) = KING /\
  color (at_ (snd castlingReady) 7 4) = currentPlayer (snd castlingReady) /\
  fromRow castleKingside = 7 /\ fromCol castleKingside = 4 /\ 4 = 4 /\
  castlingMove (snd castlingReady) (currentPlayer (snd castlingReady)) castleKingside.
Proof.
  apply (castling_needs_rights_and_room (snd castlingReady) 7 4 castleKingside).
  - apply reachable_playMoves, reachable_init.
  - vm_compute. tauto.
  - reflexivity.
Defined.

(** X11. A move never leaves the mover in check.  In a reachable state,
    when [makeMove] succeeds with a promotion piece that is neither
    [EMPTY] nor [KING] (the boundary passes [QUEEN]), the side that moved
    is not in check in the resulting state: what [isLegalMove] tested on
    its trial position holds of the position [executeMoveInternal]
    leaves. *)
Theorem makeMove_never_leaves_mover_in_check (s s' : GameState) (fr fc tr tc : Z)
    (q : PieceType) :
  reachable s -> q <> EMPTY -> q <> KING ->
  makeMove fr fc tr tc q s = (true, s') ->
  isInCheck s' (currentPlayer s) = false.
Proof.
  intros Hr Hq Hqk Hm. apply reachable_Inv in Hr as (Hwf & _ & Hk).
  eapply makeMove_not_in_check; eauto.
Qed.

Lemma makeMove_never_leaves_mover_in_check_witness :
  isInCheck (snd (makeMove 7 4 7 6 QUEEN (snd checkedBeforeCastling)))
            (currentPlayer (snd checkedBeforeCastling)) = false.
Proof.
  apply (makeMove_never_leaves_mover_in_check (snd checkedBeforeCastling)
           (snd (makeMove 7 4 7 6 QUEEN (snd checkedBeforeCastling))) 7 4 7 6 QUEEN).
  - apply reachable_playMoves, reachable_init.
  - discriminate.
  - discriminate.
  - vm_compute. reflexivity.
Defined.

(** X12. [getPiece]'s encoding: the result is 0 exactly for a square off
    the board or an empty one, and otherwise its tens digit is the
    enumerator of the colour and its units digit the enumerator of the
    type, so the piece can be read back from it. *)
Theorem getPiece_encoding (s : GameState) (row col : Z) :
  (getPiece s row col = 0 <->
   isValidPosition row col = false \/ type (at_ s row col) = EMPTY) /\
  (getPiece s row col <> 0 ->
   getPiece s row col / 10 = colorCode (color (at_ s row col)) /\
   getPiece s row col mod 10 = typeCode (type (at_ s row col))).
Proof.
  unfold getPiece, isValidPosition.
  destruct ((row <? 0) || (row >=? 8) || (col <? 0) || (col >=? 8)) eqn:Hb.
  - assert (Hv : (row >=? 0) && (row <? 8) && (col >=? 0) && (col <? 8) = false).
    { apply orb_true_iff in Hb as [Hb | Hb];
        [apply orb_true_iff in Hb as [Hb | Hb];
         [apply orb_true_iff in Hb as [Hb | Hb]|]|];
        apply not_true_iff_false; rewrite !andb_true_iff; lia. }
    rewrite Hv. split; [tauto | done].
  - assert (Hv : (row >=? 0) && (row <? 8) && (col >=? 0) && (col <? 8) = true).
    { rewrite !orb_false_iff in Hb. rewrite !andb_true_iff. lia. }
    rewrite Hv. cbv zeta.
    case_bool_decide as He.
    + split; [tauto | done].
    + assert (Hc : 0 <= colorCode (color (at_ s row col)) <= 2).
      { destruct (color (at_ s row col)); cbn; lia. }
      assert (Ht : 1 <= typeCode (type (at_ s row col)) <= 6).
      { destruct (type (at_ s row col)); cbn; try lia. done. }
      split.
      * split; [lia|]. intros [H | H]; [discriminate | contradiction].
      * intros _. split.
        -- symmetry. apply (Z.div_unique _ 10 _ (typeCode (type (at_ s row col)))); lia.
        -- symmetry. apply (Z.mod_unique _ 10 (colorCode (color (at_ s row col)))); lia.
Qed.

Lemma pawnDirection_cases p :
  (color p = WHITE /\ pawnDirection p = -1 /\ pawnStartRow p = 6) \/
  (color p <> WHITE /\ pawnDirection p = 1 /\ pawnStartRow p = 1).
Proof. unfold pawnDirection, pawnStartRow. case_bool_decide; auto. Qed.

(** A pawn move over two ranks is the double step. *)
Lemma pawnMove_double s row col m :
  pawnMove s row col m -> Z.abs (fromRow m - toRow m) = 2 ->
  toRow m = row + 2 * pawnDirection (at_ s row col) /\ toCol m = col /\
  row = pawnStartRow (at_ s row col).
Proof.
  unfold pawnMove. cbv zeta.
  destruct (pawnDirection_cases (at_ s row col)) as [(_ & Hd & _) | (_ & Hd & _)];
    rewrite Hd;
    intros [(_ & _ & ->) | [(_ & _ & Hs & _ & ->) |
           [(dc & _ & _ & _ & _ & ->) | (dc & _ & _ & _ & _ & ->)]]];
    cbn [fromRow toRow toCol]; intros; try lia; auto.
Qed.

(** X13. The en-passant capture is offered for one move only, beside the
    pawn that has just advanced.  If after a successful [makeMove] from a
    reachable state some legal-move list holds an en-passant capture, then
    the move just made was a pawn's advance over two ranks, the capture is
    by a pawn standing on the rank that pawn reached, one file aside, and
    its destination is the square the pawn skipped. *)
Theorem enPassant_only_after_double_step (s s' : GameState) (fr fc tr tc : Z)
    (q : PieceType) (r c : Z) (m : Move) :
  reachable s -> makeMove fr fc tr tc q s = (true, s') ->
  In m (fst (getLegalMoves r c s')) -> isEnPassant m = true ->
  type (at_ s fr fc) = PAWN /\ Z.abs (fr - tr) = 2 /\ tc = fc /\
  type (at_ s' r c) = PAWN /\ r = tr /\ (c = fc - 1 \/ c = fc + 1) /\
  toRow m = (fr + tr) / 2 /\ toCol m = fc.
Proof.
  intros Hr Hm Hin Hep.
  pose proof (reachable_player _ Hr) as Hpl.
  apply reachable_Inv in Hr as (Hwf & _ & Hk).
  pose proof (makeMove_enPassant_target s fr fc tr tc q s' Hwf Hm) as (Hc & Hrow & Htc).
  cbv zeta in Hc, Hrow, Htc.
  destruct (makeMove_Some _ _ _ _ _ _ _ Hwf Hm) as (m0 & Hin0 & Htr & Htc0 & Hs').
  apply list_elem_of_In in Hin0.
  destruct (legal_move_facts s fr fc m0 Hwf Hk Hin0)
    as (Hfr & Hfc & Hsh & _ & Hcol0 & _ & _ & _).
  rewrite Hfr, Hfc in Hcol0.
  assert (Hwf' : wf s') by (subst s'; now apply wf_executeMoveInternal).
  assert (Hcp : currentPlayer s' = opponent (currentPlayer s)).
  { subst s'. pose proof (meta_executeMoveInternal m0 q s) as H. cbv zeta in H. apply H. }
  rewrite getLegalMoves_eq in Hin by done. cbn [fst] in Hin.
  apply list_elem_of_In, legalMoves_spec in Hin as (Hv & _ & Hcol & _ & _ & Hps).
  destruct Hps as [Hto _ _ Hpe _ _].
  destruct (Hpe Hep) as (Htp & _ & Hmr & Hmc & Hmer & Hmec).
  apply valid_bounds in Hto.
  destruct (bool_decide (type (at_ s fr fc) = PAWN) && (Z.abs (fr - tr) =? 2)) eqn:Hd;
    [| lia].
  apply andb_true_iff in Hd as [Hpawn%bool_decide_eq_true Habs%Z.eqb_eq].
  specialize (Htc eq_refl).
  (* the move made was the double step *)
  assert (Hgeo : tr = fr + 2 * pawnDirection (at_ s fr fc)).
  { apply list_elem_of_In in Hin0.
    apply legalMoves_spec in Hin0 as (_ & _ & _ & Hps0 & _).
    apply list_elem_of_In, getPseudoLegalMoves_iff in Hps0.
    unfold pseudoMove in Hps0. rewrite Hpawn in Hps0.
    destruct (pawnMove_double s fr fc m0 Hps0) as (H1 & _); [rewrite Hfr, Htr; exact Habs|].
    now rewrite <- Htr. }
  assert (Hdirs : pawnDirection (at_ s' r c) = - pawnDirection (at_ s fr fc)).
  { unfold pawnDirection. rewrite Hcol, Hcp, Hcol0. unfold opponent.
    destruct Hpl as [-> | ->]; reflexivity. }
  assert (Hd0 : pawnDirection (at_ s fr fc) = -1 \/ pawnDirection (at_ s fr fc) = 1).
  { unfold pawnDirection. case_bool_decide; auto. }
  assert (Hmid : (fr + tr) / 2 = fr + pawnDirection (at_ s fr fc)).
  { rewrite Hgeo. replace (fr + (fr + 2 * pawnDirection (at_ s fr fc)))
      with ((fr + pawnDirection (at_ s fr fc)) * 2) by lia.
    apply Z.div_mul. lia. }
  rewrite Hrow in Hmer. rewrite Hc in Hmec.
  split; [done|]. split; [done|]. split; [done|]. split; [done|].
  split; [lia|]. split; [lia|]. split; congruence.
Qed.

Lemma enPassant_only_after_double_step_witness :
  type (at_ (snd (playMoves [(6,4,4,4); (1,0,2,0); (4,4,3,4)] initializeBoard)) 1 3) = PAWN /\
  Z.abs (1 - 3) = 2 /\ 3 = 3 /\
  type (at_ (snd enPassantReady) 3 4) = PAWN /\ 3 = 3 /\ (4 = 3 - 1 \/ 4 = 3 + 1) /\
  toRow (mkMove 3 4 2 3 true false true false 0) = (1 + 3) / 2 /\
  toCol (mkMove 3 4 2 3 true false true false 0) = 3.
Proof.
  apply (enPassant_only_after_double_step
           (snd (playMoves [(6,4,4,4); (1,0,2,0); (4,4,3,4)] initializeBoard))
           (snd enPassantReady) 1 3 3 3 QUEEN 3 4
           (mkMove 3 4 2 3 true false true false 0)).
  - apply reachable_playMoves, reachable_init.
  - vm_compute. reflexivity.
  - vm_compute. tauto.
  - reflexivity.
Defined.

(** X14. What a successful [makeMove] writes.  From a reachable state:
    the piece on the origin belongs to the side to move; the origin is
    left empty; the destination holds that piece marked as moved, with the
    promotion type when a pawn reaches row 0 or row 7; and every other
    square of the board is unchanged, except the two rook squares of the
    home rank when a king castles and the square beside the origin that an
    en-passant capture empties. *)
Theorem makeMove_board_effect (s s' : GameState) (fr fc tr tc : Z) (q : PieceType) :
  reachable s -> makeMove fr fc tr tc q s = (true, s') ->
  let p := at_ s fr fc in
  color p = currentPlayer s /\
  at_ s' fr fc = emptyPiece /\
  at_ s' tr tc =
    mkPiece (if bool_decide (type p = PAWN) && lastRank tr then q else type p)
            (color p) true /\
  (forall r c, isValidPosition r c = true ->
     (r <> fr \/ c <> fc) -> (r <> tr \/ c <> tc) ->
     at_ s' r c = at_ s r c \/
     (type p = KING /\ r = fr /\ fc = 4 /\
      ((tc = 6 /\ (c = 5 \/ c = 7)) \/ (tc = 2 /\ (c = 0 \/ c = 3)))) \/
     (type p = PAWN /\ r = fr /\ c = tc /\ tc <> fc /\ at_ s' r c = emptyPiece)).
Proof.
  intros Hr Hm. cbv zeta.
  pose proof (reachable_Inv _ Hr) as (Hwf & Hepok & Hk).
  destruct (makeMove_Some _ _ _ _ _ _ _ Hwf Hm) as (m & Hin & Htr & Htc & ->).
  apply list_elem_of_In in Hin.
  destruct (legal_move_facts s fr fc m Hwf Hk Hin)
    as (Hfr & Hfc & Hsh & Hne & Hcol & Hpromo & _ & Hps).
  clear Hm Hin. subst fr fc tr tc.
  pose proof Hsh as (Hfrom & Hto & Hdiff & Hcs & Heps).
  destruct Hps as [_ Hplain Hcastle Hpe Hpp Hpawn].
  assert (Hat : forall r c, isValidPosition r c = true ->
            at_ (executeMoveInternal m q s) r c = executedAt m q s r c).
  { intros. now apply at_executeMoveInternal. }
  split; [exact Hcol|]. split; [| split].
  - rewrite Hat by done. unfold executedAt.
    destruct ((fromRow m =? toRow m) && (fromCol m =? toCol m)) eqn:E.
    + apply andb_true_iff in E as [?%Z.eqb_eq ?%Z.eqb_eq]. lia.
    + now rewrite !Z.eqb_refl.
  - rewrite Hat by done. unfold executedAt. rewrite !Z.eqb_refl.
    cbn [andb]. f_equal.
    destruct (isPromotion m) eqn:Hpr.
    + rewrite (bool_decide_eq_true_2 _ (Hpp eq_refl)). cbn [andb].
      destruct (Hpawn (Hpp eq_refl)) as (_ & Hflag & _).
      destruct (isEnPassant m) eqn:Hen.
      * destruct (Heps eq_refl) as (Hx & _). congruence.
      * specialize (Hflag eq_refl). unfold lastRank. now rewrite <- Hflag.
    + case_bool_decide as Hpw; [| done]. cbn [andb].
      destruct (Hpawn Hpw) as (_ & Hflag & _).
      destruct (isEnPassant m) eqn:Hen.
      * destruct (Hpe eq_refl) as (_ & _ & _ & _ & Her & _).
        unfold lastRank. apply valid_bounds in Hto.
        destruct Hepok as [He | [He | He]]; rewrite He in Her; rewrite Her;
          [lia | reflexivity | reflexivity].
      * specialize (Hflag eq_refl). unfold lastRank. now rewrite <- Hflag.
  - intros r c Hv Hnf Hnt. rewrite Hat by done. unfold executedAt.
    destruct ((r =? toRow m) && (c =? toCol m)) eqn:E1.
    { apply andb_true_iff in E1 as [?%Z.eqb_eq ?%Z.eqb_eq]. lia. }
    destruct ((r =? fromRow m) && (c =? fromCol m)) eqn:E2.
    { apply andb_true_iff in E2 as [?%Z.eqb_eq ?%Z.eqb_eq]. lia. }
    destruct (isCastling m) eqn:Hcas; cbn [andb].
    + destruct (Hcastle eq_refl) as (Hking & Hen & _).
      destruct (Hcs eq_refl) as (_ & _ & Hc4 & _ & Hside).
      rewrite Hen. cbn [andb]. unfold rookFrom, rookTo.
      destruct ((r =? fromRow m) && (c =? (if toCol m =? 6 then 7 else 0))) eqn:E3.
      { apply andb_true_iff in E3 as [?%Z.eqb_eq E3%Z.eqb_eq].
        right. left. destruct Hside as [Hs | Hs]; rewrite Hs in *; cbn in E3;
          repeat split; auto. }
      destruct ((r =? fromRow m) && (c =? (if toCol m =? 6 then 5 else 3))) eqn:E4.
      { apply andb_true_iff in E4 as [?%Z.eqb_eq E4%Z.eqb_eq].
        right. left. destruct Hside as [Hs | Hs]; rewrite Hs in *; cbn in E4;
          repeat split; auto. }
      now left.
    + destruct (isEnPassant m) eqn:Hen; cbn [andb]; [| now left].
      destruct (Hpe eq_refl) as (Hpw & _ & Hrow & Hcol' & _).
      destruct ((r =? captureRowFor (color (at_ s (fromRow m) (fromCol m))) m)
                && (c =? toCol m)) eqn:E5; [| now left].
      apply andb_true_iff in E5 as [E5%Z.eqb_eq ?%Z.eqb_eq].
      right. right. unfold captureRowFor in E5.
      unfold pawnDirection in Hrow.
      repeat split; auto; [case_bool_decide; lia | lia].
Qed.

Lemma makeMove_board_effect_witness :
  let p := at_ (snd enPassantReady) 3 4 in
  let s' := snd (makeMove 3 4 2 3 QUEEN (snd enPassantReady)) in
  color p = currentPlayer (snd enPassantReady) /\
  at_ s' 3 4 = emptyPiece /\
  at_ s' 2 3 =
    mkPiece (if bool_decide (type p = PAWN) && lastRank 2 then QUEEN else type p)
            (color p) true /\
  (forall r c, isValidPosition r c = true ->
     (r <> 3 \/ c <> 4) -> (r <> 2 \/ c <> 3) ->
     at_ s' r c = at_ (snd enPassantReady) r c \/
     (type p = KING /\ r = 3 /\ 4 = 4 /\
      ((3 = 6 /\ (c = 5 \/ c = 7)) \/ (3 = 2 /\ (c = 0 \/ c = 3)))) \/
     (type p = PAWN /\ r = 3 /\ c = 3 /\ 3 <> 4 /\ at_ s' r c = emptyPiece)).
Proof.
  apply (makeMove_board_effect (snd enPassantReady)
           (snd (makeMove 3 4 2 3 QUEEN (snd enPassantReady))) 3 4 2 3 QUEEN).
  - apply reachable_playMoves, reachable_init.
  - vm_compute. reflexivity.
Defined.

(** X15. [getLegalMoves] is an observer: on a board of 64 squares it
    leaves the state exactly as it was (every trial of [isLegalMove] is
    undone), and it lists a move exactly when the square is on the board
    and holds a piece of the side to move, the move is one of the
    pseudo-legal moves of the square, and [isLegalMove] accepts it. *)
Theorem getLegalMoves_characterised (s : GameState) (row col : Z) (m : Move) :
  length (board s) = 64%nat ->
  snd (getLegalMoves row col s) = s /\
  (In m (fst (getLegalMoves row col s)) <->
   isValidPosition row col = true /\ type (at_ s row col) <> EMPTY /\
   color (at_ s row col) = currentPlayer s /\
   In m (getPseudoLegalMoves s row col) /\ fst (isLegalMove m s) = true).
Proof.
  intros Hwf. rewrite getLegalMoves_eq by exact Hwf. cbn [fst snd].
  split; [reflexivity|]. rewrite isLegalMove_fst. unfold legalMoves.
  destruct (isValidPosition row col); cbn [negb].
  - case_bool_decide as He; cbn [orb].
    + cbn [In]. tauto.
    + case_bool_decide as Hc.
      * cbn [In]. tauto.
      * rewrite <- !list_elem_of_In, list_elem_of_filter.
        assert (color (at_ s row col) = currentPlayer s).
        { destruct (decide (color (at_ s row col) = currentPlayer s)); [done | contradiction]. }
        tauto.
  - cbn [In]. intuition discriminate.
Qed.

Lemma getLegalMoves_characterised_witness :
  snd (getLegalMoves 6 4 initializeBoard) = initializeBoard /\
  (In (mkMove 6 4 4 4 false false false false 0) (fst (getLegalMoves 6 4 initializeBoard)) <->
   isValidPosition 6 4 = true /\ type (at_ initializeBoard 6 4) <> EMPTY /\
   color (at_ initializeBoard 6 4) = currentPlayer initializeBoard /\
   In (mkMove 6 4 4 4 false false false false 0) (getPseudoLegalMoves initializeBoard 6 4) /\
   fst (isLegalMove (mkMove 6 4 4 4 false false false false 0) initializeBoard) = true).
Proof.
  apply (getLegalMoves_characterised initializeBoard 6 4).
  vm_compute. reflexivity.
Defined.

Lemma evaluateBoard_sum s :
  evaluateBoard s = sumOver squares (fun r c => squareValue (at_ s r c) r c).
Proof.
  unfold evaluateBoard, sumOver.
  assert (H : forall l acc,
    fold_left (fun score rc =>
      let r := fst rc in
      let c := snd rc in
      let piece := at_ s r c in
      if bool_decide (type piece <> EMPTY) then
        let value := pieceValues (type piece) in
        let value :=
          if bool_decide (type piece = PAWN) then
            value + (if bool_decide (color piece = WHITE)
                     then tableAt pawnTable r c else tableAt pawnTable (7 - r) c)
          else if bool_decide (type piece = KNIGHT) then
            value + (if bool_decide (color piece = WHITE)
                     then tableAt knightTable r c else tableAt knightTable (7 - r) c)
          else value in
        let value :=
          if (r >=? 3) && (r <=? 4) && ((c >=? 3) && (c <=? 4)) then value + 10 else value in
        if bool_decide (color piece = WHITE) then score + value else score - value
      else score) l acc
    = acc + fold_right (fun rc acc => squareValue (at_ s (fst rc) (snd rc)) (fst rc) (snd rc) + acc) 0 l).
  { induction l as [|[r c] l IH]; intros acc; cbn [fold_left fold_right fst snd]; [lia|].
    rewrite IH. unfold squareValue. cbv zeta.
    destruct (bool_decide (type (at_ s r c) <> EMPTY)); [| lia].
    destruct (bool_decide (color (at_ s r c) = WHITE)); lia. }
  rewrite H. lia.
Qed.

Lemma sumOver_ext l g h :
  (forall r c, In (r, c) l -> g r c = h r c) -> sumOver l g = sumOver l h.
Proof.
  unfold sumOver. induction l as [|[r c] l IH]; intros H; cbn [fold_right fst snd]; [done|].
  rewrite (H r c) by (now left). rewrite IH; [done|].
  intros r' c' Hin. apply H. now right.
Qed.

Lemma sumOver_neg l g : sumOver l (fun r c => - g r c) = - sumOver l g.
Proof.
  unfold sumOver. induction l as [|[r c] l IH]; cbn [fold_right fst snd]; [done|].
  rewrite IH. lia.
Qed.

(** Summing over the squares with the ranks reversed is summing over the
    squares. *)
Lemma sumOver_mirror g : sumOver squares (fun r c => g (7 - r) c) = sumOver squares g.
Proof.
  unfold sumOver, squares, range8.
  cbn [flat_map map app fold_right fst snd].
  change (7 - 0) with 7. change (7 - 1) with 6. change (7 - 2) with 5.
  change (7 - 3) with 4. change (7 - 4) with 3. change (7 - 5) with 2.
  change (7 - 6) with 1. change (7 - 7) with 0.
  lia.
Qed.

Lemma squareValue_mirror p p' r c :
  isValidPosition r c = true ->
  type p' = type p -> color p' = swapColor (color p) ->
  (type p <> EMPTY -> color p <> NONE) ->
  squareValue p' r c = - squareValue p (7 - r) c.
Proof.
  intros Hv Ht Hc Hn. apply valid_bounds in Hv.
  unfold squareValue. rewrite Ht, Hc. cbv zeta.
  replace (7 - (7 - r)) with r by lia.
  replace ((7 - r >=? 3) && (7 - r <=? 4)) with ((r >=? 3) && (r <=? 4)).
  2:{ destruct (r >=? 3) eqn:E1, (r <=? 4) eqn:E2,
               (7 - r >=? 3) eqn:E3, (7 - r <=? 4) eqn:E4; try reflexivity; lia. }
  case_bool_decide as He; [| reflexivity].
  specialize (Hn He).
  destruct (color p); [contradiction | |]; cbn [swapColor];
    rewrite ?(bool_decide_eq_true_2 (WHITE = WHITE)) by reflexivity;
    rewrite ?(bool_decide_eq_false_2 (BLACK = WHITE)) by discriminate;
    lia.
Qed.

(** X16. [evaluateBoard] is antisymmetric: its tables for Black are those
    for White read from the other side (lines 491-493), so on a position
    whose pieces all have a colour, reversing the ranks and exchanging
    the colours negates the score. *)
Theorem evaluateBoard_antisymmetric (s s' : GameState) :
  mirrored s s' ->
  (forall r c, isValidPosition r c = true ->
     type (at_ s r c) <> EMPTY -> color (at_ s r c) <> NONE) ->
  evaluateBoard s' = - evaluateBoard s.
Proof.
  intros Hm Hcol. rewrite !evaluateBoard_sum.
  rewrite <- (sumOver_mirror (fun r c => squareValue (at_ s r c) r c)).
  rewrite <- sumOver_neg. apply sumOver_ext. intros r c Hin.
  apply squares_valid in Hin. destruct (Hm r c Hin) as [Ht Hc].
  apply squareValue_mirror; auto.
  apply Hcol. apply valid_bounds in Hin. apply valid_bounds. lia.
Qed.

Lemma evaluateBoard_antisymmetric_witness :
  evaluateBoard (mirrorState (snd castlingReady)) = - evaluateBoard (snd castlingReady).
Proof.
  apply (evaluateBoard_antisymmetric (snd castlingReady) (mirrorState (snd castlingReady))).
  - intros r c Hv. apply valid_bounds in Hv.
    assert (Hr : r = 0 \/ r = 1 \/ r = 2 \/ r = 3 \/ r = 4 \/ r = 5 \/ r = 6 \/ r = 7) by lia.
    assert (Hc : c = 0 \/ c = 1 \/ c = 2 \/ c = 3 \/ c = 4 \/ c = 5 \/ c = 6 \/ c = 7) by lia.
    destruct Hr as [-> | [-> | [-> | [-> | [-> | [-> | [-> | ->]]]]]]];
      destruct Hc as [-> | [-> | [-> | [-> | [-> | [-> | [-> | ->]]]]]]];
      vm_compute; split; reflexivity.
  - intros r c Hv. apply valid_bounds in Hv.
    assert (Hr : r = 0 \/ r = 1 \/ r = 2 \/ r = 3 \/ r = 4 \/ r = 5 \/ r = 6 \/ r = 7) by lia.
    assert (Hc : c = 0 \/ c = 1 \/ c = 2 \/ c = 3 \/ c = 4 \/ c = 5 \/ c = 6 \/ c = 7) by lia.
    destruct Hr as [-> | [-> | [-> | [-> | [-> | [-> | [-> | ->]]]]]]];
      destruct Hc as [-> | [-> | [-> | [-> | [-> | [-> | [-> | ->]]]]]]];
      vm_compute; congruence.
Defined.

Lemma legalMoves_other_colour s r c :
  color (at_ s r c) <> currentPlayer s -> legalMoves s r c = [].
Proof.
  intros H. unfold legalMoves. destruct (negb _); [done|].
  rewrite (bool_decide_eq_true_2 (color _ <> _)) by done.
  now rewrite orb_true_r.
Qed.

Lemma gameOverLoop_eq s sqs :
  wf s ->
  gameOverLoop sqs s =
    (forallb (fun rc => bool_decide (legalMoves s (fst rc) (snd rc) = [])) sqs, s).
Proof.
  intros Hwf. induction sqs as [|[r c] sqs IH]; cbn [gameOverLoop forallb fst snd]; [done|].
  case_bool_decide as Hc.
  - rewrite getLegalMoves_eq by done.
    destruct (legalMoves s r c) as [|m l]; [exact IH | reflexivity].
  - rewrite (legalMoves_other_colour s r c Hc). exact IH.
Qed.

Lemma isGameOver_eq s :
  wf s -> isGameOver s = (bool_decide (allLegalMoves s = []), s).
Proof.
  intros Hwf. unfold isGameOver. rewrite gameOverLoop_eq by done. f_equal.
  unfold allLegalMoves. generalize squares. intros l.
  induction l as [|[r c] l IH]; cbn [forallb flat_map fst snd]; [done|].
  rewrite IH. destruct (legalMoves s r c) as [|m ms]; cbn [app]; [| done].
  now rewrite bool_decide_eq_true_2 by done.
Qed.

Lemma allLegalMoves_nil s :
  wf s -> allLegalMoves s = [] <-> forall r c, fst (getLegalMoves r c s) = [].
Proof.
  intros Hwf. split.
  - intros H r c. rewrite getLegalMoves_eq by done. cbn [fst].
    destruct (legalMoves s r c) as [|m l] eqn:Hl; [done|]. exfalso.
    assert (Hin : In m (allLegalMoves s)).
    { apply allLegalMoves_In. exists r, c. rewrite Hl. now left. }
    rewrite H in Hin. destruct Hin.
  - intros H. destruct (allLegalMoves s) as [|m l] eqn:Hl; [done|]. exfalso.
    assert (Hin : In m (allLegalMoves s)) by (rewrite Hl; now left).
    apply allLegalMoves_In in Hin as (r & c & Hin).
    specialize (H r c). rewrite getLegalMoves_eq in H by done. cbn [fst] in H.
    rewrite H in Hin. destruct Hin.
Qed.

(** X17. [isGameOver] is an observer that answers whether the side to
    move has no legal move: on a board of 64 squares it leaves the state
    as it was and returns [true] exactly when [getLegalMoves] is empty for
    every square.  (It does not tell checkmate from stalemate.) *)
Theorem isGameOver_iff_no_legal_move (s : GameState) :
  length (board s) = 64%nat ->
  snd (isGameOver s) = s /\
  (fst (isGameOver s) = true <-> forall r c, fst (getLegalMoves r c s) = []).
Proof.
  intros Hwf. rewrite isGameOver_eq by exact Hwf. cbn [fst snd].
  split; [reflexivity|]. rewrite bool_decide_eq_true. now apply allLegalMoves_nil.
Qed.

Lemma isGameOver_iff_no_legal_move_witness :
  snd (isGameOver initializeBoard) = initializeBoard /\
  (fst (isGameOver initializeBoard) = true <->
   forall r c, fst (getLegalMoves r c initializeBoard) = []).
Proof.
  apply (isGameOver_iff_no_legal_move initializeBoard).
  vm_compute. reflexivity.
Defined.

(** X18. The computer's move through the boundary.  With a game in a
    reachable state and a difficulty of at least 1, [getComputerMove]
    returns four coordinates and leaves the difficulty as set; the
    coordinates are all -1 exactly when [isGameOver] answers [true] for
    the game as it was, and otherwise the boundary's [makeMove] accepts
    them for the game as it was before the call. *)
Theorem getComputerMove_returns_playable_move (w : Jni.Globals) (s : GameState) (g : Rng) :
  Jni.game w = Some s -> reachable s -> 1 <= Jni.aiDifficulty w ->
  exists fr fc tr tc g' w',
    Jni.getComputerMove g w = Some ([fr; fc; tr; tc], g', w') /\
    Jni.aiDifficulty w' = Jni.aiDifficulty w /\
    ((fr, fc, tr, tc) = (-1, -1, -1, -1) <-> fst (Jni.isGameOver w) = true) /\
    ((fr, fc, tr, tc) <> (-1, -1, -1, -1) ->
     fst (Boundary.makeMove (Some s) fr fc tr tc) = true).
Proof.
  intros Hgame Hr Hd. pose proof (reachable_Inv _ Hr) as (Hwf & _ & Hk).
  destruct (getBestMove_sound_inv s (Jni.aiDifficulty w) g Hwf Hk) as
    (m & g' & s' & Hbest & Hnone & Hsome); [lia|].
  exists (fromRow m), (fromCol m), (toRow m), (toCol m), g',
    (Jni.mkGlobals (Some s') (Jni.aiDifficulty w)).
  unfold Jni.getComputerMove, Jni.isGameOver. rewrite Hgame. cbv zeta. rewrite Hbest.
  split; [reflexivity|]. split; [reflexivity|].
  rewrite isGameOver_eq by done. cbn [fst].
  unfold isNoMove, coords in Hnone, Hsome.
  split.
  - rewrite Hnone, bool_decide_eq_true. symmetry. now apply allLegalMoves_nil.
  - intros Hne. destruct (Hsome Hne) as (m' & Hin & Htr & Htc).
    unfold Boundary.makeMove.
    pose proof (makeMove_iff_legal_wf s (fromRow m) (fromCol m) (toRow m) (toCol m) QUEEN Hwf)
      as [Hiff _].
    destruct (makeMove (fromRow m) (fromCol m) (toRow m) (toCol m) QUEEN s) as [ok s2].
    cbn [fst] in *. apply Hiff. exists m'. done.
Qed.

Lemma getComputerMove_returns_playable_move_witness :
  exists fr fc tr tc g' w',
    Jni.getComputerMove [] (Jni.setDifficulty 1 (Jni.initGame Jni.start))
    = Some ([fr; fc; tr; tc], g', w') /\
    Jni.aiDifficulty w' = Jni.aiDifficulty (Jni.setDifficulty 1 (Jni.initGame Jni.start)) /\
    ((fr, fc, tr, tc) = (-1, -1, -1, -1) <->
     fst (Jni.isGameOver (Jni.setDifficulty 1 (Jni.initGame Jni.start))) = true) /\
    ((fr, fc, tr, tc) <> (-1, -1, -1, -1) ->
     fst (Boundary.makeMove (Some initializeBoard) fr fc tr tc) = true).
Proof.
  apply (getComputerMove_returns_playable_move
           (Jni.setDifficulty 1 (Jni.initGame Jni.start)) initializeBoard []).
  - reflexivity.
  - apply reachable_init.
  - vm_compute. discriminate.
Defined.

(** *** The relation *)
Lemma faceEq_refl p : faceEq p p.
Proof. split; reflexivity. Qed.

Lemma sameMeta_sym s s' : sameMeta s s' -> sameMeta s' s.
Proof. unfold sameMeta. intuition congruence. Qed.

Lemma sameFaces_refl s : wf s -> sameFaces s s.
Proof.
  intros H. split; [done|]. split; [done|]. split; [apply sameMeta_refl|].
  intros. apply faceEq_refl.
Qed.

Lemma sameFaces_sym s s' : sameFaces s s' -> sameFaces s' s.
Proof.
  intros (H1 & H2 & H3 & H4). split; [done|]. split; [done|].
  split; [now apply sameMeta_sym|]. intros r c. destruct (H4 r c). split; congruence.
Qed.

Lemma sameFaces_trans s1 s2 s3 : sameFaces s1 s2 -> sameFaces s2 s3 -> sameFaces s1 s3.
Proof.
  intros (H1 & H2 & H3 & H4) (H1' & H2' & H3' & H4').
  split; [done|]. split; [done|]. split; [eapply sameMeta_trans; eauto|].
  intros r c. destruct (H4 r c), (H4' r c). split; congruence.
Qed.

Lemma sameFaces_type s s' r c : sameFaces s s' -> type (at_ s r c) = type (at_ s' r c).
Proof. intros (_ & _ & _ & H). apply H. Qed.

Lemma sameFaces_color s s' r c : sameFaces s s' -> color (at_ s r c) = color (at_ s' r c).
Proof. intros (_ & _ & _ & H). apply H. Qed.

Lemma sameFaces_at s s' r c : sameFaces s s' -> faceEq (at_ s r c) (at_ s' r c).
Proof. intros (_ & _ & _ & H). apply H. Qed.

Lemma sameFaces_put s s' r c p p' :
  sameFaces s s' -> faceEq p p' -> sameFaces (put r c p s) (put r c p' s').
Proof.
  intros (H1 & H2 & H3 & H4) Hp.
  split; [now apply wf_put|]. split; [now apply wf_put|]. split.
  - eapply sameMeta_trans; [| apply sameMeta_put].
    eapply sameMeta_trans; [apply sameMeta_sym, sameMeta_put | exact H3].
  - intros r' c'. rewrite !at_put by done. destruct (_ && _); [exact Hp | apply H4].
Qed.

Lemma sameFaces_withPlayer s s' p :
  sameFaces s s' -> sameFaces (withPlayer s p) (withPlayer s' p).
Proof.
  intros (H1 & H2 & H3 & H4). split; [exact H1|]. split; [exact H2|]. split.
  - unfold sameMeta in *. autorewrite with game. tauto.
  - exact H4.
Qed.

Lemma sameFaces_withEnPassant s s' a b :
  sameFaces s s' -> sameFaces (withEnPassant s a b) (withEnPassant s' a b).
Proof.
  intros (H1 & H2 & H3 & H4). split; [exact H1|]. split; [exact H2|]. split.
  - unfold sameMeta in *. autorewrite with game. tauto.
  - exact H4.
Qed.

Lemma sameFaces_withFlags s s' a b c d e f :
  sameFaces s s' -> sameFaces (withFlags s a b c d e f) (withFlags s' a b c d e f).
Proof.
  intros (H1 & H2 & H3 & H4). split; [exact H1|]. split; [exact H2|]. split.
  - unfold sameMeta in *. autorewrite with game. tauto.
  - exact H4.
Qed.

Lemma sameFaces_meta s s' : sameFaces s s' -> sameMeta s s'.
Proof. intros (_ & _ & H & _). exact H. Qed.

Lemma sameFaces_player s s' : sameFaces s s' -> currentPlayer s' = currentPlayer s.
Proof. intros (_ & _ & H & _). apply H. Qed.

Lemma sameFaces_occ s s' : sameFaces s s' -> sameOccupancy s s'.
Proof.
  intros H r c. rewrite (sameFaces_type s s' r c H), (sameFaces_color s s' r c H). tauto.
Qed.

(** *** The generators read types and colours only *)
Lemma stepMoves_faces s s' row col offsets moves :
  sameFaces s s' ->
  stepMoves s row col offsets moves = stepMoves s' row col offsets moves.
Proof.
  intros H. unfold stepMoves. revert moves.
  induction offsets as [|o offsets IH]; intros moves; cbn [fold_left]; [done|].
  rewrite IH.
  rewrite (sameFaces_type s s' (row + fst o) (col + snd o) H),
          (sameFaces_color s s' (row + fst o) (col + snd o) H),
          (sameFaces_color s s' row col H).
  reflexivity.
Qed.

Lemma slideRay_faces s s' row col dr dc dists moves :
  sameFaces s s' ->
  slideRay s row col dr dc dists moves = slideRay s' row col dr dc dists moves.
Proof.
  intros H. revert moves.
  induction dists as [|d dists IH]; intros moves; cbn [slideRay]; [done|].
  cbv zeta.
  rewrite (sameFaces_type s s' (row + dr * d) (col + dc * d) H),
          (sameFaces_color s s' (row + dr * d) (col + dc * d) H),
          (sameFaces_color s s' row col H), IH.
  reflexivity.
Qed.

Lemma getSlidingMoves_faces s s' row col directions moves :
  sameFaces s s' ->
  getSlidingMoves s row col directions moves = getSlidingMoves s' row col directions moves.
Proof.
  intros H. unfold getSlidingMoves. revert moves.
  induction directions as [|d ds IH]; intros moves; cbn [fold_left]; [done|].
  now rewrite (slideRay_faces s s'), IH.
Qed.

Lemma getPawnMoves_faces s s' row col moves :
  sameFaces s s' -> getPawnMoves s row col moves = getPawnMoves s' row col moves.
Proof.
  intros H. rewrite !getPawnMoves_app. f_equal.
  pose proof (sameFaces_meta _ _ H) as (_ & _ & _ & _ & _ & _ & _ & Hc & Hr & _).
  unfold pawnPushes, pawnCaptures, pawnDirection, pawnStartRow. cbv zeta.
  rewrite (sameFaces_color s s' row col H), Hc, Hr.
  set (d := if bool_decide (color (at_ s' row col) = WHITE) then -1 else 1).
  rewrite (sameFaces_type s s' (row + d) col H),
          (sameFaces_type s s' (row + 2 * d) col H),
          (sameFaces_type s s' (row + d) (col + -1) H),
          (sameFaces_color s s' (row + d) (col + -1) H),
          (sameFaces_type s s' (row + d) (col + 1) H),
          (sameFaces_color s s' (row + d) (col + 1) H).
  reflexivity.
Qed.

Lemma castlingMoves_faces s s' p p' moves :
  sameFaces s s' -> faceEq p p' -> castlingMoves s p moves = castlingMoves s' p' moves.
Proof.
  intros H [_ Hp]. unfold castlingMoves, isEmptyAt.
  pose proof (sameFaces_meta _ _ H) as (_ & H1 & H2 & H3 & H4 & H5 & H6 & _).
  rewrite Hp, H1, H2, H3, H4, H5, H6.
  rewrite !(sameFaces_type s s' _ _ H). reflexivity.
Qed.

Lemma getPseudoLegalMoves_faces s s' row col :
  sameFaces s s' -> getPseudoLegalMoves s row col = getPseudoLegalMoves s' row col.
Proof.
  intros H. unfold getPseudoLegalMoves. rewrite (sameFaces_type s s' row col H).
  destruct (type (at_ s' row col)); [reflexivity | ..].
  - now apply getPawnMoves_faces.
  - unfold getKnightMoves. now apply stepMoves_faces.
  - unfold getBishopMoves. now apply getSlidingMoves_faces.
  - unfold getRookMoves. now apply getSlidingMoves_faces.
  - unfold getQueenMoves. now apply getSlidingMoves_faces.
  - unfold getKingMoves. cbv zeta. rewrite (stepMoves_faces s s') by done.
    apply castlingMoves_faces; [done | now apply sameFaces_at].
Qed.

Lemma isInCheck_faces s s' c : sameFaces s s' -> isInCheck s c = isInCheck s' c.
Proof.
  intros H. unfold isInCheck.
  assert (Hk : findKing s c = findKing s' c).
  { unfold findKing. apply find_ext_in. intros [r c0] _. cbn [fst snd].
    now rewrite (sameFaces_type s s' r c0 H), (sameFaces_color s s' r c0 H). }
  rewrite Hk. destruct (findKing s' c) as [[kr kc]|]; [| done].
  apply isSquareAttacked_occ; [now apply sameFaces_occ|].
  intros r c0 _. now apply sameFaces_type.
Qed.

(** *** Legality *)
Ltac faces :=
  repeat first
    [ assumption
    | apply faceEq_refl
    | apply sameFaces_put
    | apply sameFaces_withPlayer
    | apply sameFaces_withEnPassant
    | apply sameFaces_withFlags
    | apply sameFaces_at ].

Lemma trialPosition_faces s s' m :
  sameFaces s s' -> sameFaces (trialPosition m s) (trialPosition m s').
Proof.
  intros H. unfold trialPosition. cbv zeta.
  rewrite (sameFaces_color s s' (fromRow m) (fromCol m) H).
  destruct (isEnPassant m), (isCastling m); faces.
Qed.

Lemma legalNow_faces s s' m : sameFaces s s' -> legalNow s m = legalNow s' m.
Proof.
  intros H. unfold legalNow. rewrite (sameFaces_player s s' H).
  f_equal. apply isInCheck_faces. now apply trialPosition_faces.
Qed.

Lemma filter_ext_all {A} (P Q : A -> Prop) `{!forall x, Decision (P x)}
    `{!forall x, Decision (Q x)} (l : list A) :
  (forall x, P x <-> Q x) -> filter P l = filter Q l.
Proof.
  intros Hext. induction l as [|x l IH]; [done|].
  rewrite !filter_cons, IH.
  destruct (decide (P x)) as [HP | HP], (decide (Q x)) as [HQ | HQ]; try done.
  - now apply Hext in HP.
  - now apply Hext in HQ.
Qed.

Lemma legalMoves_faces s s' row col :
  sameFaces s s' -> legalMoves s row col = legalMoves s' row col.
Proof.
  intros H. unfold legalMoves.
  rewrite (sameFaces_type s s' row col H), (sameFaces_color s s' row col H),
          (sameFaces_player s s' H), (getPseudoLegalMoves_faces s s') by done.
  destruct (negb _); [done|]. destruct (_ || _); [done|].
  apply filter_ext_all. intros m. now rewrite (legalNow_faces s s').
Qed.

Lemma allLegalMoves_faces s s' : sameFaces s s' -> allLegalMoves s = allLegalMoves s'.
Proof.
  intros H. unfold allLegalMoves. generalize squares. intros l.
  induction l as [|[r c] l IH]; cbn [flat_map fst snd]; [done|].
  now rewrite IH, (legalMoves_faces s s').
Qed.

(** *** The executor *)
Lemma captureEnPassant_faces m p p' s s' :
  sameFaces s s' -> faceEq p p' ->
  sameFaces (captureEnPassant m p s) (captureEnPassant m p' s').
Proof.
  intros H [_ Hc]. unfold captureEnPassant. rewrite Hc.
  destruct (isEnPassant m); faces.
Qed.

Lemma moveCastlingRook_faces m s s' :
  sameFaces s s' -> sameFaces (moveCastlingRook m s) (moveCastlingRook m s').
Proof.
  intros H. unfold moveCastlingRook.
  destruct (isCastling m); [| done]. destruct (toCol m =? 6); cbv zeta; faces.
Qed.

Lemma updateEnPassant_faces m p p' s s' :
  sameFaces s s' -> faceEq p p' ->
  sameFaces (updateEnPassant m p s) (updateEnPassant m p' s').
Proof.
  intros H [Ht _]. unfold updateEnPassant. cbv zeta. rewrite Ht.
  pose proof (sameFaces_meta _ _ H) as (_ & _ & _ & _ & _ & _ & _ & _ & Hr & _).
  rewrite Hr. destruct (_ && _); faces.
Qed.

Lemma relocatePiece_faces m p p' s s' :
  sameFaces s s' -> faceEq p p' ->
  sameFaces (relocatePiece m p s) (relocatePiece m p' s').
Proof.
  intros H Hp. unfold relocatePiece. cbv zeta.
  apply sameFaces_put; [faces|].
  assert (Hf : faceEq
    (at_ (put (fromRow m) (fromCol m) emptyPiece (put (toRow m) (toCol m) p s))
         (toRow m) (toCol m))
    (at_ (put (fromRow m) (fromCol m) emptyPiece (put (toRow m) (toCol m) p' s'))
         (toRow m) (toCol m))) by faces.
  destruct Hf as [Ht Hc]. split; cbn [type color]; assumption.
Qed.

Lemma promotePiece_faces m q s s' :
  sameFaces s s' -> sameFaces (promotePiece m q s) (promotePiece m q s').
Proof.
  intros H. unfold promotePiece. destruct (isPromotion m); [| done]. cbv zeta.
  apply sameFaces_put; [done|].
  destruct (sameFaces_at s s' (toRow m) (toCol m) H) as [_ Hc].
  split; cbn [type color]; [reflexivity | assumption].
Qed.

Lemma updateCastlingRights_faces m p p' s s' :
  sameFaces s s' -> faceEq p p' ->
  sameFaces (updateCastlingRights m p s) (updateCastlingRights m p' s').
Proof.
  intros (H1 & H2 & H3 & H4) [Ht Hc].
  split; [now apply wf_updateCastlingRights|].
  split; [now apply wf_updateCastlingRights|]. split.
  - pose proof (meta_updateCastlingRights m p s) as (A1 & A2 & A3 & A4 & A5 & A6 & A7 & A8 & A9 & A10).
    pose proof (meta_updateCastlingRights m p' s') as (B1 & B2 & B3 & B4 & B5 & B6 & B7 & B8 & B9 & B10).
    destruct H3 as (C1 & C2 & C3 & C4 & C5 & C6 & C7 & C8 & C9 & C10).
    unfold sameMeta, isType, isWhite in *.
    rewrite A1, A2, A3, A4, A5, A6, A7, A8, A9, A10.
    rewrite B1, B2, B3, B4, B5, B6, B7, B8, B9, B10.
    rewrite C1, C2, C3, C4, C5, C6, C7, C8, C9, C10, Ht, Hc.
    repeat split; reflexivity.
  - intros r c. unfold at_. rewrite !board_updateCastlingRights. apply H4.
Qed.

Lemma executeMoveInternal_faces m q s s' :
  sameFaces s s' -> sameFaces (executeMoveInternal m q s) (executeMoveInternal m q s').
Proof.
  intros H. unfold executeMoveInternal. cbv zeta.
  pose proof (sameFaces_at s s' (fromRow m) (fromCol m) H) as Hp.
  set (p := at_ s (fromRow m) (fromCol m)) in *.
  set (p' := at_ s' (fromRow m) (fromCol m)) in *.
  assert (H6 : sameFaces
    (updateCastlingRights m p (promotePiece m q (relocatePiece m p
       (updateEnPassant m p (moveCastlingRook m (captureEnPassant m p s))))))
    (updateCastlingRights m p' (promotePiece m q (relocatePiece m p'
       (updateEnPassant m p' (moveCastlingRook m (captureEnPassant m p' s'))))))).
  { apply updateCastlingRights_faces; [| done].
    apply promotePiece_faces, relocatePiece_faces; [| done].
    apply updateEnPassant_faces; [| done].
    apply moveCastlingRook_faces, captureEnPassant_faces; done. }
  rewrite <- (sameFaces_player _ _ H6).
  now apply sameFaces_withPlayer.
Qed.

Lemma makeMove_faces fr fc tr tc q s s' :
  sameFaces s s' ->
  fst (makeMove fr fc tr tc q s) = fst (makeMove fr fc tr tc q s') /\
  sameFaces (snd (makeMove fr fc tr tc q s)) (snd (makeMove fr fc tr tc q s')).
Proof.
  intros H. pose proof H as (Hwf & Hwf' & _).
  rewrite !makeMove_eq by done. rewrite (legalMoves_faces s s') by done.
  destruct (matchingMove _ _ _); cbn [fst snd]; split; try reflexivity; try done.
  now apply executeMoveInternal_faces.
Qed.

(** *** The observers *)
Lemma getPiece_faces s s' r c : sameFaces s s' -> getPiece s r c = getPiece s' r c.
Proof.
  intros H. unfold getPiece. cbv zeta.
  now rewrite (sameFaces_type s s' r c H), (sameFaces_color s s' r c H).
Qed.

Lemma evaluateBoard_faces s s' : sameFaces s s' -> evaluateBoard s = evaluateBoard s'.
Proof.
  intros H. rewrite !evaluateBoard_sum. apply sumOver_ext. intros r c _.
  unfold squareValue. cbv zeta.
  now rewrite (sameFaces_type s s' r c H), (sameFaces_color s s' r c H).
Qed.

Lemma isGameOver_faces s s' :
  sameFaces s s' -> fst (isGameOver s) = fst (isGameOver s').
Proof.
  intros H. pose proof H as (Hwf & Hwf' & _).
  rewrite !isGameOver_eq by done. cbn [fst]. now rewrite (allLegalMoves_faces s s').
Qed.

Lemma searchTrial_faces rec m :
  respectsFaces rec -> respectsFaces (searchTrial rec m).
Proof.
  intros Hrec s s' H. unfold searchTrial. cbv zeta.
  pose proof (sameFaces_meta _ _ H) as (C1 & C2 & C3 & C4 & C5 & C6 & C7 & C8 & C9 & C10).
  pose proof (executeMoveInternal_faces m QUEEN s s' H) as He.
  destruct (Hrec _ _ He) as [Hsc Hst].
  destruct (rec (executeMoveInternal m QUEEN s)) as [sc s1].
  destruct (rec (executeMoveInternal m QUEEN s')) as [sc' s1'].
  cbn [fst snd] in *. split; [exact Hsc|].
  rewrite C1, C2, C3, C4, C5, C6, C7, C8, C9.
  destruct (isEnPassant m); faces.
Qed.

Lemma maxLoop_faces rec moves alpha beta e :
  (forall a b mx, respectsFaces (rec a b mx)) ->
  respectsFaces (maxLoop rec moves alpha beta e).
Proof.
  intros Hrec. revert alpha beta e.
  induction moves as [|m moves IH]; intros alpha beta e s s' H; cbn [maxLoop].
  - split; [reflexivity | exact H].
  - destruct (searchTrial_faces (rec alpha beta false) m (Hrec _ _ _) s s' H) as [Hsc Hst].
    destruct (searchTrial (rec alpha beta false) m s) as [sc s1].
    destruct (searchTrial (rec alpha beta false) m s') as [sc' s1'].
    cbn [fst snd] in *. subst sc'.
    destruct (beta <=? Z.max alpha sc); [split; [reflexivity | exact Hst]|].
    now apply IH.
Qed.

Lemma minLoop_faces rec moves alpha beta e :
  (forall a b mx, respectsFaces (rec a b mx)) ->
  respectsFaces (minLoop rec moves alpha beta e).
Proof.
  intros Hrec. revert alpha beta e.
  induction moves as [|m moves IH]; intros alpha beta e s s' H; cbn [minLoop].
  - split; [reflexivity | exact H].
  - destruct (searchTrial_faces (rec alpha beta true) m (Hrec _ _ _) s s' H) as [Hsc Hst].
    destruct (searchTrial (rec alpha beta true) m s) as [sc s1].
    destruct (searchTrial (rec alpha beta true) m s') as [sc' s1'].
    cbn [fst snd] in *. subst sc'.
    destruct (Z.min beta sc <=? alpha); [split; [reflexivity | exact Hst]|].
    now apply IH.
Qed.

Lemma minimax_faces depth alpha beta mx : respectsFaces (minimax depth alpha beta mx).
Proof.
  revert alpha beta mx.
  induction depth as [|d IH]; intros alpha beta mx s s' H.
  - cbn [minimax fst snd]. split; [now apply evaluateBoard_faces | exact H].
  - pose proof H as (Hwf & Hwf' & _).
    rewrite !minimax_S, !collectAllMoves_eq by done.
    rewrite <- (allLegalMoves_faces s s' H).
    destruct (allLegalMoves s) as [|m0 l].
    + cbn [fst snd]. split; [| exact H].
      now rewrite (isInCheck_faces s s'), (sameFaces_player s s' H).
    + destruct mx; [now apply maxLoop_faces | now apply minLoop_faces].
Qed.

Lemma givesCheckTrial_fst m s :
  fst (givesCheckTrial m s)
  = isInCheck (executeMoveInternal m QUEEN s) (opponent (currentPlayer s)).
Proof. reflexivity. Qed.

Lemma manualRestore_faces m s s' s1 s1' :
  sameFaces s s' -> sameFaces s1 s1' ->
  sameFaces (manualRestore m s s1) (manualRestore m s' s1').
Proof.
  intros H H1. unfold manualRestore. cbv zeta.
  pose proof (sameFaces_meta _ _ H) as (C1 & _ & _ & _ & _ & _ & _ & C8 & C9 & _).
  rewrite C1, C8, C9. destruct (isEnPassant m); faces.
Qed.

Lemma givesCheckTrial_faces m : respectsFaces (givesCheckTrial m).
Proof.
  intros s s' H.
  pose proof (executeMoveInternal_faces m QUEEN s s' H) as He.
  rewrite !givesCheckTrial_fst, !givesCheckTrial_snd.
  rewrite (sameFaces_player s s' H). split.
  - now apply isInCheck_faces.
  - now apply manualRestore_faces.
Qed.

Lemma orderingScore_faces m g s s' :
  sameFaces s s' ->
  fst (orderingScore m g s) = fst (orderingScore m g s') /\
  sameFaces (snd (orderingScore m g s)) (snd (orderingScore m g s')).
Proof.
  intros H. unfold orderingScore. cbv zeta.
  rewrite (sameFaces_type s s' (toRow m) (toCol m) H).
  destruct (smallNoise g) as [noise g1].
  destruct (givesCheckTrial_faces m s s' H) as [Hb Hs].
  destruct (givesCheckTrial m s) as [b s1], (givesCheckTrial m s') as [b' s1'].
  cbn [fst snd] in *. subst b'.
  rewrite (sameFaces_type s1 s1' (fromRow m) (fromCol m) Hs), (sameFaces_player s1 s1' Hs).
  split; [reflexivity | exact Hs].
Qed.

Lemma orderingLoop_faces l g s s' :
  sameFaces s s' ->
  fst (orderingLoop l g s) = fst (orderingLoop l g s') /\
  sameFaces (snd (orderingLoop l g s)) (snd (orderingLoop l g s')).
Proof.
  revert g s s'. induction l as [|m l IH]; intros g s s' H; cbn [orderingLoop].
  - split; [reflexivity | exact H].
  - destruct (orderingScore_faces m g s s' H) as [H1 H2].
    destruct (orderingScore m g s) as [[m1 g1] s1].
    destruct (orderingScore m g s') as [[m1' g1'] s1'].
    cbn [fst snd] in *. injection H1 as <- <-.
    destruct (IH g1 s1 s1' H2) as [H3 H4].
    destruct (orderingLoop l g1 s1) as [[l2 g2] s2].
    destruct (orderingLoop l g1 s1') as [[l2' g2'] s2'].
    cbn [fst snd] in *. injection H3 as <- <-.
    split; [reflexivity | exact H4].
Qed.

Lemma bestLoop_faces depth l best bs g s s' :
  sameFaces s s' ->
  fst (bestLoop depth l best bs g s) = fst (bestLoop depth l best bs g s') /\
  sameFaces (snd (bestLoop depth l best bs g s)) (snd (bestLoop depth l best bs g s')).
Proof.
  revert best bs g s s'. induction l as [|m l IH]; intros best bs g s s' H; cbn [bestLoop].
  - split; [reflexivity | exact H].
  - cbv zeta.
    assert (Hrec : respectsFaces (fun s0 =>
              minimax depth (-999999) 999999 (bool_decide (currentPlayer s0 = BLACK)) s0)).
    { intros a a' Ha. rewrite (sameFaces_player a a' Ha). now apply minimax_faces. }
    destruct (searchTrial_faces _ m Hrec s s' H) as [Hsc Hst].
    rewrite (sameFaces_player s s' H).
    destruct (searchTrial _ m s) as [sc s1].
    destruct (searchTrial _ m s') as [sc' s1'].
    cbn [fst snd] in *. subst sc'.
    match goal with
    | |- context [let '(better, g0) := ?e in _] => destruct e as [better g1]
    end.
    destruct better; now apply IH.
Qed.

Lemma getBestMove_faces depth g s s' :
  sameFaces s s' ->
  match getBestMove depth g s, getBestMove depth g s' with
  | Some (m, g1, s1), Some (m', g1', s1') => m = m' /\ g1 = g1' /\ sameFaces s1 s1'
  | None, None => True
  | _, _ => False
  end.
Proof.
  intros H. pose proof H as (Hwf & Hwf' & _). unfold getBestMove.
  rewrite !collectAllMoves_eq by done.
  rewrite <- (allLegalMoves_faces s s' H).
  destruct (allLegalMoves s) as [|m0 l]; [done|].
  destruct (depth <=? 0); [done|].
  destruct (orderingLoop_faces (m0 :: l) g s s' H) as [H1 H2].
  destruct (orderingLoop (m0 :: l) g s) as [[l1 g1] s1].
  destruct (orderingLoop (m0 :: l) g s') as [[l1' g1'] s1'].
  cbn [fst snd] in *. injection H1 as <- <-.
  rewrite (sameFaces_player s1 s1' H2).
  set (sorted := sortByScore l1).
  set (bs := if bool_decide (currentPlayer s1 = WHITE) then -999999 else 999999).
  destruct (bestLoop_faces (Z.to_nat (depth - 1)) sorted (hd noMove sorted) bs g1 s1 s1' H2)
    as [H3 H4].
  destruct (bestLoop _ sorted _ bs g1 s1) as [[mb gb] sb].
  destruct (bestLoop _ sorted _ bs g1 s1') as [[mb' gb'] sb'].
  cbn [fst snd] in *. injection H3 as <- <-. cbv beta iota.
  split; [reflexivity | split; [reflexivity | exact H4]].
Qed.

Lemma clearHasMoved_faces s : wf s -> sameFaces s (clearHasMoved s).
Proof.
  intros Hwf.
  assert (Hwf' : wf (clearHasMoved s)).
  { unfold wf, clearHasMoved. cbn [board withBoard]. now rewrite length_map. }
  split; [done|]. split; [done|]. split.
  - unfold sameMeta, clearHasMoved. cbn. tauto.
  - intros r c. unfold at_, clearHasMoved, cell. cbn [board withBoard].
    destruct (isValidPosition r c); [| apply faceEq_refl].
    rewrite list_lookup_fmap.
    destruct (board s !! idx r c) as [p|]; cbn; split; reflexivity.
Qed.

(** X19. The member [hasMoved] is dead state: line 427 writes it and
    nothing reads it.  Two states with boards of 64 squares that differ at
    most in the [hasMoved] of their pieces give the same [getPiece] value
    and the same legal-move list for every square, the same evaluation
    and game-over answer, the same answer of [makeMove], and for the same
    random draws the same move of [getBestMove]; and the states these
    calls leave differ again in [hasMoved] at most. *)
Theorem hasMoved_is_never_read (s s' : GameState) :
  sameFaces s s' ->
  (forall r c, getPiece s r c = getPiece s' r c) /\
  (forall r c, fst (getLegalMoves r c s) = fst (getLegalMoves r c s')) /\
  evaluateBoard s = evaluateBoard s' /\
  fst (isGameOver s) = fst (isGameOver s') /\
  (forall fr fc tr tc q,
     fst (makeMove fr fc tr tc q s) = fst (makeMove fr fc tr tc q s') /\
     sameFaces (snd (makeMove fr fc tr tc q s)) (snd (makeMove fr fc tr tc q s'))) /\
  (forall depth g,
     match getBestMove depth g s, getBestMove depth g s' with
     | Some (m, g1, s1), Some (m', g1', s1') => m = m' /\ g1 = g1' /\ sameFaces s1 s1'
     | None, None => True
     | _, _ => False
     end).
Proof.
  intros H. pose proof H as (Hwf & Hwf' & _).
  split; [intros; now apply getPiece_faces|].
  split; [intros; rewrite !getLegalMoves_eq by done; now apply legalMoves_faces|].
  split; [now apply evaluateBoard_faces|].
  split; [now apply isGameOver_faces|].
  split; [intros; now apply makeMove_faces | intros; now apply getBestMove_faces].
Qed.

Lemma hasMoved_is_never_read_witness :
  (forall r c, getPiece afterSearch r c = getPiece (clearHasMoved afterSearch) r c) /\
  (forall r c, fst (getLegalMoves r c afterSearch)
               = fst (getLegalMoves r c (clearHasMoved afterSearch))) /\
  evaluateBoard afterSearch = evaluateBoard (clearHasMoved afterSearch) /\
  fst (isGameOver afterSearch) = fst (isGameOver (clearHasMoved afterSearch)) /\
  (forall fr fc tr tc q,
     fst (makeMove fr fc tr tc q afterSearch)
     = fst (makeMove fr fc tr tc q (clearHasMoved afterSearch)) /\
     sameFaces (snd (makeMove fr fc tr tc q afterSearch))
               (snd (makeMove fr fc tr tc q (clearHasMoved afterSearch)))) /\
  (forall depth g,
     match getBestMove depth g afterSearch,
           getBestMove depth g (clearHasMoved afterSearch) with
     | Some (m, g1, s1), Some (m', g1', s1') => m = m' /\ g1 = g1' /\ sameFaces s1 s1'
     | None, None => True
     | _, _ => False
     end).
Proof.
  apply (hasMoved_is_never_read afterSearch (clearHasMoved afterSearch)).
  apply clearHasMoved_faces. vm_compute. reflexivity.
Defined.

(** X20. [isSquareAttacked] answers [true] exactly when the board holds
    a piece of the attacking colour that is either a pawn one rank behind
    the square (in the attacker's direction of advance) and one file
    aside, whatever is on the square and whether or not the square is on
    the board, or another piece with a pseudo-legal move to the square
    that is not castling. *)
Theorem isSquareAttacked_characterised (s : GameState) (row col : Z) (a : Color) :
  isSquareAttacked s row col a = true <->
  exists r c,
    isValidPosition r c = true /\ type (at_ s r c) <> EMPTY /\ color (at_ s r c) = a /\
    ((type (at_ s r c) = PAWN /\
      row = r + (if bool_decide (a = WHITE) then -1 else 1) /\
      (col = c - 1 \/ col = c + 1)) \/
     (type (at_ s r c) <> PAWN /\
      exists m, In m (getPseudoLegalMoves s r c) /\
                toRow m = row /\ toCol m = col /\ isCastling m = false)).
Proof.
  unfold isSquareAttacked. rewrite existsb_exists. split.
  - intros ([r c] & Hin & H). cbn [fst snd] in H. exists r, c.
    apply squares_valid in Hin. split; [exact Hin|].
    destruct (bool_decide (type (at_ s r c) <> EMPTY)) eqn:He; [| discriminate H].
    destruct (bool_decide (color (at_ s r c) = a)) eqn:Hc; [| discriminate H].
    apply bool_decide_eq_true in He, Hc. cbn [andb] in H.
    split; [exact He|]. split; [exact Hc|].
    destruct (bool_decide (type (at_ s r c) = PAWN)) eqn:Hp.
    + apply bool_decide_eq_true in Hp. left. split; [exact Hp|].
      cbn [existsb] in H. rewrite orb_false_r in H.
      apply orb_true_iff in H as [H | H];
        apply andb_true_iff in H as [H1%Z.eqb_eq H2%Z.eqb_eq]; lia.
    + apply bool_decide_eq_false in Hp. right. split; [exact Hp|].
      apply existsb_exists in H as (m & Hm & H).
      apply andb_true_iff in H as [H H3]. apply andb_true_iff in H as [H1%Z.eqb_eq H2%Z.eqb_eq].
      apply negb_true_iff in H3. exists m. done.
  - intros (r & c & Hv & He & Hc & H). exists (r, c).
    split; [now apply squares_complete|]. cbn [fst snd].
    rewrite (bool_decide_eq_true_2 _ He), (bool_decide_eq_true_2 _ Hc). cbn [andb].
    destruct H as [(Hp & Hr & Hcol) | (Hp & m & Hm & H1 & H2 & H3)].
    + rewrite (bool_decide_eq_true_2 _ Hp). cbn [existsb]. rewrite orb_false_r.
      apply orb_true_iff. destruct Hcol as [-> | ->]; [left | right];
        apply andb_true_iff; split; apply Z.eqb_eq; lia.
    + rewrite (bool_decide_eq_false_2 _ Hp). apply existsb_exists. exists m.
      split; [exact Hm|]. rewrite H1, H2, H3, !Z.eqb_refl. reflexivity.
Qed.

(** X21. The base cases of [minimax] on a board of 64 squares: at depth
    0 it returns [evaluateBoard]; at a greater depth, in a position where
    no square has a legal move, it returns 0 when the side to move is not
    in check, and otherwise -999999 or 999999 according to its argument
    [maximizing], not according to the colour that is mated.  Both leave
    the state as it was. *)
Theorem minimax_base_cases (s : GameState) (alpha beta : Z) (maximizing : bool) (d : nat) :
  length (board s) = 64%nat ->
  minimax 0 alpha beta maximizing s = (evaluateBoard s, s) /\
  ((forall r c, fst (getLegalMoves r c s) = []) ->
   minimax (S d) alpha beta maximizing s =
     (if isInCheck s (currentPlayer s)
      then (if maximizing then -999999 else 999999) else 0, s)).
Proof.
  intros Hwf. split; [reflexivity|]. intros Hnone.
  rewrite minimax_S, collectAllMoves_eq by exact Hwf.
  apply (allLegalMoves_nil s Hwf) in Hnone. now rewrite Hnone.
Qed.

Lemma minimax_base_cases_witness :
  minimax 0 (-999999) 999999 true (snd foolsMate)
  = (evaluateBoard (snd foolsMate), snd foolsMate) /\
  ((forall r c, fst (getLegalMoves r c (snd foolsMate)) = []) ->
   minimax 1 (-999999) 999999 true (snd foolsMate) =
     (if isInCheck (snd foolsMate) (currentPlayer (snd foolsMate))
      then (if true then -999999 else 999999) else 0, snd foolsMate)).
Proof.
  apply (minimax_base_cases (snd foolsMate) (-999999) 999999 true 0).
  vm_compute. reflexivity.
Defined.

(** X22. How a move sets the castling flags.  After a successful
    [makeMove] from a reachable state a king's flag is set exactly when
    it was set or the piece moved is the king of that colour, and a rook's
    flag exactly when it was set or the piece moved is a rook of that
    colour leaving file 0 or file 7, from whatever rank; a capture of the
    rook on its corner sets no flag. *)
Theorem makeMove_sets_castling_flags (s s' : GameState) (fr fc tr tc : Z) (q : PieceType) :
  reachable s -> makeMove fr fc tr tc q s = (true, s') ->
  let p := at_ s fr fc in
  let white := bool_decide (color p = WHITE) in
  let king := bool_decide (type p = KING) in
  let rook := bool_decide (type p = ROOK) in
  whiteKingMoved s' = whiteKingMoved s || (king && white) /\
  blackKingMoved s' = blackKingMoved s || (king && negb white) /\
  whiteRookAMoved s' = whiteRookAMoved s || (rook && white && (fc =? 0)) /\
  whiteRookHMoved s' = whiteRookHMoved s || (rook && white && (fc =? 7)) /\
  blackRookAMoved s' = blackRookAMoved s || (rook && negb white && (fc =? 0)) /\
  blackRookHMoved s' = blackRookHMoved s || (rook && negb white && (fc =? 7)).
Proof.
  intros Hr Hm. cbv zeta. apply reachable_Inv in Hr as (Hwf & _ & Hk).
  destruct (makeMove_Some _ _ _ _ _ _ _ Hwf Hm) as (m & Hin & _ & _ & ->).
  apply list_elem_of_In in Hin.
  destruct (legal_from_square s fr fc m Hk Hin) as [<- <-].
  pose proof (meta_executeMoveInternal m q s) as H. cbv zeta in H.
  unfold isType, isWhite in H. tauto.
Qed.

Lemma makeMove_sets_castling_flags_witness :
  let s := snd castlingReady in
  let s' := snd (makeMove 7 7 7 6 QUEEN (snd castlingReady)) in
  let p := at_ s 7 7 in
  let white := bool_decide (color p = WHITE) in
  let king := bool_decide (type p = KING) in
  let rook := bool_decide (type p = ROOK) in
  whiteKingMoved s' = whiteKingMoved s || (king && white) /\
  blackKingMoved s' = blackKingMoved s || (king && negb white) /\
  whiteRookAMoved s' = whiteRookAMoved s || (rook && white && (7 =? 0)) /\
  whiteRookHMoved s' = whiteRookHMoved s || (rook && white && (7 =? 7)) /\
  blackRookAMoved s' = blackRookAMoved s || (rook && negb white && (7 =? 0)) /\
  blackRookHMoved s' = blackRookHMoved s || (rook && negb white && (7 =? 7)).
Proof.
  apply (makeMove_sets_castling_flags (snd castlingReady)
           (snd (makeMove 7 7 7 6 QUEEN (snd castlingReady))) 7 7 7 6 QUEEN).
  - apply reachable_playMoves, reachable_init.
  - vm_compute. reflexivity.
Defined.

Lemma legal_move_leaves_square s row col m :
  In m (legalMoves s row col) -> toRow m <> row \/ toCol m <> col.
Proof.
  intros Hin.
  apply list_elem_of_In, legalMoves_spec in Hin as (Hv & Hne & _ & _ & _ & Hps).
  destruct Hps as [_ Hplain Hcastle _ _ _].
  destruct (isCastling m) eqn:Hcas.
  - destruct (Hcastle eq_refl) as (_ & _ & _ & Hsh).
    assert (He : type (at_ s (toRow m) (toCol m)) = EMPTY).
    { unfold castlingShape, isEmptyAt in Hsh.
      destruct (color (at_ s row col)); [contradiction | |];
        destruct Hsh as (_ & _ & _ & -> & [(-> & _ & _ & H) | (-> & _ & _ & H & _)]);
        now apply bool_decide_eq_true in H. }
    destruct (decide (toRow m = row)) as [Hr | Hr]; [| now left].
    destruct (decide (toCol m = col)) as [Hc | Hc]; [| now right].
    rewrite Hr, Hc in He. contradiction.
  - destruct (Hplain eq_refl) as (_ & _ & H). exact H.
Qed.

(** X23. What [makeMove] refuses: on a board of 64 squares a request
    whose origin or destination is off the board, whose origin is empty
    or holds a piece of the side not to move, or whose destination is the
    origin, returns [false] and leaves the state as it was. *)
Theorem makeMove_refuses_bad_requests (s : GameState) (fr fc tr tc : Z) (q : PieceType) :
  length (board s) = 64%nat ->
  isValidPosition fr fc = false \/ isValidPosition tr tc = false \/
  type (at_ s fr fc) = EMPTY \/ color (at_ s fr fc) <> currentPlayer s \/
  (fr = tr /\ fc = tc) ->
  makeMove fr fc tr tc q s = (false, s).
Proof.
  intros Hwf Hbad. rewrite makeMove_eq by exact Hwf.
  destruct (matchingMove (legalMoves s fr fc) tr tc) as [m|] eqn:Hm; [| reflexivity].
  exfalso. apply matchingMove_Some in Hm as (Hin & Htr & Htc).
  apply list_elem_of_In in Hin.
  pose proof (legal_move_leaves_square s fr fc m Hin) as Hleave.
  apply list_elem_of_In, legalMoves_spec in Hin as (Hv & Hne & Hcol & _ & _ & Hps).
  destruct Hps as [Hto _ _ _ _ _]. rewrite Htr, Htc in *.
  destruct Hbad as [H | [H | [H | [H | [H1 H2]]]]]; try congruence. lia.
Qed.

Lemma makeMove_refuses_bad_requests_witness :
  makeMove 1 4 3 4 QUEEN initializeBoard = (false, initializeBoard).
Proof.
  apply (makeMove_refuses_bad_requests initializeBoard 1 4 3 4 QUEEN).
  - vm_compute. reflexivity.
  - right. right. right. left. vm_compute. discriminate.
Defined.




Lemma sameOccupancy_put s r c p :
  wf s ->
  (type p = EMPTY <-> type (at_ s r c) = EMPTY) -> color p = color (at_ s r c) ->
  sameOccupancy s (put r c p s).
Proof.
  intros Hwf Ht Hc r' c'. rewrite at_put by done.
  destruct (isValidPosition r c && (r =? r') && (c =? c')) eqn:E; [| tauto].
  apply andb_true_iff in E as [E ->%Z.eqb_eq]. apply andb_true_iff in E as [_ ->%Z.eqb_eq].
  split; [tauto | congruence].
Qed.

(** X25. What [isSquareAttacked] depends on: two positions in which the
    same squares are empty, every square has the same colour, and the
    pieces of the attacking colour have the same types give the same
    answer for every square, whatever the types of the other side's
    pieces, the [hasMoved] marks, the castling flags, the en-passant
    target and the side to move. *)
Theorem attack_depends_on_occupancy (s s' : GameState) (row col : Z) (a : Color) :
  (forall r c, (type (at_ s r c) = EMPTY <-> type (at_ s' r c) = EMPTY) /\
               color (at_ s r c) = color (at_ s' r c)) ->
  (forall r c, color (at_ s r c) = a -> type (at_ s r c) = type (at_ s' r c)) ->
  isSquareAttacked s row col a = isSquareAttacked s' row col a.
Proof. intros H1 H2. now apply isSquareAttacked_occ. Qed.

Lemma attack_depends_on_occupancy_witness :
  isSquareAttacked initializeBoard 5 4 BLACK
  = isSquareAttacked (put 6 4 (mkPiece QUEEN WHITE true) initializeBoard) 5 4 BLACK.
Proof.
  apply (attack_depends_on_occupancy initializeBoard
           (put 6 4 (mkPiece QUEEN WHITE true) initializeBoard) 5 4 BLACK).
  - apply sameOccupancy_put.
    + vm_compute. reflexivity.
    + vm_compute. split; discriminate.
    + vm_compute. reflexivity.
  - intros r c Hc.
    rewrite at_put by (vm_compute; reflexivity).
    destruct (isValidPosition 6 4 && (6 =? r) && (4 =? c)) eqn:E; [| reflexivity].
    apply andb_true_iff in E as [E Ec%Z.eqb_eq]. apply andb_true_iff in E as [_ Er%Z.eqb_eq].
    subst r c. vm_compute in Hc. discriminate Hc.
Defined.

(** X26. The side to move as the boundary reports it: without a game the
    answer is 1, and with a game in a reachable state it is 1 (White) or
    2 (Black), the enumerator of [currentPlayer], never 0. *)
Theorem getCurrentPlayer_is_white_or_black (w : Jni.Globals) :
  (forall s, Jni.game w = Some s -> reachable s) ->
  (Jni.game w = None -> Jni.getCurrentPlayer w = 1) /\
  (forall s, Jni.game w = Some s ->
     (Jni.getCurrentPlayer w = 1 /\ currentPlayer s = WHITE) \/
     (Jni.getCurrentPlayer w = 2 /\ currentPlayer s = BLACK)).
Proof.
  intros Hr. unfold Jni.getCurrentPlayer, getCurrentPlayer. split.
  - intros ->. reflexivity.
  - intros s Hs. rewrite Hs.
    destruct (reachable_player s (Hr s Hs)) as [-> | ->]; [left | right]; done.
Qed.

Lemma getCurrentPlayer_is_white_or_black_witness :
  (Jni.game (Jni.initGame Jni.start) = None ->
   Jni.getCurrentPlayer (Jni.initGame Jni.start) = 1) /\
  (forall s, Jni.game (Jni.initGame Jni.start) = Some s ->
     (Jni.getCurrentPlayer (Jni.initGame Jni.start) = 1 /\ currentPlayer s = WHITE) \/
     (Jni.getCurrentPlayer (Jni.initGame Jni.start) = 2 /\ currentPlayer s = BLACK)).
Proof.
  apply (getCurrentPlayer_is_white_or_black (Jni.initGame Jni.start)).
  intros s [= <-]. apply reachable_init.
Defined.

Lemma v2_castlingMoves_neverAnswers s p moves :
  V2.castlingMoves neverAnswers s p moves =
  if bool_decide (color p = WHITE) && negb (V2.whiteKingMoved s) then None
  else if bool_decide (color p = BLACK) && negb (V2.blackKingMoved s) then None
       else Some moves.
Proof.
  unfold V2.castlingMoves, neverAnswers, V2.andThen, V2.notCall.
  destruct (bool_decide (color p = WHITE) && negb (V2.whiteKingMoved s)); [reflexivity|].
  destruct (bool_decide (color p = BLACK) && negb (V2.blackKingMoved s)); reflexivity.
Qed.

Lemma v2_castlingMoves_unanswered rec s p moves :
  kingUnmoved s (color p) -> rec (V2.QCheck (color p)) = None ->
  V2.castlingMoves rec s p moves = None.
Proof.
  intros [[Hc Hk] | [Hc Hk]] Hrec; unfold V2.castlingMoves; rewrite Hc in *; rewrite Hk.
  - rewrite Hrec. reflexivity.
  - rewrite Hrec. reflexivity.
Qed.

Lemma v2_castlingMoves_silent rec s p moves l :
  V2.castlingMoves neverAnswers s p moves = Some l ->
  V2.castlingMoves rec s p moves = Some l.
Proof.
  rewrite v2_castlingMoves_neverAnswers. unfold V2.castlingMoves.
  destruct (bool_decide (color p = WHITE) && negb (V2.whiteKingMoved s)); [discriminate|].
  destruct (bool_decide (color p = BLACK) && negb (V2.blackKingMoved s)); [discriminate|].
  cbn. auto.
Qed.

Lemma v2_castlingMoves_guard s p moves :
  V2.castlingMoves neverAnswers s p moves = None -> kingUnmoved s (color p).
Proof.
  rewrite v2_castlingMoves_neverAnswers. unfold kingUnmoved.
  destruct (bool_decide (color p = WHITE) && negb (V2.whiteKingMoved s)) eqn:E1.
  - intros _. apply andb_true_iff in E1 as [H1 H2]. apply bool_decide_eq_true in H1.
    apply negb_true_iff in H2. auto.
  - destruct (bool_decide (color p = BLACK) && negb (V2.blackKingMoved s)) eqn:E2;
      [|discriminate].
    intros _. apply andb_true_iff in E2 as [H1 H2]. apply bool_decide_eq_true in H1.
    apply negb_true_iff in H2. auto.
Qed.

Lemma v2_getPseudoLegalMoves_silent rec s row col l :
  V2.getPseudoLegalMoves neverAnswers s row col = Some l ->
  V2.getPseudoLegalMoves rec s row col = Some l.
Proof.
  unfold V2.getPseudoLegalMoves, V2.getKingMoves.
  destruct (type (V2.at_ s row col)); auto. apply v2_castlingMoves_silent.
Qed.

Lemma v2_getPseudoLegalMoves_guard s row col :
  V2.getPseudoLegalMoves neverAnswers s row col = None ->
  type (V2.at_ s row col) = KING /\ kingUnmoved s (color (V2.at_ s row col)).
Proof.
  unfold V2.getPseudoLegalMoves, V2.getKingMoves.
  destruct (type (V2.at_ s row col)); try discriminate.
  intros H. split; [reflexivity|]. eapply v2_castlingMoves_guard, H.
Qed.

Lemma v2_getPseudoLegalMoves_unanswered rec s row col :
  type (V2.at_ s row col) = KING -> kingUnmoved s (color (V2.at_ s row col)) ->
  rec (V2.QCheck (color (V2.at_ s row col))) = None ->
  V2.getPseudoLegalMoves rec s row col = None.
Proof.
  intros Ht Hk Hrec. unfold V2.getPseudoLegalMoves, V2.getKingMoves. rewrite Ht.
  apply v2_castlingMoves_unanswered; assumption.
Qed.

Lemma firstHit_None {A} (f0 f : A -> option bool) l :
  (forall x b, f0 x = Some b -> f x = Some b) ->
  (forall x, f0 x = None -> f x = None) ->
  V2.firstHit f0 l = None -> V2.firstHit f l = None.
Proof.
  intros Hsome Hnone. induction l as [|x l IH]; cbn; [discriminate|].
  destruct (f0 x) as [b|] eqn:E.
  - rewrite (Hsome _ _ E). destruct b; [discriminate | exact IH].
  - rewrite (Hnone _ E). reflexivity.
Qed.

Lemma firstHit_None_inv {A} (f : A -> option bool) l :
  V2.firstHit f l = None -> exists x, In x l /\ f x = None.
Proof.
  induction l as [|x l IH]; cbn; [discriminate|].
  destruct (f x) as [b|] eqn:E.
  - destruct b; [discriminate|]. intros H. destruct (IH H) as (y & Hy & Hf).
    exists y. auto.
  - intros _. exists x. auto.
Qed.

(** The scan stops without an answer only at an unmoved king of the
    attacking colour. *)
Lemma v2_scan_guard s row col a :
  V2.isSquareAttackedBody neverAnswers s row col a = None -> kingUnmoved s a.
Proof.
  intros H. apply firstHit_None_inv in H as ([r c] & _ & H). cbn [fst snd] in H.
  destruct (bool_decide (type (V2.at_ s r c) <> EMPTY)
            && bool_decide (color (V2.at_ s r c) = a)) eqn:G; [|discriminate].
  apply andb_true_iff in G as [_ G]. apply bool_decide_eq_true in G.
  destruct (bool_decide (type (V2.at_ s r c) = PAWN)); [discriminate|].
  destruct (V2.getPseudoLegalMoves neverAnswers s r c) eqn:E; [discriminate|].
  apply v2_getPseudoLegalMoves_guard in E as [_ E]. rewrite G in E. exact E.
Qed.

(** A scan that waits for [isInCheck] waits as long as that call does. *)
Lemma v2_scan_unanswered rec s row col a :
  V2.isSquareAttackedBody neverAnswers s row col a = None ->
  rec (V2.QCheck a) = None ->
  V2.isSquareAttackedBody rec s row col a = None.
Proof.
  intros H Hrec. unfold V2.isSquareAttackedBody in *.
  revert H. apply firstHit_None.
  - intros [r c] b. cbn [fst snd].
    destruct (bool_decide (type (V2.at_ s r c) <> EMPTY)
              && bool_decide (color (V2.at_ s r c) = a)); [|auto].
    destruct (bool_decide (type (V2.at_ s r c) = PAWN)); [auto|].
    destruct (V2.getPseudoLegalMoves neverAnswers s r c) eqn:E; [|discriminate].
    rewrite (v2_getPseudoLegalMoves_silent rec _ _ _ _ E). auto.
  - intros [r c]. cbn [fst snd].
    destruct (bool_decide (type (V2.at_ s r c) <> EMPTY)
              && bool_decide (color (V2.at_ s r c) = a)) eqn:G; [|discriminate].
    apply andb_true_iff in G as [_ G]. apply bool_decide_eq_true in G.
    destruct (bool_decide (type (V2.at_ s r c) = PAWN)); [discriminate|].
    destruct (V2.getPseudoLegalMoves neverAnswers s r c) eqn:E; [discriminate|].
    intros _. apply v2_getPseudoLegalMoves_guard in E as [Ht Hk].
    rewrite v2_getPseudoLegalMoves_unanswered; [reflexivity | assumption.. |].
    rewrite G. exact Hrec.
Qed.

Lemma reachesCastlingGuard_inv s c :
  reachesCastlingGuard s c = true ->
  exists kingRow kingCol,
    V2.findKing s c = Some (kingRow, kingCol)
    /\ V2.isSquareAttackedBody neverAnswers s kingRow kingCol (opponent c) = None.
Proof.
  unfold reachesCastlingGuard. destruct (V2.findKing s c) as [[kr kc]|]; [|discriminate].
  destruct (V2.isSquareAttackedBody neverAnswers s kr kc (opponent c)) eqn:E;
    [discriminate|].
  intros _. exists kr, kc. auto.
Qed.

Lemma opponent_WHITE : opponent WHITE = BLACK.
Proof. reflexivity. Qed.

Lemma opponent_BLACK : opponent BLACK = WHITE.
Proof. reflexivity. Qed.

(** The mutual recursion of [isInCheck], [isSquareAttacked] and
    [getKingMoves] has no bottom when each colour's scan comes to the other
    king's castling header. *)
Lemma v2_ask_unanswered s :
  reachesCastlingGuard s WHITE = true -> reachesCastlingGuard s BLACK = true ->
  forall depth,
    V2.ask depth s (V2.QCheck WHITE) = None /\ V2.ask depth s (V2.QCheck BLACK) = None.
Proof.
  intros Hw Hb.
  apply reachesCastlingGuard_inv in Hw as (wr & wc & Hwk & Hws).
  apply reachesCastlingGuard_inv in Hb as (br & bc & Hbk & Hbs).
  rewrite opponent_WHITE in Hws. rewrite opponent_BLACK in Hbs.
  assert (Hstep : forall depth,
            V2.ask depth s (V2.QCheck WHITE) = None /\
            V2.ask depth s (V2.QCheck BLACK) = None /\
            V2.ask depth s (V2.QAttacked wr wc BLACK) = None /\
            V2.ask depth s (V2.QAttacked br bc WHITE) = None).
  { induction depth as [|d (IH1 & IH2 & IH3 & IH4)]; [cbn; auto|].
    cbn [V2.ask]. unfold V2.isInCheckBody. rewrite Hwk, Hbk.
    rewrite opponent_WHITE, opponent_BLACK.
    split; [exact IH3|]. split; [exact IH4|]. split.
    - apply v2_scan_unanswered; [exact Hws | exact IH2].
    - apply v2_scan_unanswered; [exact Hbs | exact IH1]. }
  intros depth. destruct (Hstep depth) as (H1 & H2 & _). auto.
Qed.

Lemma v2_findKing_spec s c kingRow kingCol :
  V2.findKing s c = Some (kingRow, kingCol) ->
  isValidPosition kingRow kingCol = true
  /\ type (V2.at_ s kingRow kingCol) = KING /\ color (V2.at_ s kingRow kingCol) = c.
Proof.
  unfold V2.findKing. intros H. apply find_some in H as [Hin H]. cbn [fst snd] in H.
  apply andb_true_iff in H as [H1 H2].
  apply bool_decide_eq_true in H1. apply bool_decide_eq_true in H2.
  repeat split; try assumption.
  unfold V2.at_, cell in H1. destruct (isValidPosition kingRow kingCol); [reflexivity|].
  discriminate H1.
Qed.

(** X27. In the second revision, isInCheck never returns in a position in
    which, for each colour, the scan for the attackers of its king finds none
    before it comes to the other king while that king has not moved: whatever
    bound is put on the depth of the nested calls of isInCheck,
    isSquareAttacked and getKingMoves, neither isInCheck(WHITE) nor
    isInCheck(BLACK) has an answer. *)
Theorem v2_isInCheck_never_returns (s : V2.GameState) (depth : nat) (c : Color) :
  reachesCastlingGuard s WHITE = true -> reachesCastlingGuard s BLACK = true ->
  c <> NONE ->
  V2.isInCheck depth s c = None.
Proof.
  intros Hw Hb Hc. destruct (v2_ask_unanswered s Hw Hb depth) as [H1 H2].
  unfold V2.isInCheck. destruct c; [congruence | exact H1 | exact H2].
Qed.

Lemma v2_isInCheck_never_returns_witness :
  reachesCastlingGuard V2.initializeBoard WHITE = true
  /\ reachesCastlingGuard V2.initializeBoard BLACK = true
  /\ V2.isInCheck 1000 V2.initializeBoard WHITE = None.
Proof.
  split; [vm_compute; reflexivity|]. split; [vm_compute; reflexivity|].
  apply v2_isInCheck_never_returns;
    [vm_compute; reflexivity | vm_compute; reflexivity | discriminate].
Defined.

(** X28. In such a position of the second revision the moves of the king of
    the player to move are never listed: getLegalMoves on the king's square
    and makeMove from it do not return, whatever the bound on the depth of the
    nested calls. *)
Theorem v2_king_square_never_answers (s : V2.GameState) (depth : nat)
    (kingRow kingCol toRow toCol : Z) (promotionPiece : PieceType) :
  reachesCastlingGuard s WHITE = true -> reachesCastlingGuard s BLACK = true ->
  V2.currentPlayer s <> NONE ->
  V2.findKing s (V2.currentPlayer s) = Some (kingRow, kingCol) ->
  V2.getLegalMoves depth kingRow kingCol s = None
  /\ V2.makeMove depth kingRow kingCol toRow toCol promotionPiece s = None.
Proof.
  intros Hw Hb Hp Hk.
  assert (Hlegal : V2.getLegalMoves depth kingRow kingCol s = None).
  { destruct (v2_findKing_spec _ _ _ _ Hk) as (Hv & Ht & Hc).
    pose proof (reachesCastlingGuard_inv _ _ Hw) as (wr & wc & _ & Hws).
    pose proof (reachesCastlingGuard_inv _ _ Hb) as (br & bc & _ & Hbs).
    apply v2_scan_guard in Hws. apply v2_scan_guard in Hbs.
    rewrite opponent_WHITE in Hws. rewrite opponent_BLACK in Hbs.
    destruct (v2_ask_unanswered s Hw Hb depth) as [H1 H2].
    unfold V2.getLegalMoves. rewrite Hv. cbn [negb].
    rewrite Hc, Ht. rewrite bool_decide_eq_false_2 by discriminate.
    rewrite bool_decide_eq_false_2 by (intros H; apply H; reflexivity).
    cbn [orb].
    rewrite v2_getPseudoLegalMoves_unanswered; [reflexivity | exact Ht | |];
      rewrite Hc; destruct (V2.currentPlayer s); try congruence; assumption. }
  split; [exact Hlegal|]. unfold V2.makeMove. rewrite Hlegal. reflexivity.
Qed.

Lemma v2_king_square_never_answers_witness :
  reachesCastlingGuard V2.initializeBoard WHITE = true
  /\ reachesCastlingGuard V2.initializeBoard BLACK = true
  /\ V2.getLegalMoves 1000 7 4 V2.initializeBoard = None
  /\ V2.makeMove 1000 7 4 6 4 QUEEN V2.initializeBoard = None.
Proof.
  split; [vm_compute; reflexivity|]. split; [vm_compute; reflexivity|].
  apply v2_king_square_never_answers;
    [vm_compute; reflexivity | vm_compute; reflexivity | discriminate
    | vm_compute; reflexivity].
Defined.

Lemma v2_counters_captureEnPassant m piece s :
  v2_counters (V2.captureEnPassant m piece s) = v2_counters s.
Proof. unfold V2.captureEnPassant. destruct (V2.isEnPassant m); reflexivity. Qed.

Lemma v2_counters_moveCastlingRook m s :
  v2_counters (V2.moveCastlingRook m s) = v2_counters s.
Proof.
  unfold V2.moveCastlingRook.
  destruct (V2.isCastling m); [|reflexivity]. destruct (V2.toCol m =? 6); reflexivity.
Qed.

Lemma v2_counters_relocatePiece m piece s :
  v2_counters (V2.relocatePiece m piece s) = v2_counters s.
Proof. reflexivity. Qed.

Lemma v2_counters_promotePiece m p s :
  v2_counters (V2.promotePiece m p s) = v2_counters s.
Proof. unfold V2.promotePiece. destruct (V2.isPromotion m); reflexivity. Qed.

Lemma v2_counters_updateCastlingRights m piece s :
  v2_counters (V2.updateCastlingRights m piece s) = v2_counters s.
Proof.
  unfold V2.updateCastlingRights.
  destruct (bool_decide (type piece = KING)), (bool_decide (type piece = ROOK)),
    (bool_decide (color piece = WHITE)), (V2.fromCol m =? 0), (V2.fromCol m =? 7);
    reflexivity.
Qed.

Lemma v2_counters_finishMove m s :
  v2_counters (V2.finishMove m s) =
  (V2.enPassantCol s, V2.enPassantRow s, V2.halfMoveClock s,
   (if bool_decide (V2.currentPlayer s = BLACK)
    then V2.fullMoveNumber s + 1 else V2.fullMoveNumber s),
   (if bool_decide (V2.currentPlayer s = WHITE) then BLACK else WHITE),
   V2.moveHistory s ++ [m]).
Proof.
  unfold V2.finishMove, v2_counters.
  destruct (bool_decide (V2.currentPlayer s = BLACK)); reflexivity.
Qed.

Lemma v2_counters_clock m piece s :
  let s' := V2.updateHalfMoveClock m piece (V2.updateEnPassant m piece s) in
  V2.enPassantCol s' =
    (if bool_decide (type piece = PAWN) && (Z.abs (V2.fromRow m - V2.toRow m) =? 2)
     then V2.fromCol m else -1)
  /\ V2.enPassantRow s' =
    (if bool_decide (type piece = PAWN) && (Z.abs (V2.fromRow m - V2.toRow m) =? 2)
     then Z.quot (V2.fromRow m + V2.toRow m) 2 else -1)
  /\ V2.halfMoveClock s' =
    (if bool_decide (type piece = PAWN) || V2.isCapture m
     then 0 else V2.halfMoveClock s + 1)
  /\ V2.fullMoveNumber s' = V2.fullMoveNumber s
  /\ V2.currentPlayer s' = V2.currentPlayer s
  /\ V2.moveHistory s' = V2.moveHistory s.
Proof.
  unfold V2.updateHalfMoveClock, V2.updateEnPassant. cbv zeta.
  destruct (bool_decide (type piece = PAWN)), (Z.abs (V2.fromRow m - V2.toRow m) =? 2),
    (V2.isCapture m); cbn; auto 10.
Qed.

(** X29. The executor of the second revision keeps its counters as follows,
    for every move and every state: the en passant target is the pair
    (fromCol, middle row) after a pawn's move over two rows and (-1, -1)
    after any other move, so both components are reset together; the
    half-move clock is 0 after a pawn move or a capture and one more
    otherwise; the move number grows by one exactly after Black's moves; the
    turn passes to the other colour (to White from any colour but White); and
    the move is appended to the history. *)
Theorem v2_executeMoveInternal_counters (m : V2.Move) (promotionPiece : PieceType)
    (s : V2.GameState) :
  let piece := V2.at_ s (V2.fromRow m) (V2.fromCol m) in
  v2_counters (V2.executeMoveInternal m promotionPiece s) =
  ((if bool_decide (type piece = PAWN) && (Z.abs (V2.fromRow m - V2.toRow m) =? 2)
    then V2.fromCol m else -1),
   (if bool_decide (type piece = PAWN) && (Z.abs (V2.fromRow m - V2.toRow m) =? 2)
    then Z.quot (V2.fromRow m + V2.toRow m) 2 else -1),
   (if bool_decide (type piece = PAWN) || V2.isCapture m
    then 0 else V2.halfMoveClock s + 1),
   (if bool_decide (V2.currentPlayer s = BLACK)
    then V2.fullMoveNumber s + 1 else V2.fullMoveNumber s),
   (if bool_decide (V2.currentPlayer s = WHITE) then BLACK else WHITE),
   V2.moveHistory s ++ [m]).
Proof.
  intros piece. unfold V2.executeMoveInternal. fold piece.
  set (s1 := V2.moveCastlingRook m (V2.captureEnPassant m piece s)).
  assert (H1 : v2_counters s1 = v2_counters s).
  { unfold s1. rewrite v2_counters_moveCastlingRook, v2_counters_captureEnPassant.
    reflexivity. }
  set (s2 := V2.updateHalfMoveClock m piece (V2.updateEnPassant m piece s1)).
  set (s3 := V2.updateCastlingRights m piece
               (V2.promotePiece m promotionPiece (V2.relocatePiece m piece s2))).
  assert (H3 : v2_counters s3 = v2_counters s2).
  { unfold s3. rewrite v2_counters_updateCastlingRights, v2_counters_promotePiece,
      v2_counters_relocatePiece. reflexivity. }
  rewrite v2_counters_finishMove.
  unfold v2_counters in H1, H3. injection H3 as -> -> -> -> -> ->.
  injection H1 as E1 E2 E3 E4 E5 E6.
  destruct (v2_counters_clock m piece s1) as (C1 & C2 & C3 & C4 & C5 & C6).
  fold s2 in C1, C2, C3, C4, C5, C6.
  rewrite C1, C2, C3, C4, C5, C6, E3, E4, E5, E6. reflexivity.
Qed.

Lemma v2_Forall_snoc (P : V2.Move -> Prop) l m :
  Forall P l -> P m -> Forall P (l ++ [m]).
Proof. intros Hl Hm. apply Forall_app. split; [exact Hl | constructor; [exact Hm | constructor]]. Qed.

Lemma v2_stepMoves_notCastling s row col offsets moves :
  Forall notCastling moves -> Forall notCastling (V2.stepMoves s row col offsets moves).
Proof.
  unfold V2.stepMoves. revert moves.
  induction offsets as [|o offsets IH]; intros moves H; cbn [fold_left]; [exact H|].
  apply IH.
  destruct (isValidPosition (row + fst o) (col + snd o)); [|exact H].
  destruct (bool_decide (type (V2.at_ s (row + fst o) (col + snd o)) = EMPTY)
            || bool_decide (color (V2.at_ s (row + fst o) (col + snd o))
                            <> color (V2.at_ s row col))); [|exact H].
  apply v2_Forall_snoc; [exact H | reflexivity].
Qed.

Lemma v2_slideRay_notCastling s row col dr dc dists moves :
  Forall notCastling moves -> Forall notCastling (V2.slideRay s row col dr dc dists moves).
Proof.
  revert moves. induction dists as [|d dists IH]; intros moves H; cbn [V2.slideRay];
    [exact H|].
  destruct (negb (isValidPosition (row + dr * d) (col + dc * d))); [exact H|].
  destruct (bool_decide (type (V2.at_ s (row + dr * d) (col + dc * d)) = EMPTY)).
  - apply IH. apply v2_Forall_snoc; [exact H | reflexivity].
  - destruct (bool_decide (color (V2.at_ s (row + dr * d) (col + dc * d))
                           <> color (V2.at_ s row col))); [|exact H].
    apply v2_Forall_snoc; [exact H | reflexivity].
Qed.

Lemma v2_getSlidingMoves_notCastling s row col directions moves :
  Forall notCastling moves ->
  Forall notCastling (V2.getSlidingMoves s row col directions moves).
Proof.
  unfold V2.getSlidingMoves. revert moves.
  induction directions as [|d directions IH]; intros moves H; cbn [fold_left]; [exact H|].
  apply IH. apply v2_slideRay_notCastling. exact H.
Qed.

Lemma v2_getPawnMoves_notCastling s row col moves :
  Forall notCastling moves -> Forall notCastling (V2.getPawnMoves s row col moves).
Proof.
  intros H. unfold V2.getPawnMoves. cbv zeta. cbn [fold_left].
  repeat match goal with
         | |- Forall notCastling (if ?b then _ else _) => destruct b
         | |- Forall notCastling (_ ++ [_]) => apply v2_Forall_snoc; [|reflexivity]
         end; exact H.
Qed.

Lemma v2_andThen_true a b : V2.andThen a b = Some true -> a = true /\ b = Some true.
Proof. destruct a; cbn; [auto | discriminate]. Qed.

Lemma v2_notCall_true b : V2.notCall b = Some true -> b = Some false.
Proof. destruct b as [[]|]; cbn; congruence. Qed.

Lemma v2_neitherAttacked_true rec r c1 c2 a :
  V2.neitherAttacked rec r c1 c2 a = Some true ->
  rec (V2.QAttacked r c1 a) = Some false /\ rec (V2.QAttacked r c2 a) = Some false.
Proof.
  unfold V2.neitherAttacked.
  destruct (V2.notCall (rec (V2.QAttacked r c1 a))) as [free|] eqn:E; [|discriminate].
  intros H. apply v2_andThen_true in H as [-> H].
  split; apply v2_notCall_true; assumption.
Qed.

Lemma v2_castlingSides_castling rec s row rookH rookA attacker moves l m :
  Forall notCastling moves ->
  V2.castlingSides rec s row rookH rookA attacker moves = Some l ->
  In m l -> V2.isCastling m = true ->
  (m = V2.castle row 6 /\ rookH = false
   /\ V2.isEmptyAt s row 5 = true /\ V2.isEmptyAt s row 6 = true
   /\ rec (V2.QAttacked row 5 attacker) = Some false
   /\ rec (V2.QAttacked row 6 attacker) = Some false)
  \/ (m = V2.castle row 2 /\ rookA = false
      /\ V2.isEmptyAt s row 1 = true /\ V2.isEmptyAt s row 2 = true
      /\ V2.isEmptyAt s row 3 = true
      /\ rec (V2.QAttacked row 3 attacker) = Some false
      /\ rec (V2.QAttacked row 2 attacker) = Some false).
Proof.
  intros Hmoves. unfold V2.castlingSides.
  destruct (V2.andThen (negb rookH && V2.isEmptyAt s row 5 && V2.isEmptyAt s row 6)
              (V2.neitherAttacked rec row 5 6 attacker)) as [k|] eqn:Ek; [|discriminate].
  destruct (V2.andThen (negb rookA && V2.isEmptyAt s row 1 && V2.isEmptyAt s row 2
                        && V2.isEmptyAt s row 3)
              (V2.neitherAttacked rec row 3 2 attacker)) as [q|] eqn:Eq; [|discriminate].
  intros [= <-] Hin Hc.
  assert (Hold : ~ In m moves).
  { intros Hm. rewrite Forall_forall in Hmoves. specialize (Hmoves _ Hm).
    unfold notCastling in Hmoves. congruence. }
  assert (Hk : k = true -> m = V2.castle row 6 -> 
               m = V2.castle row 6 /\ rookH = false
               /\ V2.isEmptyAt s row 5 = true /\ V2.isEmptyAt s row 6 = true
               /\ rec (V2.QAttacked row 5 attacker) = Some false
               /\ rec (V2.QAttacked row 6 attacker) = Some false).
  { intros -> Hm. apply v2_andThen_true in Ek as [Hg Ha].
    apply andb_true_iff in Hg as [Hg H6]. apply andb_true_iff in Hg as [Hr H5].
    apply negb_true_iff in Hr. apply v2_neitherAttacked_true in Ha as [A5 A6].
    auto 10. }
  assert (Hq : q = true -> m = V2.castle row 2 ->
               m = V2.castle row 2 /\ rookA = false
               /\ V2.isEmptyAt s row 1 = true /\ V2.isEmptyAt s row 2 = true
               /\ V2.isEmptyAt s row 3 = true
               /\ rec (V2.QAttacked row 3 attacker) = Some false
               /\ rec (V2.QAttacked row 2 attacker) = Some false).
  { intros -> Hm. apply v2_andThen_true in Eq as [Hg Ha].
    apply andb_true_iff in Hg as [Hg H3]. apply andb_true_iff in Hg as [Hg H2].
    apply andb_true_iff in Hg as [Hr H1].
    apply negb_true_iff in Hr. apply v2_neitherAttacked_true in Ha as [A3 A2].
    auto 10. }
  destruct k, q; rewrite ?in_app_iff in Hin; cbn [In] in Hin;
    intuition (try congruence; auto).
Qed.

Lemma v2_castlingMoves_castling rec s piece moves l m :
  Forall notCastling moves ->
  V2.castlingMoves rec s piece moves = Some l ->
  In m l -> V2.isCastling m = true ->
  exists row attacker rookH rookA,
    ((color piece = WHITE /\ V2.whiteKingMoved s = false /\ row = 7 /\ attacker = BLACK
      /\ rookH = V2.whiteRookHMoved s /\ rookA = V2.whiteRookAMoved s)
     \/ (color piece = BLACK /\ V2.blackKingMoved s = false /\ row = 0 /\ attacker = WHITE
         /\ rookH = V2.blackRookHMoved s /\ rookA = V2.blackRookAMoved s))
    /\ rec (V2.QCheck (color piece)) = Some false
    /\ V2.castlingSides rec s row rookH rookA attacker moves = Some l.
Proof.
  intros Hmoves. unfold V2.castlingMoves.
  assert (Hold : forall l', Some moves = Some l' -> In m l' -> V2.isCastling m = true -> False).
  { intros l' [= <-] Hm Hc. rewrite Forall_forall in Hmoves. specialize (Hmoves _ Hm).
    unfold notCastling in Hmoves. congruence. }
  destruct (V2.andThen (bool_decide (color piece = WHITE) && negb (V2.whiteKingMoved s))
              (V2.notCall (rec (V2.QCheck WHITE)))) as [[]|] eqn:E1; [| |discriminate].
  - intros Hl Hin Hc. apply v2_andThen_true in E1 as [Hg Hr].
    apply andb_true_iff in Hg as [Hw Hk]. apply bool_decide_eq_true in Hw.
    apply negb_true_iff in Hk. apply v2_notCall_true in Hr.
    exists 7, BLACK, (V2.whiteRookHMoved s), (V2.whiteRookAMoved s).
    rewrite Hw. auto 10.
  - destruct (V2.andThen (bool_decide (color piece = BLACK) && negb (V2.blackKingMoved s))
                (V2.notCall (rec (V2.QCheck BLACK)))) as [[]|] eqn:E2; [| |discriminate].
    + intros Hl Hin Hc. apply v2_andThen_true in E2 as [Hg Hr].
      apply andb_true_iff in Hg as [Hb Hk]. apply bool_decide_eq_true in Hb.
      apply negb_true_iff in Hk. apply v2_notCall_true in Hr.
      exists 0, WHITE, (V2.blackRookHMoved s), (V2.blackRookAMoved s).
      rewrite Hb. auto 10.
    + intros Hl Hin Hc. exfalso. eapply Hold; eassumption.
Qed.

Lemma v2_getPseudoLegalMoves_castling rec s row col moves m :
  V2.getPseudoLegalMoves rec s row col = Some moves ->
  In m moves -> V2.isCastling m = true ->
  type (V2.at_ s row col) = KING
  /\ exists l0, Forall notCastling l0
       /\ V2.castlingMoves rec s (V2.at_ s row col) l0 = Some moves.
Proof.
  unfold V2.getPseudoLegalMoves.
  assert (Hno : forall l, Forall notCastling l -> Some l = Some moves ->
                          In m moves -> V2.isCastling m = true -> False).
  { intros l Hl [= <-] Hm Hc. rewrite Forall_forall in Hl. specialize (Hl _ Hm).
    unfold notCastling in Hl. congruence. }
  destruct (type (V2.at_ s row col)) eqn:T; intros Hl Hin Hc.
  - exfalso. eapply (Hno []); eauto.
  - exfalso. eapply Hno; [apply v2_getPawnMoves_notCastling | ..]; eauto.
  - exfalso. eapply Hno; [apply v2_stepMoves_notCastling | ..]; eauto.
  - exfalso. eapply Hno; [apply v2_getSlidingMoves_notCastling | ..]; eauto.
  - exfalso. eapply Hno; [apply v2_getSlidingMoves_notCastling | ..]; eauto.
  - exfalso. eapply Hno; [apply v2_getSlidingMoves_notCastling | ..]; eauto.
  - split; [reflexivity|]. unfold V2.getKingMoves in Hl.
    eexists. split; [|exact Hl]. apply v2_stepMoves_notCastling. constructor.
Qed.

(** X30. In the second revision a castling move is listed only when the
    program's own tests allow it: if getPseudoLegalMoves returns a list with a
    castling move, the piece is a king of White or Black whose moved flag is
    clear, the move goes from column 4 of the home row (7 for White, 0 for
    Black) to column 6 or 2 of that row, isInCheck returned false for the
    king's colour, and isSquareAttacked returned false for the square the king
    passes (column 5 or 3) and for the square it lands on. *)
Theorem v2_castling_listed_only_out_of_check (depth : nat) (s : V2.GameState)
    (row col : Z) (moves : list V2.Move) (m : V2.Move) :
  V2.getPseudoLegalMoves (V2.ask depth s) s row col = Some moves ->
  In m moves -> V2.isCastling m = true ->
  let c := color (V2.at_ s row col) in
  type (V2.at_ s row col) = KING
  /\ kingUnmoved s c
  /\ V2.fromRow m = (if bool_decide (c = WHITE) then 7 else 0)
  /\ V2.fromCol m = 4 /\ V2.toRow m = V2.fromRow m
  /\ (V2.toCol m = 6 \/ V2.toCol m = 2)
  /\ V2.isInCheck depth s c = Some false
  /\ V2.isSquareAttacked depth s (V2.fromRow m) (if V2.toCol m =? 6 then 5 else 3)
       (opponent c) = Some false
  /\ V2.isSquareAttacked depth s (V2.fromRow m) (V2.toCol m) (opponent c) = Some false.
Proof.
  intros Hl Hin Hc c.
  destruct (v2_getPseudoLegalMoves_castling _ _ _ _ _ _ Hl Hin Hc) as (Ht & l0 & Hl0 & Hcm).
  destruct (v2_castlingMoves_castling _ _ _ _ _ _ Hl0 Hcm Hin Hc)
    as (r & a & rh & ra & Hside & Hcheck & Hsides).
  fold c in Hside, Hcheck.
  pose proof (v2_castlingSides_castling _ _ _ _ _ _ _ _ _ Hl0 Hsides Hin Hc) as Hm.
  unfold V2.isInCheck, V2.isSquareAttacked.
  split; [exact Ht|].
  assert (Hcol : (c = WHITE /\ r = 7 /\ a = BLACK) \/ (c = BLACK /\ r = 0 /\ a = WHITE))
    by (destruct Hside as [(? & ? & ? & ? & _)|(? & ? & ? & ? & _)]; auto).
  assert (Hk : kingUnmoved s c)
    by (unfold kingUnmoved;
        destruct Hside as [(? & ? & _)|(? & ? & _)]; auto).
  split; [exact Hk|].
  assert (Hrow : r = (if bool_decide (c = WHITE) then 7 else 0) /\ a = opponent c).
  { destruct Hcol as [(-> & -> & ->)|(-> & -> & ->)]; split; reflexivity. }
  destruct Hrow as [Hr Ha]. rewrite <- Hr, <- Ha.
  destruct Hm as [(-> & _ & _ & _ & A1 & A2)|(-> & _ & _ & _ & _ & A1 & A2)];
    cbn; auto 10.
Qed.

Lemma v2_castling_listed_only_out_of_check_witness :
  V2.getPseudoLegalMoves (V2.ask 3 v2_castlingReady) v2_castlingReady 7 4
  = Some v2_castlingReadyKingMoves
  /\ In (V2.castle 7 6) v2_castlingReadyKingMoves
  /\ V2.isInCheck 3 v2_castlingReady WHITE = Some false
  /\ V2.isSquareAttacked 3 v2_castlingReady 7 5 BLACK = Some false
  /\ V2.isSquareAttacked 3 v2_castlingReady 7 6 BLACK = Some false.
Proof.
  assert (Hl : V2.getPseudoLegalMoves (V2.ask 3 v2_castlingReady) v2_castlingReady 7 4
               = Some v2_castlingReadyKingMoves) by (vm_compute; reflexivity).
  assert (Hin : In (V2.castle 7 6) v2_castlingReadyKingMoves) by (cbn; auto).
  split; [exact Hl|]. split; [exact Hin|].
  destruct (v2_castling_listed_only_out_of_check 3 v2_castlingReady 7 4
              v2_castlingReadyKingMoves (V2.castle 7 6) Hl Hin eq_refl)
    as (_ & _ & _ & _ & _ & _ & H1 & H2 & H3).
  split; [exact H1|]. split; [exact H2 | exact H3].
Defined.
